(** * Apex-Indexer-LS: the symbol index engine, verified over a shallow embedding

    The development follows the TypeScript sources:
    - [types.ts]: the internal 1-based location model;
    - [utils.ts]: tree-sitter and LSP coordinate helpers, [uriToPath];
    - [parser.ts]: [parseFile], the extractor built on tree-sitter queries;
    - [indexerService.ts]: the [IndexerService] class (two name-keyed maps,
      the set of indexed files, the project root and the [isIndexing] flag).

    JavaScript [Map<string, T[]>] is a [gmap string (list T)], [Set<string>] a
    [gset string], and a call that may throw or a promise that may reject
    returns an [outcome]. A [number] is an integer [Z]: lines, columns, rows
    and offsets are integers, and a double holds them and their [+ 1] and
    [- 1] exactly while their magnitude stays below 2^53 (tree-sitter's rows
    and columns are 32-bit). That is the range these numbers stand for. *)

From Stdlib Require Import ZArith String Ascii List Bool Lia.
From stdpp Require Import base option list gmap strings sets fin_maps.

Local Open Scope string_scope.
Local Open Scope list_scope.

(* [set_solver] clears hypotheses by name while it runs. *)
Set Warnings "-clear-no-such-hyp".
Set Default Proof Using "Type".

(** ** Exceptions and rejected promises *)

Inductive outcome (A : Type) : Type :=
| Returned (a : A)
| Thrown (msg : string).
Arguments Returned {A} a.
Arguments Thrown {A} msg.

#[global] Instance outcome_ret : MRet outcome := λ A a, Returned a.
#[global] Instance outcome_bind : MBind outcome := λ A B f m,
  match m with
  | Returned a => f a
  | Thrown msg => Thrown msg
  end.

(** [try { body } catch (e) { handler e }] for a body whose value is used. *)
Definition try_catch {A : Type} (body : outcome A) (handler : string → A) : A :=
  match body with
  | Returned a => a
  | Thrown msg => handler msg
  end.

(** Reduce the binds and handlers of an [outcome] computation, and nothing
    else. *)
Ltac run_outcome := cbn [try_catch mbind outcome_bind mret outcome_ret].

Definition returns {A : Type} (o : outcome A) : Prop := ∃ a, o = Returned a.
Definition throws {A : Type} (o : outcome A) : bool :=
  match o with
  | Returned _ => false
  | Thrown _ => true
  end.

(** JavaScript truthiness of a string: only the empty string is falsy. *)
Definition truthy (s : string) : bool := negb (String.eqb s "").

(** [s.startsWith(p)] *)
Definition startsWith (s p : string) : bool := String.prefix p s.

(** [/suffix$/.test(s)] for a literal suffix (no [m] flag: [$] is the end of
    the input). *)
Definition endsWith (s suffix : string) : bool :=
  (String.length suffix <=? String.length s)%nat
  && String.eqb
       (String.substring (String.length s - String.length suffix)
          (String.length suffix) s)
       suffix.

(** ** types.ts *)

Record Position : Type := mkPosition { line : Z; column : Z }.

Record Range : Type := mkRange { start : Position; end_ : Position }.

Inductive DefinitionKind : Type :=
| class_ | interface | enum | method | property | constructor | trigger
| unknown.

#[global] Instance DefinitionKind_eq_dec : EqDecision DefinitionKind.
Proof. solve_decision. Defined.

(** [interface Location { file; range }], extended by [Definition] and
    [Reference], which both add [name]. *)
Class Located (A : Type) : Type := {
  name : A → string;
  file : A → string;
  range : A → Range;
}.

Record Definition_ : Type := mkDefinition {
  def_name : string;
  kind : DefinitionKind;
  def_file : string;
  def_range : Range;
}.

Record Reference : Type := mkReference {
  ref_name : string;
  ref_file : string;
  ref_range : Range;
}.

#[global] Instance Definition_Located : Located Definition_ :=
  {| name := def_name; file := def_file; range := def_range |}.
#[global] Instance Reference_Located : Located Reference :=
  {| name := ref_name; file := ref_file; range := ref_range |}.

(** ** The protocol's 0-based types (vscode-languageserver) *)

Module Lsp.
Record Position : Type := mkPosition { line : Z; character : Z }.
Record Range : Type := mkRange { start : Position; end_ : Position }.
Record Location : Type := mkLocation { uri : string; range : Range }.

(** [uinteger.MAX_VALUE], and [Is.uinteger] on a number. *)
Definition uinteger_MAX_VALUE : Z := 2147483647.

Definition is_uinteger (value : Z) : bool :=
  (0 <=? value)%Z && (value <=? uinteger_MAX_VALUE)%Z.

(** [Position.is]: both members are [uinteger]s. *)
Definition Position_is (candidate : Position) : bool :=
  is_uinteger (line candidate) && is_uinteger (character candidate).

(** [Range.create(start, end)]: the range of two positions, and an [Error]
    when one of them is not a position. ([Position.create(l, c)] is
    [mkPosition l c]; it replaces [Number.MAX_VALUE] only, which is no number
    of the range modelled here. [Location.create] is [mkLocation].) *)
Definition Range_create (one two : Position) : outcome Range :=
  if Position_is one && Position_is two then Returned (mkRange one two)
  else Thrown "Range#create called with invalid arguments".
End Lsp.

(** ** tree-sitter's view of a syntax tree *)

Module TreeSitter.
Record Point : Type := mkPoint { row : Z; column : Z }.

(** A syntax node, with what [parseFile] reads of it. *)
Record SyntaxNode : Type := mkNode {
  startIndex : nat;
  endIndex : nat;
  startPosition : Point;
  endPosition : Point;
}.

Record Capture : Type := mkCapture { cname : string; node : SyntaxNode }.
Record QueryMatch : Type := mkMatch { captures : list Capture }.
End TreeSitter.

(** ** utils.ts *)

(** [sourceCode.substring(a, b)]: both indices are clamped to the length and
    swapped when [a > b]. *)
Definition js_substring (s : string) (a b : nat) : string :=
  let a' := Nat.min a (String.length s) in
  let b' := Nat.min b (String.length s) in
  String.substring (Nat.min a' b') (Nat.max a' b' - Nat.min a' b') s.

Definition getNodeText (n : TreeSitter.SyntaxNode) (sourceCode : string) : string :=
  js_substring sourceCode (TreeSitter.startIndex n) (TreeSitter.endIndex n).

Definition pointToPosition (point : TreeSitter.Point) : Position :=
  {| line := TreeSitter.row point + 1; column := TreeSitter.column point + 1 |}.

Definition getNodeRange (n : TreeSitter.SyntaxNode) : Range :=
  {| start := pointToPosition (TreeSitter.startPosition n);
     end_ := pointToPosition (TreeSitter.endPosition n) |}.

(** The single-position step of [indexRangeToLspRange]:
    [LspPosition.create(p.line - 1, p.column - 1)]. *)
Definition toLspPosition (p : Position) : Lsp.Position :=
  Lsp.mkPosition (line p - 1) (column p - 1).

Definition indexRangeToLspRange (r : Range) : outcome Lsp.Range :=
  Lsp.Range_create (toLspPosition (start r)) (toLspPosition (end_ r)).

(** The ranges [Range.create] accepts after the shift: both ends, once
    0-based, are pairs of [uinteger]s. *)
Definition inProtocolRange (r : Range) : bool :=
  Lsp.Position_is (toLspPosition (start r))
  && Lsp.Position_is (toLspPosition (end_ r)).

(** [Number.isSafeInteger]: the integers this model stands for, and a range
    of such coordinates. *)
Definition isSafeInteger (n : Z) : bool :=
  (-9007199254740991 <=? n)%Z && (n <=? 9007199254740991)%Z.

Definition safeRange (r : Range) : bool :=
  isSafeInteger (line (start r)) && isSafeInteger (column (start r))
  && isSafeInteger (line (end_ r)) && isSafeInteger (column (end_ r)).

(** A protocol position read as a 0-based point (line = row, character =
    column), the input of [pointToPosition]. *)
Definition lspPositionToPoint (p : Lsp.Position) : TreeSitter.Point :=
  TreeSitter.mkPoint (Lsp.line p) (Lsp.character p).

(** [absolutePath.replace(/\\/g, "/")] *)
Fixpoint slashes (s : string) : string :=
  match s with
  | EmptyString => EmptyString
  | String c rest =>
      String (if Ascii.eqb c "\"%char then "/"%char else c) (slashes rest)
  end.

(** A node whose points are 0-based rows and columns, and a range whose
    positions are 1-based lines and columns. *)
Definition nonNegativeNode (n : TreeSitter.SyntaxNode) : Prop :=
  (0 ≤ TreeSitter.row (TreeSitter.startPosition n))%Z
  ∧ (0 ≤ TreeSitter.column (TreeSitter.startPosition n))%Z
  ∧ (0 ≤ TreeSitter.row (TreeSitter.endPosition n))%Z
  ∧ (0 ≤ TreeSitter.column (TreeSitter.endPosition n))%Z.

Definition oneBased (r : Range) : Prop :=
  (1 ≤ line (start r))%Z ∧ (1 ≤ column (start r))%Z
  ∧ (1 ≤ line (end_ r))%Z ∧ (1 ≤ column (end_ r))%Z.

(** [/[a-zA-Z0-9_]/] on one code unit. *)
Definition isWordChar (c : ascii) : bool :=
  let n := nat_of_ascii c in
  ((97 <=? n) && (n <=? 122) || (65 <=? n) && (n <=? 90)
   || (48 <=? n) && (n <=? 57) || (n =? 95))%nat.

(** The successive results of [regex.exec(text)] for [/[a-zA-Z0-9_]+/g], as
    pairs of [match.index] and [match[0]]: the maximal runs of word
    characters, from left to right. [i] is the index of the first character of
    [text]. *)
Fixpoint wordMatches (i : nat) (text : string) : list (nat * string) :=
  match text with
  | EmptyString => []
  | String c rest =>
      if isWordChar c then
        match wordMatches (S i) rest with
        | (j, w) :: ms =>
            if (j =? S i)%nat then (i, String c w) :: ms
            else (i, String c EmptyString) :: (j, w) :: ms
        | [] => [(i, String c EmptyString)]
        end
      else wordMatches (S i) rest
  end.

(** The test of the loop body: [match.index <= offset && offset <=
    match.index + match[0].length]. *)
Definition coversOffset (offset : Z) (m : nat * string) : bool :=
  (Z.of_nat m.1 <=? offset)%Z
  && (offset <=? Z.of_nat (m.1 + String.length m.2))%Z.

Definition extractSymbolNameAtOffset (text : string) (offset : Z) : option string :=
  snd <$> List.find (coversOffset offset) (wordMatches 0 text).

(** *** utils.ts, [findProjectRoot] *)

Module RootDiscovery.
Section Walk.
(** The file system and [path]: [path.resolve(p)], [path.parse(p).root],
    [path.join], [path.dirname], [fs.access] and [fs.stat(..).isDirectory()]. *)
Variable resolve : string → string.
Variable rootOf : string → string.
Variable join : string → string → string.
Variable dirname : string → string.
Variable access : string → outcome unit.
Variable statIsDirectory : string → outcome bool.

(** The two probes of one turn of the loop: the marker file is accessible,
    or [.git] exists and is a directory. *)
Definition hasMarker (currentPath : string) : bool :=
  try_catch (_ ← access (join currentPath "sfdx-project.json"); mret true)
    (λ _,
       try_catch
         (isDir ← statIsDirectory (join currentPath ".git"); mret isDir)
         (λ _, false)).

Definition atRoot (currentPath : string) : bool :=
  String.eqb currentPath (rootOf currentPath).

(** The [while] loop, for at most [fuel] turns: [None] when the turns run
    out, [Some None] when the loop ends at the root, [Some (Some p)] when it
    returns [p]. *)
Fixpoint climb (fuel : nat) (currentPath : string) : option (option string) :=
  match fuel with
  | O => None
  | S fuel' =>
      if atRoot currentPath then Some None
      else if hasMarker currentPath then Some (Some currentPath)
      else climb fuel' (dirname currentPath)
  end.

Definition findProjectRoot (fuel : nat) (startPath : string) : option string :=
  match climb fuel (resolve startPath) with
  | None => None
  | Some (Some found) => Some found
  | Some None => Some (resolve startPath)
  end.

(** The [k]-th directory the loop visits. *)
Definition ancestor (k : nat) (startPath : string) : string :=
  Nat.iter k dirname (resolve startPath).

End Walk.
End RootDiscovery.

(** ** parser.ts *)

(** The tree-sitter queries, in the order of [Object.entries(definitionQueries)]. *)
Definition definitionQueries : list (DefinitionKind * string) :=
  [ (class_, "(class_declaration name: (identifier) @name) @def");
    (interface, "(interface_declaration name: (identifier) @name) @def");
    (enum, "(enum_declaration name: (identifier) @name) @def");
    (method, "(method_declaration name: (identifier) @name) @def");
    (constructor, "(constructor_declaration name: (identifier) @name) @def");
    (property,
      "(field_declaration declarator: (variable_declarator name: (identifier) @name)) @def");
    (trigger, "(trigger_declaration name: (identifier) @name) @def") ].

Definition referenceQuery : string :=
  "[ (type_identifier) @ref_name (identifier) @maybe_ref_name ]".

Definition isConstructor (k : DefinitionKind) : bool :=
  match k with
  | constructor => true
  | _ => false
  end.

(** [match.captures.find((c) => c.name === n)?.node] *)
Definition findCapture (n : string) (m : TreeSitter.QueryMatch)
  : option TreeSitter.SyntaxNode :=
  TreeSitter.node <$>
    List.find (λ c, String.eqb (TreeSitter.cname c) n) (TreeSitter.captures m).

(** The key [`${range.start.line}:${range.start.column}`] of
    [foundDefRanges], kept as the pair it prints. *)
Definition rangeKey (r : Range) : Z * Z := (line (start r), column (start r)).

Section Parser.
(** What [parseFile] calls outside this repository: [path.relative],
    [fs.readFile], the module-level tree-sitter [parser] (unset when the
    grammar failed to load), [parser.parse], [new Parser.Query(..).matches(..)]
    and [node.childForFieldName]. *)
Variable relative : string → string → string.
Variable readFile : string → outcome string.
Variable parserLoaded : bool.
Variable Tree : Type.
Variable parse : string → outcome Tree.
Variable queryMatches : string → Tree → outcome (list TreeSitter.QueryMatch).
Variable childForFieldName :
  TreeSitter.SyntaxNode → string → option TreeSitter.SyntaxNode.

(** The accumulators [definitions] and [foundDefRanges]. *)
Definition DefAcc : Type := list Definition_ * gset (Z * Z).

Definition pushDefinition (k : DefinitionKind) (sourceCode relativePath : string)
    (acc : DefAcc) (nameNode : TreeSitter.SyntaxNode) : DefAcc :=
  let r := getNodeRange nameNode in
  (acc.1 ++ [mkDefinition (getNodeText nameNode sourceCode) k relativePath r],
   {[ rangeKey r ]} ∪ acc.2).

(** The body of [for (const match of matches)] for one definition query. *)
Definition definitionStep (k : DefinitionKind) (sourceCode relativePath : string)
    (acc : DefAcc) (m : TreeSitter.QueryMatch) : DefAcc :=
  match findCapture "name" m, findCapture "def" m with
  | Some nameNode, Some _ => pushDefinition k sourceCode relativePath acc nameNode
  | None, Some defNode =>
      if isConstructor k then
        match childForFieldName defNode "name" with
        | Some constructorNameNode =>
            pushDefinition constructor sourceCode relativePath acc constructorNameNode
        | None => acc
        end
      else acc
  | _, None => acc
  end.

(** One turn of the loop over the definition queries, with its own
    [try]/[catch]: a query that throws adds nothing. *)
Definition definitionsForKind (tree : Tree) (sourceCode relativePath : string)
    (acc : DefAcc) (q : DefinitionKind * string) : DefAcc :=
  try_catch
    (ms ← queryMatches q.2 tree;
     mret (foldl (definitionStep q.1 sourceCode relativePath) acc ms))
    (λ _, acc).

(** The body of the loop over the reference matches. *)
Definition referenceStep (found : gset (Z * Z)) (sourceCode relativePath : string)
    (acc : list Reference) (m : TreeSitter.QueryMatch) : list Reference :=
  match
    match findCapture "ref_name" m with
    | Some n => Some n
    | None => findCapture "maybe_ref_name" m
    end
  with
  | Some refNode =>
      let r := getNodeRange refNode in
      if bool_decide (rangeKey r ∈ found) then acc
      else acc ++ [mkReference (getNodeText refNode sourceCode) relativePath r]
  | None => acc
  end.

Definition referencesOf (tree : Tree) (found : gset (Z * Z))
    (sourceCode relativePath : string) : list Reference :=
  try_catch
    (ms ← queryMatches referenceQuery tree;
     mret (foldl (referenceStep found sourceCode relativePath) [] ms))
    (λ _, []).

(** [parseFile]: everything that can throw sits inside the outer [try], whose
    [catch] only logs; the two arrays are returned whatever happened. What
    throws outside the inner [try] blocks throws before the first [push]. *)
Definition parseFile (filePath projectRoot : string)
  : outcome (list Definition_ * list Reference) :=
  let relativePath := relative projectRoot filePath in
  mret
    (try_catch
       (sourceCode ← readFile filePath;
        _ ← (if parserLoaded then mret tt
             else Thrown "Tree-sitter parser or sfapex language not initialized");
        tree ← parse sourceCode;
        let acc :=
          foldl (definitionsForKind tree sourceCode relativePath) ([], ∅)
            definitionQueries in
        mret (acc.1, referencesOf tree acc.2 sourceCode relativePath))
       (λ _, ([], []))).

(** The extraction of a file fails when the outer [catch] of [parseFile] is
    entered: the file cannot be read, the parser is missing, or
    [parser.parse] throws. *)
Definition extractionFailed (filePath : string) : bool :=
  match readFile filePath with
  | Thrown _ => true
  | Returned sourceCode => negb parserLoaded || throws (parse sourceCode)
  end.

End Parser.

(** ** indexerService.ts: the store *)

Record State : Type := mkState {
  definitions : gmap string (list Definition_);
  references : gmap string (list Reference);
  filesIndexed : gset string;
  projectRoot : option string;
  isIndexing : bool;
}.

(** A freshly constructed [IndexerService]. *)
Definition newService : State :=
  {| definitions := ∅; references := ∅; filesIndexed := ∅;
     projectRoot := None; isIndexing := false |}.

(** [this.projectRoot] when it passes the guard [if (!this.projectRoot)]:
    [undefined] and the empty string are both falsy. *)
Definition knownRoot (st : State) : option string :=
  match projectRoot st with
  | Some root => if truthy root then Some root else None
  | None => None
  end.

Definition setIndexing (b : bool) (st : State) : State :=
  {| definitions := definitions st; references := references st;
     filesIndexed := filesIndexed st; projectRoot := projectRoot st;
     isIndexing := b |}.

Definition setProjectRoot (root : string) (st : State) : State :=
  {| definitions := definitions st; references := references st;
     filesIndexed := filesIndexed st; projectRoot := Some root;
     isIndexing := isIndexing st |}.

(** [definitions.clear(); references.clear(); filesIndexed.clear()] *)
Definition clearIndex (st : State) : State :=
  {| definitions := ∅; references := ∅; filesIndexed := ∅;
     projectRoot := projectRoot st; isIndexing := isIndexing st |}.

Section Buckets.
Context {A : Type} `{Located A}.

(** The deduplication key of an entry: file and start position. *)
Definition entryKey (e : A) : string * Z * Z :=
  (file e, line (start (range e)), column (start (range e))).

(** The callback of [existing.some(..)]. *)
Definition collides (d e : A) : bool :=
  String.eqb (file e) (file d)
  && (line (start (range e)) =? line (start (range d)))%Z
  && (column (start (range e)) =? column (start (range d)))%Z.

(** The callback of [newDefs.forEach] and of [newRefs.forEach]. *)
Definition addEntry (m : gmap string (list A)) (d : A) : gmap string (list A) :=
  let existing := default [] (m !! name d) in
  if negb (existsb (collides d) existing) then <[name d := existing ++ [d]]> m
  else m.

Definition addEntries (m : gmap string (list A)) (ds : list A)
  : gmap string (list A) :=
  foldl addEntry m ds.

(** The callback of [this.definitions.forEach] in [removeDataForFile]: what
    becomes of one bucket ([None]: the key is deleted). *)
Definition pruneBucket (relativePath : string) (xs : list A) : option (list A) :=
  let filtered := filter (λ d, file d ≠ relativePath) xs in
  if (length filtered =? 0)%nat then None
  else if (length filtered <? length xs)%nat then Some filtered
  else Some xs.

Definition pruneMap (relativePath : string) (m : gmap string (list A))
  : gmap string (list A) :=
  omap (pruneBucket relativePath) m.

(** [m.get(n) || []] *)
Definition bucket (m : gmap string (list A)) (n : string) : list A :=
  default [] (m !! n).

(** What [addEntry] does to the bucket it touches, as a list. *)
Definition appendNew (xs : list A) (d : A) : list A :=
  if existsb (collides d) xs then xs else xs ++ [d].

(** One bucket through a run of [indexFile] calls, as a list: each file
    [f] first loses the entries stored under its relative path [rel f], then
    receives its new entries [news f]. *)
Definition replay (rel : string → string) (news : string → list A)
    (xs : list A) (files : list string) : list A :=
  foldl (λ ys f, foldl appendNew (filter (λ d, file d ≠ rel f) ys) (news f))
    xs files.

(** Entries of one bucket are pairwise distinct on (file, start). *)
Definition uniqueKeys (xs : list A) : Prop := NoDup (entryKey <$> xs).

Definition uniqueBuckets (m : gmap string (list A)) : Prop :=
  ∀ n xs, m !! n = Some xs → uniqueKeys xs.

(** No key is bound to an empty list. *)
Definition noEmptyBucket (m : gmap string (list A)) : Prop :=
  ∀ n, m !! n ≠ Some [].

End Buckets.

Definition removeDataForFile (st : State) (relativePath : string) : State :=
  {| definitions := pruneMap relativePath (definitions st);
     references := pruneMap relativePath (references st);
     filesIndexed := filesIndexed st ∖ {[relativePath]};
     projectRoot := projectRoot st;
     isIndexing := isIndexing st |}.

(** [/\.(cls|trigger|apex)$/.test(filePath)] *)
Definition isApexSource (filePath : string) : bool :=
  endsWith filePath ".cls" || endsWith filePath ".trigger"
  || endsWith filePath ".apex".

(** ** A small project to run the code on

    Stand-ins for the file system and the libraries: a project at
    [/work/proj] with [A.cls] (defines [Foo], mentions [Bar]), [B.cls] (defines
    [Bar], mentions [Foo]), the script [run.apex] (no definition, mentions
    [Foo]), [bad.cls], which cannot be read, and [A.cls] of the sibling
    directory [/work/proj2]. *)

Module Demo.

Definition root : string := "/work/proj".

Fixpoint segments (cur s : string) : list string :=
  match s with
  | EmptyString => [cur]
  | String c rest =>
      if Ascii.eqb c "/"%char then cur :: segments EmptyString rest
      else segments (String.append cur (String c EmptyString)) rest
  end.

Fixpoint dropCommon (a b : list string) : list string * list string :=
  match a, b with
  | x :: a', y :: b' => if String.eqb x y then dropCommon a' b' else (a, b)
  | _, _ => (a, b)
  end.

(** POSIX [path.relative] on normalized absolute paths. *)
Definition relative (from to : string) : string :=
  let '(up, down) := dropCommon (segments EmptyString from) (segments EmptyString to) in
  String.concat "/" (((λ _, "..") <$> up) ++ down).

(** The segments of a path with [.] and empty segments dropped and each
    [..] taking back the segment before it; [kept] is in reverse order. *)
Fixpoint normalizeSegments (kept segs : list string) : list string :=
  match segs with
  | [] => rev kept
  | seg :: rest =>
      if String.eqb seg "" || String.eqb seg "." then normalizeSegments kept rest
      else if String.eqb seg ".." then normalizeSegments (tail kept) rest
      else normalizeSegments (seg :: kept) rest
  end.

Definition normalize (path : string) : string :=
  String.append "/"
    (String.concat "/" (normalizeSegments [] (segments EmptyString path))).

(** POSIX [path.resolve(from, rel)] with [from] absolute: the normalized
    path, from [rel] alone when it is absolute. *)
Definition resolve (from rel : string) : string :=
  if startsWith rel "/" then normalize rel
  else normalize (String.append from (String.append "/" rel)).

Definition glob (r : string) : outcome (list string) :=
  Returned [String.append r "/A.cls"; String.append r "/bad.cls";
            String.append r "/B.cls"; String.append r "/run.apex"].

Definition globFails (r : string) : outcome (list string) :=
  Thrown "EACCES: permission denied, scandir".

Definition hexDigit (c : ascii) : option nat :=
  let n := nat_of_ascii c in
  if (48 <=? n)%nat && (n <=? 57)%nat then Some (n - 48)
  else if (65 <=? n)%nat && (n <=? 70)%nat then Some (n - 55)
  else if (97 <=? n)%nat && (n <=? 102)%nat then Some (n - 87)
  else None.

(** [decodeURIComponent] on ASCII escapes, refusing an encoded slash as
    [fileURLToPath] does. *)
Fixpoint percentDecode (s : string) : option string :=
  match s with
  | EmptyString => Some EmptyString
  | String c rest =>
      if Ascii.eqb c "%"%char then
        match rest with
        | String a (String b rest') =>
            match hexDigit a, hexDigit b with
            | Some x, Some y =>
                if (16 * x + y =? 47)%nat then None
                else String (ascii_of_nat (16 * x + y)) <$> percentDecode rest'
            | _, _ => None
            end
        | _ => None
        end
      else String c <$> percentDecode rest
  end.

(** POSIX [url.fileURLToPath] on a URI without query and fragment: the
    scheme is [file:], the host is empty, the path has its dot segments
    removed and its escapes decoded. *)
Definition fileURLToPath (uri : string) : outcome string :=
  let rest := String.substring 7 (String.length uri - 7) uri in
  if negb (startsWith uri "file://") then Thrown "ERR_INVALID_URL_SCHEME"
  else if negb (startsWith rest "/") then Thrown "ERR_INVALID_FILE_URL_HOST"
  else
    match percentDecode (normalize rest) with
    | Some filePath => Returned filePath
    | None => Thrown "ERR_INVALID_FILE_URL_PATH"
    end.

Definition findProjectRoot (start : string) : string := start.

Definition at_ (l c l' c' : Z) : Range :=
  {| start := {| line := l; column := c |};
     end_ := {| line := l'; column := c' |} |}.

(** An extractor given by its table of answers. *)
Definition extract (filePath projectRoot : string)
  : outcome (list Definition_ * list Reference) :=
  let rel := relative projectRoot filePath in
  if String.eqb filePath "/work/proj/A.cls" then
    Returned ([mkDefinition "Foo" class_ rel (at_ 1 1 1 4)],
              [mkReference "Bar" rel (at_ 2 5 2 8)])
  else if String.eqb filePath "/work/proj/B.cls" then
    Returned ([mkDefinition "Bar" class_ rel (at_ 1 14 1 17)],
              [mkReference "Foo" rel (at_ 3 9 3 12)])
  else if String.eqb filePath "/work/proj/run.apex" then
    Returned ([], [mkReference "Foo" rel (at_ 1 1 1 4)])
  else if String.eqb filePath "/work/proj2/A.cls" then
    Returned ([mkDefinition "Baz" class_ rel (at_ 1 14 1 17)], [])
  else Thrown "ENOENT: no such file or directory".

(** The file system and tree-sitter for [parseFile]: only [A.cls] can be
    read, as one line of text; the method query is refused by the grammar. *)
Definition readFile (filePath : string) : outcome string :=
  if String.eqb filePath "/work/proj/A.cls"
  then Returned "public class Foo { Bar b; }"
  else Thrown "ENOENT: no such file or directory".

Definition nodeAt (a b : nat) : TreeSitter.SyntaxNode :=
  TreeSitter.mkNode a b (TreeSitter.mkPoint 0 (Z.of_nat a))
    (TreeSitter.mkPoint 0 (Z.of_nat b)).

Definition capture (n : string) (a b : nat) : TreeSitter.Capture :=
  TreeSitter.mkCapture n (nodeAt a b).

Definition parse (sourceCode : string) : outcome unit := Returned tt.

Definition queryMatches (q : string) (tree : unit)
  : outcome (list TreeSitter.QueryMatch) :=
  if String.eqb q "(class_declaration name: (identifier) @name) @def" then
    Returned [TreeSitter.mkMatch [capture "def" 7 27; capture "name" 13 16]]
  else if String.eqb q
    "(field_declaration declarator: (variable_declarator name: (identifier) @name)) @def"
  then Returned [TreeSitter.mkMatch [capture "def" 19 25; capture "name" 23 24]]
  else if String.eqb q "(method_declaration name: (identifier) @name) @def" then
    Thrown "Query error of type TSQueryErrorNodeType"
  else if String.eqb q referenceQuery then
    Returned [TreeSitter.mkMatch [capture "maybe_ref_name" 13 16];
              TreeSitter.mkMatch [capture "ref_name" 19 22];
              TreeSitter.mkMatch [capture "maybe_ref_name" 23 24]]
  else Returned [].

Definition childForFieldName (n : TreeSitter.SyntaxNode) (field : string)
  : option TreeSitter.SyntaxNode := None.

(** [parseFile] of this repository over that file system. *)
Definition extractor : string → string → outcome (list Definition_ * list Reference) :=
  parseFile relative readFile true unit parse queryMatches childForFieldName.

(** The directories above [/work/proj/src/classes]: [sfdx-project.json]
    lies in [/work/proj], [/work/proj/src/.git] is a file and [/work/.git] a
    directory. *)
Definition resolve1 (p : string) : string := normalize p.

Definition rootOf (p : string) : string := "/".

Definition join (dir entry : string) : string :=
  normalize (String.append dir (String.append "/" entry)).

Definition dirname (p : string) : string :=
  match String.concat "/" (removelast (segments EmptyString p)) with
  | EmptyString => "/"
  | parent => parent
  end.

Definition access (p : string) : outcome unit :=
  if String.eqb p "/work/proj/sfdx-project.json" then Returned tt
  else Thrown "ENOENT: no such file or directory".

Definition statIsDirectory (p : string) : outcome bool :=
  if String.eqb p "/work/.git" then Returned true
  else if String.eqb p "/work/proj/src/.git" then Returned false
  else Thrown "ENOENT: no such file or directory".

(** [offsetAt] on a document of one line. *)
Definition offsetAt (text : string) (position : Lsp.Position) : Z :=
  Lsp.character position.

(** The service after [initialize] found the root and nothing else. *)
Definition idle : State :=
  {| definitions := ∅; references := ∅; filesIndexed := ∅;
     projectRoot := Some root; isIndexing := false |}.

(** The service with [A.cls] and [run.apex] indexed. *)
Definition indexed : State :=
  {| definitions := {[ "Foo" := [mkDefinition "Foo" class_ "A.cls" (at_ 1 1 1 4)] ]};
     references :=
       {[ "Bar" := [mkReference "Bar" "A.cls" (at_ 2 5 2 8)];
          "Foo" := [mkReference "Foo" "run.apex" (at_ 1 1 1 4)] ]};
     filesIndexed := {[ "A.cls"; "run.apex" ]};
     projectRoot := Some root; isIndexing := false |}.

(** The same store while a rebuild is in progress. *)
Definition busy : State :=
  {| definitions := definitions indexed; references := references indexed;
     filesIndexed := filesIndexed indexed;
     projectRoot := Some root; isIndexing := true |}.

End Demo.

(** ** indexerService.ts: the operations *)

Section Service.
(** What the service calls outside this file: [path.relative] and
    [path.resolve] (total on strings), fast-glob with the service's fixed
    patterns, [url.fileURLToPath], [findProjectRoot] (the root discovery of
    utils.ts, a walk over the file system), [process.platform === "win32"],
    and the extractor [parseFile], whose promise may reject. *)
Variable relative : string → string → string.
Variable resolve : string → string → string.
Variable glob : string → outcome (list string).
Variable fileURLToPath : string → outcome string.
Variable findProjectRoot : string → string.
Variable win32 : bool.
Variable parseFile :
  string → string → outcome (list Definition_ * list Reference).

(** [set_solver] on a goal about sets of paths only: the members of the
    section it does not mention are put aside first. *)
Ltac path_sets :=
  try clear resolve; try clear glob; try clear fileURLToPath;
  try clear findProjectRoot; try clear win32; try clear parseFile;
  try clear relative; set_solver.

(** utils.ts, [uriToPath] *)
Definition uriToPath (uri : string) : option string :=
  if negb (startsWith uri "file://") then None
  else try_catch (p ← fileURLToPath uri; mret (Some p)) (λ _, None).

Definition toLspRange (r : Range) : outcome Lsp.Range :=
  Lsp.Range_create
    (Lsp.mkPosition (line (start r) - 1) (column (start r) - 1))
    (Lsp.mkPosition (line (end_ r) - 1) (column (end_ r) - 1)).

(** The URI built by [toLspLocation] from the resolved absolute path. *)
Definition fileUriOf (absolutePath : string) : string :=
  let fileUri := String.append "file://" (slashes absolutePath) in
  if win32 && startsWith fileUri "file://" && negb (startsWith fileUri "file:///")
  then String.append "file:///" (slashes absolutePath)
  else fileUri.

Definition toLspLocation {A : Type} `{Located A} (st : State) (loc : A)
    (workspaceUri : string) : option Lsp.Location :=
  match knownRoot st with
  | None => None
  | Some root =>
      try_catch
        (let absolutePath := resolve root (file loc) in
         lspRange ← toLspRange (range loc);
         mret (Some (Lsp.mkLocation (fileUriOf absolutePath) lspRange)))
        (λ _, None)
  end.

(** [xs.forEach((d) => { const l = toLspLocation(d); if (l) locations.push(l) })] *)
Definition collectLocations {A : Type} `{Located A} (st : State)
    (workspaceUri : string) (xs : list A) : list Lsp.Location :=
  foldl
    (λ locations d,
       match toLspLocation st d workspaceUri with
       | Some lspLoc => locations ++ [lspLoc]
       | None => locations
       end)
    [] xs.

Definition findDefinitions (st : State) (symbol workspaceUri : string)
  : list Lsp.Location :=
  collectLocations st workspaceUri (default [] (definitions st !! symbol)).

Definition findReferences (st : State) (symbol workspaceUri : string)
  : list Lsp.Location :=
  collectLocations st workspaceUri (default [] (references st !! symbol)).

(** [indexFile] from the point where [await parseFile(..)] settles: the two
    [forEach] insertions and [filesIndexed.add], or the [catch] that only
    logs. [st1] is the store at that point. *)
Definition afterParse (root relativePath absolutePath : string) (st1 : State)
  : State :=
  try_catch
    (parsed ← parseFile absolutePath root;
     mret {| definitions := addEntries (definitions st1) parsed.1;
             references := addEntries (references st1) parsed.2;
             filesIndexed := {[relativePath]} ∪ filesIndexed st1;
             projectRoot := projectRoot st1;
             isIndexing := isIndexing st1 |})
    (λ _, st1).

Definition indexFile (st : State) (absolutePath : string) : State :=
  match knownRoot st with
  | None => st
  | Some root =>
      let relativePath := relative root absolutePath in
      afterParse root relativePath absolutePath
        (removeDataForFile st relativePath)
  end.

(** The [for (const file of files)] loop of [runFullIndex]: [indexFile]
    catches what the extractor throws, so the loop's own [catch] is never
    entered. *)
Definition indexFiles (st : State) (files : list string) : State :=
  foldl indexFile st files.

Definition runFullIndex (st : State) : State :=
  match knownRoot st with
  | None => st
  | Some root =>
      if isIndexing st then st
      else
        let st1 := clearIndex (setIndexing true st) in
        match glob root with
        | Thrown _ => setIndexing false st1
        | Returned [] => setIndexing false st1
        | Returned files => setIndexing false (indexFiles st1 files)
        end
  end.

Definition initialize (st : State) (workspaceUri : string) : State :=
  match uriToPath workspaceUri with
  | None => st
  | Some workspacePath =>
      if truthy workspacePath
      then runFullIndex (setProjectRoot (findProjectRoot workspacePath) st)
      else st
  end.

Definition handleFileSave (st : State) (uri : string) : State :=
  match uriToPath uri, projectRoot st with
  | Some filePath, Some root =>
      if truthy filePath && truthy root && startsWith filePath root
      then if isApexSource filePath then indexFile st filePath else st
      else st
  | _, _ => st
  end.


(** *** The rebuild as a task that suspends at its [await]s

    [runFullIndex] above runs a rebuild in one piece. Between two [await]s
    the event loop may deliver another request; the task below is the same
    code cut at [await glob(..)] and at [await parseFile(..)]. *)

Inductive Pending : Type :=
| AwaitGlob (root : string)
| AwaitParse (root relativePath absolutePath : string) (rest : list string).

(** How a call of [runFullIndex] ends its synchronous prefix. *)
Inductive Started : Type :=
| SkippedNoRoot
| SkippedAlreadyIndexing
| Suspended (p : Pending).

Definition startRebuild (st : State) : State * Started :=
  match knownRoot st with
  | None => (st, SkippedNoRoot)
  | Some root =>
      if isIndexing st then (st, SkippedAlreadyIndexing)
      else (clearIndex (setIndexing true st), Suspended (AwaitGlob root))
  end.

(** The loop from its next file up to the next [await], or to the end of
    [runFullIndex]. *)
Fixpoint nextFile (st : State) (files : list string) : State * option Pending :=
  match files with
  | [] => (setIndexing false st, None)
  | f :: rest =>
      match knownRoot st with
      | None => nextFile st rest
      | Some root =>
          let relativePath := relative root f in
          (removeDataForFile st relativePath,
           Some (AwaitParse root relativePath f rest))
      end
  end.

Definition resume (p : Pending) (st : State) : State * option Pending :=
  match p with
  | AwaitGlob root =>
      match glob root with
      | Thrown _ => (setIndexing false st, None)
      | Returned files => nextFile st files
      end
  | AwaitParse root relativePath absolutePath rest =>
      nextFile (afterParse root relativePath absolutePath st) rest
  end.

(** The service with its suspended rebuilds, and what the event loop
    delivers: a new call of [runFullIndex], or the settling of the promise the
    oldest suspended rebuild waits for. *)
Definition System : Type := State * list Pending.

Inductive Event : Type :=
| RebuildRequest
| Resume.

Definition step (sys : System) (e : Event) : System :=
  match e with
  | RebuildRequest =>
      match startRebuild sys.1 with
      | (st, Suspended p) => (st, sys.2 ++ [p])
      | (st, _) => (st, sys.2)
      end
  | Resume =>
      match sys.2 with
      | [] => sys
      | p :: others =>
          match resume p sys.1 with
          | (st, Some p') => (st, p' :: others)
          | (st, None) => (st, others)
          end
      end
  end.

Definition run (sys : System) (events : list Event) : System :=
  foldl step sys events.

(** *** The calls the server makes, each run to its end *)

Inductive Request : Type :=
| Initialize (workspaceUri : string)
| RunFullIndex
| IndexFile (absolutePath : string)
| FileSave (uri : string).

Definition handle (st : State) (r : Request) : State :=
  match r with
  | Initialize workspaceUri => initialize st workspaceUri
  | RunFullIndex => runFullIndex st
  | IndexFile absolutePath => indexFile st absolutePath
  | FileSave uri => handleFileSave st uri
  end.

(** *** Notions used to state the properties of the service *)

Definition indexUnique (st : State) : Prop :=
  uniqueBuckets (definitions st) ∧ uniqueBuckets (references st).

(** The definitions and references a call of the extractor contributes:
    nothing when its promise rejects. [extractorRejects] is about the
    extractor the service is given; [parseFile] of parser.ts never rejects. *)
Definition extractedDefs (root f : string) : list Definition_ :=
  match parseFile f root with
  | Returned parsed => parsed.1
  | Thrown _ => []
  end.

Definition extractedRefs (root f : string) : list Reference :=
  match parseFile f root with
  | Returned parsed => parsed.2
  | Thrown _ => []
  end.

Definition extractorRejects (root f : string) : Prop :=
  throws (parseFile f root) = true.

#[global] Instance extractorRejects_dec root f : Decision (extractorRejects root f).
Proof. unfold extractorRejects. apply _. Defined.

(** The definitions, and the references, that [f] contributes to the bucket
    of the name [n]. *)
Definition defsNamed (root n f : string) : list Definition_ :=
  filter (λ d, name d = n) (extractedDefs root f).

Definition refsNamed (root n f : string) : list Reference :=
  filter (λ d, name d = n) (extractedRefs root f).

(** The protocol location of a stored entry, once the root is known: none
    when [Range.create] refuses its range. *)
Definition lspLocationOf {A : Type} `{Located A} (root : string) (loc : A)
  : option Lsp.Location :=
  match toLspRange (range loc) with
  | Returned lspRange =>
      Some (Lsp.mkLocation (fileUriOf (resolve root (file loc))) lspRange)
  | Thrown _ => None
  end.

(** Either the service is idle with no rebuild suspended, or it is indexing
    with exactly one. *)
Definition oneRebuild (sys : System) : Prop :=
  (isIndexing sys.1 = false ∧ sys.2 = [])
  ∨ (isIndexing sys.1 = true ∧ ∃ p, sys.2 = [p]).

(** *** Further notions: the shape of the store *)

Section BucketShape.
Context {A : Type} `{Located A}.

(** Every stored entry sits under the key that is its own name. *)
Definition keyedByName (m : gmap string (list A)) : Prop :=
  ∀ n xs, m !! n = Some xs → Forall (λ e, name e = n) xs.

(** Every stored entry belongs to a file of the set [files]. *)
Definition filesCovered (m : gmap string (list A)) (files : gset string) : Prop :=
  ∀ n xs, m !! n = Some xs → Forall (λ e, file e ∈ files) xs.

End BucketShape.

Definition wellFormed (st : State) : Prop :=
  noEmptyBucket (definitions st) ∧ noEmptyBucket (references st)
  ∧ keyedByName (definitions st) ∧ keyedByName (references st).

(** The indexed-file set accounts for every stored entry. *)
Definition indexedFilesCover (st : State) : Prop :=
  filesCovered (definitions st) (filesIndexed st)
  ∧ filesCovered (references st) (filesIndexed st).

(** The extractor labels its entries with the file's path relative to the
    root, as [parseFile] of parser.ts does. *)
Definition labelsEntries : Prop :=
  ∀ root f,
    Forall (λ d, file d = relative root f) (extractedDefs root f)
    ∧ Forall (λ r, file r = relative root f) (extractedRefs root f).

(** utils.ts, [indexLocationToLspLocation]: the stand-alone twin of
    [toLspLocation], with the root passed in. *)
Definition indexLocationToLspLocation {A : Type} `{Located A} (loc : A)
    (root : option string) : option Lsp.Location :=
  match root with
  | None => None
  | Some r =>
      if truthy r then
        try_catch
          (let absolutePath := resolve r (file loc) in
           lspRange ← indexRangeToLspRange (range loc);
           mret (Some (Lsp.mkLocation (fileUriOf absolutePath) lspRange)))
          (λ _, None)
      else None
  end.

(** *** server.ts: the handlers, over the service *)

(** The module-level state of the server: [rootUri], the [indexer] and the
    texts of the open documents (the [TextDocuments] manager). *)
Record Server : Type := mkServer {
  rootUri : option string;
  indexer : State;
  documents : gmap string string;
}.

Definition newServer : Server :=
  {| rootUri := None; indexer := newService; documents := ∅ |}.

(** [rootUri] when it passes [if (rootUri)]. *)
Definition knownRootUri (srv : Server) : option string :=
  match rootUri srv with
  | Some u => if truthy u then Some u else None
  | None => None
  end.

(** [connection.onInitialize]: the first workspace folder, else the legacy
    [rootUri], else the variable keeps its value; then [indexer.initialize]
    when a root URI is set. [workspaceFolders] are the folders' URIs. *)
Definition onInitialize (srv : Server) (workspaceFolders : option (list string))
    (legacyRootUri : option string) : Server :=
  let chosen :=
    match workspaceFolders with
    | Some (uri :: _) => Some uri
    | _ =>
        match legacyRootUri with
        | Some r => if truthy r then Some r else rootUri srv
        | None => rootUri srv
        end
    end in
  {| rootUri := chosen;
     indexer :=
       match chosen with
       | Some u => if truthy u then initialize (indexer srv) u else indexer srv
       | None => indexer srv
       end;
     documents := documents srv |}.

(** [$/apexIndexer/definitionForSymbol]; [None] is the answer [null]. *)
Definition definitionForSymbol (srv : Server) (symbol : string)
  : option (list Lsp.Location) :=
  match knownRootUri srv with
  | None => None
  | Some u =>
      if negb (truthy symbol) then None
      else try_catch (mret (Some (findDefinitions (indexer srv) symbol u)))
             (λ _, None)
  end.

(** [$/apexIndexer/referencesForSymbol] *)
Definition referencesForSymbol (srv : Server) (symbol : string)
  : option (list Lsp.Location) :=
  match knownRootUri srv with
  | None => None
  | Some u =>
      if negb (truthy symbol) then None
      else try_catch (mret (Some (findReferences (indexer srv) symbol u)))
             (λ _, None)
  end.

Section TextDocument.
(** [document.offsetAt(position)] of vscode-languageserver-textdocument, as
    a function of the document's text. *)
Variable offsetAt : string → Lsp.Position → Z.

(** [textDocument/references]: the symbol is the word under the cursor. *)
Definition referencesAtPosition (srv : Server) (uri : string)
    (position : Lsp.Position) : option (list Lsp.Location) :=
  match documents srv !! uri with
  | None => None
  | Some text =>
      let offset := offsetAt text position in
      let symbolName := extractSymbolNameAtOffset text offset in
      match knownRootUri srv with
      | None => None
      | Some u =>
          match symbolName with
          | None => None
          | Some sym =>
              if negb (truthy sym) then None
              else try_catch
                     (mret (Some (findReferences (indexer srv) sym u)))
                     (λ _, None)
          end
      end
  end.

End TextDocument.

(** [connection.onDidSaveTextDocument] *)
Definition onDidSaveTextDocument (srv : Server) (uri : string) : Server :=
  match knownRootUri srv with
  | None => srv
  | Some _ =>
      {| rootUri := rootUri srv;
         indexer := handleFileSave (indexer srv) uri;
         documents := documents srv |}
  end.

(** The notifications that change the server's state, and a history of
    them. Opening, changing and closing documents is the work of the
    [TextDocuments] manager; [DocumentsChanged] replaces its texts. *)
Inductive ServerEvent : Type :=
| InitializeEvent (workspaceFolders : option (list string))
                  (legacyRootUri : option string)
| DidSaveEvent (uri : string)
| DocumentsChanged (texts : gmap string string).

Definition serverStep (srv : Server) (e : ServerEvent) : Server :=
  match e with
  | InitializeEvent workspaceFolders legacyRootUri =>
      onInitialize srv workspaceFolders legacyRootUri
  | DidSaveEvent uri => onDidSaveTextDocument srv uri
  | DocumentsChanged texts =>
      {| rootUri := rootUri srv; indexer := indexer srv; documents := texts |}
  end.

(** A maximal run of word characters: how a symbol sits in a text. *)
Fixpoint allWordChars (s : string) : bool :=
  match s with
  | EmptyString => true
  | String c rest => isWordChar c && allWordChars rest
  end.

Definition startsWithWordChar (s : string) : bool :=
  match s with
  | EmptyString => false
  | String c _ => isWordChar c
  end.

Fixpoint endsWithWordChar (s : string) : bool :=
  match s with
  | EmptyString => false
  | String c EmptyString => isWordChar c
  | String _ rest => endsWithWordChar rest
  end.

(** [text] is [before], then the whole word [w], then [after]. *)
Definition wordAt (text before w after : string) : Prop :=
  text = before +:+ (w +:+ after)
  ∧ w ≠ "" ∧ allWordChars w = true
  ∧ endsWithWordChar before = false ∧ startsWithWordChar after = false.

(** ** Facts about buckets *)

Lemma foldl_preserves {X Y : Type} (P : X → Prop) (f : X → Y → X) (ys : list Y) x :
  P x → (∀ x y, P x → P (f x y)) → P (foldl f x ys).
Proof.
  intros Hx Hstep. revert x Hx.
  induction ys as [|y ys IH]; intros x Hx; [done|].
  simpl. by apply IH, Hstep.
Qed.

Section BucketFacts.
Context {A : Type} `{Located A}.
Implicit Types (m : gmap string (list A)) (xs ds : list A) (d e : A).

Lemma collides_true d e : collides d e = true ↔ entryKey e = entryKey d.
Proof.
  unfold collides, entryKey.
  rewrite !andb_true_iff, String.eqb_eq, !Z.eqb_eq.
  split; [intros [[-> ->] ->]; done | intros [= -> -> ->]; done].
Qed.

Lemma existsb_collides d xs :
  existsb (collides d) xs = true ↔ entryKey d ∈ entryKey <$> xs.
Proof.
  rewrite existsb_exists, list_elem_of_fmap.
  split.
  - intros (e & Hin & Hc). exists e. apply collides_true in Hc.
    split; [done | by apply list_elem_of_In].
  - intros (e & Hk & Hin). exists e.
    split; [by apply list_elem_of_In | by apply collides_true].
Qed.

Lemma filter_length_eq (P : A → Prop) `{∀ x, Decision (P x)} xs :
  length (filter P xs) = length xs → filter P xs = xs.
Proof.
  induction xs as [|x xs IH]; [done|].
  rewrite filter_cons. destruct (decide (P x)); simpl.
  - intros [= Hl]. by rewrite IH.
  - intros Hl. pose proof (length_filter P xs). lia.
Qed.

Lemma pruneBucket_filter rel xs :
  pruneBucket rel xs =
    match filter (λ d, file d ≠ rel) xs with
    | [] => None
    | ys => Some ys
    end.
Proof.
  unfold pruneBucket.
  destruct (filter (λ d, file d ≠ rel) xs) as [|y ys] eqn:Hf; [done|].
  simpl length. change (S (length ys) =? 0)%nat with false. cbv iota.
  destruct (S (length ys) <? length xs)%nat eqn:Hlt; [done|].
  apply Nat.ltb_ge in Hlt.
  pose proof (length_filter (λ d, file d ≠ rel) xs) as Hle.
  rewrite Hf in Hle. simpl in Hle.
  rewrite <- Hf. f_equal. symmetry. apply filter_length_eq.
  rewrite Hf. simpl. lia.
Qed.

Lemma bucket_pruneMap rel m n :
  bucket (pruneMap rel m) n = filter (λ d, file d ≠ rel) (bucket m n).
Proof.
  unfold bucket, pruneMap. rewrite lookup_omap.
  destruct (m !! n) as [xs|]; simpl; [|done].
  rewrite pruneBucket_filter.
  by destruct (filter (λ d, file d ≠ rel) xs).
Qed.

Lemma pruneMap_noEmptyBucket rel m : noEmptyBucket (pruneMap rel m).
Proof.
  intros n. unfold pruneMap. rewrite lookup_omap.
  destruct (m !! n) as [xs|]; simpl; [|done].
  rewrite pruneBucket_filter.
  by destruct (filter (λ d, file d ≠ rel) xs).
Qed.

Lemma lookup_pruneMap_Some rel m n ys :
  pruneMap rel m !! n = Some ys →
  ∃ xs, m !! n = Some xs ∧ ys = filter (λ d, file d ≠ rel) xs.
Proof.
  unfold pruneMap. rewrite lookup_omap.
  destruct (m !! n) as [xs|]; simpl; [|done].
  rewrite pruneBucket_filter.
  destruct (filter (λ d, file d ≠ rel) xs) eqn:Hf; [done|].
  intros [= <-]. eauto.
Qed.

Lemma bucket_addEntry m d n :
  bucket (addEntry m d) n =
    if decide (n = name d) then appendNew (bucket m n) d else bucket m n.
Proof.
  unfold addEntry, appendNew, bucket.
  destruct (decide (n = name d)) as [->|Hne].
  - destruct (existsb (collides d) (default [] (m !! name d))); simpl; [done|].
    by rewrite lookup_insert_eq.
  - destruct (negb _); [|done]. by rewrite lookup_insert_ne.
Qed.

Lemma lookup_addEntry_Some m d n xs :
  addEntry m d !! n = Some xs →
  m !! n = Some xs ∨ (n = name d ∧ xs = bucket m n ++ [d]
                      ∧ existsb (collides d) (bucket m n) = false).
Proof.
  unfold addEntry, bucket.
  destruct (existsb (collides d) (default [] (m !! name d))) eqn:Hex; simpl;
    [by left|].
  destruct (decide (n = name d)) as [->|Hne].
  - rewrite lookup_insert_eq. intros [= <-]. by right.
  - rewrite lookup_insert_ne by done. by left.
Qed.

Lemma appendNew_unique xs d : uniqueKeys xs → uniqueKeys (appendNew xs d).
Proof.
  unfold uniqueKeys, appendNew. intros Hnd.
  destruct (existsb (collides d) xs) eqn:Hex; [done|].
  rewrite fmap_app. simpl. apply NoDup_app. split_and!; [done| |apply NoDup_singleton].
  intros k Hk ->%list_elem_of_singleton.
  apply existsb_collides in Hk. congruence.
Qed.

Lemma filter_unique (P : A → Prop) `{∀ x, Decision (P x)} xs :
  uniqueKeys xs → uniqueKeys (filter P xs).
Proof.
  unfold uniqueKeys. intros Hnd.
  eapply sublist_NoDup; [exact Hnd|].
  apply fmap_sublist, sublist_filter.
Qed.

Lemma addEntry_uniqueBuckets m d : uniqueBuckets m → uniqueBuckets (addEntry m d).
Proof.
  intros Hm n xs [Hold | (-> & -> & Hex)]%lookup_addEntry_Some; [by eapply Hm|].
  assert (uniqueKeys (bucket m (name d))) as Hu.
  { unfold bucket. destruct (m !! name d) eqn:Hl; [by eapply Hm|]. constructor. }
  apply appendNew_unique with (d := d) in Hu.
  unfold appendNew in Hu. by rewrite Hex in Hu.
Qed.

Lemma addEntries_uniqueBuckets ds m :
  uniqueBuckets m → uniqueBuckets (addEntries m ds).
Proof.
  unfold addEntries. revert m.
  induction ds as [|d ds IH]; intros m Hm; [done|].
  simpl. apply IH. by apply addEntry_uniqueBuckets.
Qed.

Lemma pruneMap_uniqueBuckets rel m : uniqueBuckets m → uniqueBuckets (pruneMap rel m).
Proof.
  intros Hm n ys (xs & Hl & ->)%lookup_pruneMap_Some.
  apply filter_unique. by eapply Hm.
Qed.

Lemma uniqueBuckets_empty : uniqueBuckets (∅ : gmap string (list A)).
Proof. intros n xs. by rewrite lookup_empty. Qed.

Lemma filter_key_absent xs k :
  k ∉ entryKey <$> xs → filter (λ e, entryKey e = k) xs = [].
Proof.
  induction xs as [|x xs IH]; [done|].
  rewrite fmap_cons, not_elem_of_cons. intros [Hne Hnot].
  rewrite filter_cons, decide_False by congruence. by apply IH.
Qed.

(** In a list with distinct keys, a key that occurs occurs once. *)
Lemma uniqueKeys_count xs k :
  uniqueKeys xs → k ∈ entryKey <$> xs →
  length (filter (λ e, entryKey e = k) xs) = 1.
Proof.
  unfold uniqueKeys.
  induction xs as [|x xs IH]; simpl; [by intros _ ?%elem_of_nil|].
  intros [Hx Hnd]%NoDup_cons Hin. rewrite filter_cons.
  destruct (decide (entryKey x = k)) as [<-|Hne]; simpl.
  - by rewrite filter_key_absent.
  - apply IH; [done|]. apply elem_of_cons in Hin as [?|?]; [congruence | done].
Qed.

Lemma appendNew_has_key xs d : entryKey d ∈ entryKey <$> appendNew xs d.
Proof.
  unfold appendNew. destruct (existsb (collides d) xs) eqn:Hex.
  - by apply existsb_collides.
  - rewrite fmap_app. apply elem_of_app. right. simpl. by apply list_elem_of_singleton.
Qed.

(** After [addEntry], the bucket of the entry's name holds its key once. *)
Lemma addEntry_one_per_key m d :
  uniqueBuckets m →
  length (filter (λ e, entryKey e = entryKey d) (bucket (addEntry m d) (name d))) = 1.
Proof.
  intros Hm. rewrite bucket_addEntry. rewrite decide_True by done.
  apply uniqueKeys_count; [|apply appendNew_has_key].
  apply appendNew_unique. unfold bucket.
  destruct (m !! name d) eqn:Hl; [by eapply Hm | constructor].
Qed.

(** A second insertion of the same entry changes nothing. *)
Lemma addEntry_twice m d : addEntry (addEntry m d) d = addEntry m d.
Proof.
  unfold addEntry at 1.
  change (default [] (addEntry m d !! name d)) with (bucket (addEntry m d) (name d)).
  assert (existsb (collides d) (bucket (addEntry m d) (name d)) = true) as ->; [|done].
  apply existsb_collides. rewrite bucket_addEntry, decide_True by done.
  apply appendNew_has_key.
Qed.

End BucketFacts.

(** ** Facts about the service *)

Lemma afterParse_cases root rel f st1 :
  afterParse root rel f st1 =
    match parseFile f root with
    | Returned parsed =>
        {| definitions := addEntries (definitions st1) parsed.1;
           references := addEntries (references st1) parsed.2;
           filesIndexed := {[rel]} ∪ filesIndexed st1;
           projectRoot := projectRoot st1;
           isIndexing := isIndexing st1 |}
    | Thrown _ => st1
    end.
Proof. unfold afterParse. by destruct (parseFile f root). Qed.

Lemma projectRoot_afterParse root rel f st1 :
  projectRoot (afterParse root rel f st1) = projectRoot st1.
Proof. rewrite afterParse_cases. by destruct (parseFile f root). Qed.

Lemma isIndexing_afterParse root rel f st1 :
  isIndexing (afterParse root rel f st1) = isIndexing st1.
Proof. rewrite afterParse_cases. by destruct (parseFile f root). Qed.

Lemma projectRoot_indexFile st f : projectRoot (indexFile st f) = projectRoot st.
Proof.
  unfold indexFile. destruct (knownRoot st); [|done].
  by rewrite projectRoot_afterParse.
Qed.

Lemma knownRoot_indexFile st f : knownRoot (indexFile st f) = knownRoot st.
Proof. unfold knownRoot. by rewrite projectRoot_indexFile. Qed.

Lemma isIndexing_indexFile st f : isIndexing (indexFile st f) = isIndexing st.
Proof.
  unfold indexFile. destruct (knownRoot st); [|done].
  by rewrite isIndexing_afterParse.
Qed.

Lemma indexFiles_snoc st fs f :
  indexFiles st (fs ++ [f]) = indexFile (indexFiles st fs) f.
Proof. unfold indexFiles. by rewrite foldl_app. Qed.

Lemma knownRoot_indexFiles fs st : knownRoot (indexFiles st fs) = knownRoot st.
Proof.
  revert st. induction fs as [|f fs IH]; intros st; [done|].
  simpl. by rewrite IH, knownRoot_indexFile.
Qed.

(** A rebuild that passes both guards, by what [glob] answers. *)
Lemma runFullIndex_started st root :
  knownRoot st = Some root → isIndexing st = false →
  runFullIndex st =
    match glob root with
    | Thrown _ => setIndexing false (clearIndex (setIndexing true st))
    | Returned files =>
        setIndexing false (indexFiles (clearIndex (setIndexing true st)) files)
    end.
Proof.
  intros Hroot Hidle. unfold runFullIndex. rewrite Hroot, Hidle.
  destruct (glob root) as [[|f fs]|]; done.
Qed.

(** *** The indexed-file set *)

Lemma filesIndexed_indexFile st root f :
  knownRoot st = Some root →
  filesIndexed (indexFile st f) =
    if decide (extractorRejects root f)
    then filesIndexed st ∖ {[relative root f]}
    else {[relative root f]} ∪ filesIndexed st ∖ {[relative root f]}.
Proof.
  intros Hroot. unfold indexFile. rewrite Hroot, afterParse_cases.
  destruct (decide (extractorRejects root f)) as [Hf|Hf];
    unfold extractorRejects in Hf;
    destruct (parseFile f root); simpl in *; done.
Qed.

Lemma filesIndexed_indexFiles root fs st :
  knownRoot st = Some root →
  (∀ f g, f ∈ fs → g ∈ fs → relative root f = relative root g →
          extractorRejects root f → extractorRejects root g) →
  filesIndexed st = ∅ →
  filesIndexed (indexFiles st fs) =
    list_to_set (relative root <$> fs)
    ∖ list_to_set (relative root <$> filter (extractorRejects root) fs).
Proof.
  intros Hroot Hagree Hempty.
  induction fs as [|f fs IH] using rev_ind.
  { simpl. rewrite Hempty. path_sets. }
  rewrite indexFiles_snoc.
  rewrite (filesIndexed_indexFile _ root) by by rewrite knownRoot_indexFiles.
  rewrite IH
    by (intros f' g' ? ? ? ?; apply (Hagree f' g'); [path_sets..|done|done]).
  rewrite filter_app, !fmap_app, !list_to_set_app_L.
  rewrite filter_cons, filter_nil.
  destruct (decide (extractorRejects root f)) as [Hf|Hf]; simpl.
  - path_sets.
  - assert (relative root f ∉
      (list_to_set (relative root <$> filter (extractorRejects root) fs) : gset string)).
    { rewrite elem_of_list_to_set, list_elem_of_fmap.
      intros (g & Heq & [Hg Hin]%list_elem_of_filter).
      apply Hf. apply (Hagree g f); [path_sets..|done|done]. }
    apply set_eq. intros r.
    destruct (decide (r = relative root f)); path_sets.
Qed.

(** Without any assumption on the files: a relative path is indexed after
    the loop exactly when the last file of the list with that relative path
    was extracted without failure. *)
Lemma filesIndexed_indexFiles_last root fs st r :
  knownRoot st = Some root → filesIndexed st = ∅ →
  r ∈ filesIndexed (indexFiles st fs) ↔
    ∃ f, last (filter (λ f, relative root f = r) fs) = Some f
         ∧ ¬ extractorRejects root f.
Proof.
  intros Hroot Hempty.
  induction fs as [|g fs IH] using rev_ind.
  { simpl. rewrite Hempty. split; [by intros ?%elem_of_empty | by intros (f & ? & _)]. }
  rewrite indexFiles_snoc.
  rewrite (filesIndexed_indexFile _ root) by by rewrite knownRoot_indexFiles.
  rewrite filter_app, filter_cons, filter_nil.
  destruct (decide (relative root g = r)) as [<-|Hne].
  - rewrite last_snoc.
    destruct (decide (extractorRejects root g)) as [Hg|Hg].
    + split; [path_sets | by intros (f & [= <-] & Hf)].
    + split; [intros _; by exists g | path_sets].
  - rewrite app_nil_r, <- IH.
    destruct (decide (extractorRejects root g)); path_sets.
Qed.

(** *** Buckets as lists: what insertion and removal do to one name *)

Section BucketOrder.
Context {A : Type} `{Located A}.
Implicit Types (m : gmap string (list A)) (xs ds : list A) (d e : A).

Lemma bucket_addEntries ds m n :
  bucket (addEntries m ds) n =
    foldl appendNew (bucket m n) (filter (λ d, name d = n) ds).
Proof.
  unfold addEntries. revert m.
  induction ds as [|d ds IH]; intros m; [done|].
  simpl. rewrite IH, bucket_addEntry, filter_cons.
  destruct (decide (n = name d)) as [->|Hne].
  - by rewrite decide_True.
  - by rewrite decide_False.
Qed.

Lemma appendNew_sublist xs d : appendNew xs d `sublist_of` xs ++ [d].
Proof.
  unfold appendNew. destruct (existsb (collides d) xs); [|done].
  by apply sublist_inserts_r.
Qed.

Lemma foldl_appendNew_sublist ds xs :
  foldl appendNew xs ds `sublist_of` xs ++ ds.
Proof.
  revert xs. induction ds as [|d ds IH]; intros xs; simpl.
  - by rewrite app_nil_r.
  - etrans; [apply IH|].
    rewrite (cons_middle d xs ds), app_assoc.
    apply sublist_app; [apply appendNew_sublist | done].
Qed.

Lemma elem_of_foldl_appendNew ds xs e :
  e ∈ foldl appendNew xs ds → e ∈ xs ∨ e ∈ ds.
Proof.
  intros He. apply elem_of_app.
  eapply elem_of_sublist; [done | apply foldl_appendNew_sublist].
Qed.

(** With no collision, insertion appends the new entries in their order. *)
Lemma foldl_appendNew_fresh ds xs :
  uniqueKeys ds → (∀ d, d ∈ ds → entryKey d ∉ entryKey <$> xs) →
  foldl appendNew xs ds = xs ++ ds.
Proof.
  unfold uniqueKeys. revert xs.
  induction ds as [|d ds IH]; intros xs Hnd Hfresh; simpl.
  - by rewrite app_nil_r.
  - rewrite fmap_cons in Hnd. apply NoDup_cons in Hnd as [Hd Hnd].
    assert (appendNew xs d = xs ++ [d]) as ->.
    { unfold appendNew.
      destruct (existsb (collides d) xs) eqn:Hex; [|done].
      apply existsb_collides in Hex. exfalso.
      by apply (Hfresh d (list_elem_of_here _ _)). }
    rewrite IH, <- app_assoc; [done..|].
    intros d' Hd'. rewrite fmap_app, elem_of_app. simpl.
    intros [Hin | Heq%list_elem_of_singleton].
    + by apply (Hfresh d' (list_elem_of_further _ _ _ Hd')).
    + apply Hd. rewrite <- Heq. by apply list_elem_of_fmap_2.
Qed.

End BucketOrder.

(** *** One file's contribution to a bucket *)

Lemma bucket_definitions_indexFile st root f n :
  knownRoot st = Some root →
  bucket (definitions (indexFile st f)) n =
    foldl appendNew
      (filter (λ d, file d ≠ relative root f) (bucket (definitions st) n))
      (filter (λ d, name d = n) (extractedDefs root f)).
Proof.
  intros Hroot. unfold indexFile, extractedDefs.
  rewrite Hroot, afterParse_cases.
  destruct (parseFile f root); simpl.
  - by rewrite bucket_addEntries, bucket_pruneMap.
  - by rewrite bucket_pruneMap.
Qed.

Lemma bucket_references_indexFile st root f n :
  knownRoot st = Some root →
  bucket (references (indexFile st f)) n =
    foldl appendNew
      (filter (λ d, file d ≠ relative root f) (bucket (references st) n))
      (filter (λ d, name d = n) (extractedRefs root f)).
Proof.
  intros Hroot. unfold indexFile, extractedRefs.
  rewrite Hroot, afterParse_cases.
  destruct (parseFile f root); simpl.
  - by rewrite bucket_addEntries, bucket_pruneMap.
  - by rewrite bucket_pruneMap.
Qed.

(** *** A bucket across a whole run of files *)

Section Replay.
Context {A : Type} `{Located A}.
Variable rel : string → string.
Variable news : string → list A.
Implicit Types (xs : list A) (fs : list string).

Lemma replay_snoc xs fs f :
  replay rel news xs (fs ++ [f]) =
    foldl appendNew (filter (λ d, file d ≠ rel f) (replay rel news xs fs)) (news f).
Proof. unfold replay. by rewrite foldl_app. Qed.

(** Entries are only ever dropped or appended: the bucket is a subsequence
    of the new entries laid out file after file. *)
Lemma replay_sublist fs xs :
  replay rel news xs fs `sublist_of` xs ++ mjoin (news <$> fs).
Proof.
  induction fs as [|f fs IH] using rev_ind.
  - simpl. by rewrite app_nil_r.
  - rewrite replay_snoc, fmap_app, join_app. simpl.
    rewrite app_nil_r, app_assoc.
    etrans; [apply foldl_appendNew_sublist|].
    apply sublist_app; [|done].
    etrans; [apply sublist_filter | apply IH].
Qed.

Lemma filter_all (P : A → Prop) `{∀ x, Decision (P x)} xs :
  Forall P xs → filter P xs = xs.
Proof.
  induction 1 as [|x xs Hx _ IH]; [done|].
  by rewrite filter_cons, decide_True, IH.
Qed.

(** When the files have distinct relative paths, every new entry carries
    the relative path of its file, and no file reports one key twice, nothing
    is dropped. *)
Lemma replay_exact fs :
  NoDup (rel <$> fs) →
  (∀ f, f ∈ fs → Forall (λ d, file d = rel f) (news f)) →
  (∀ f, f ∈ fs → uniqueKeys (news f)) →
  replay rel news [] fs = mjoin (news <$> fs).
Proof.
  induction fs as [|f fs IH] using rev_ind; [done|].
  rewrite fmap_app. simpl. intros [Hnd [Hdisj _]]%NoDup_app Hfile Huniq.
  rewrite replay_snoc, fmap_app, join_app. simpl. rewrite app_nil_r.
  rewrite IH;
    [|done|intros; apply Hfile; path_sets|intros; apply Huniq; path_sets].
  assert (Forall (λ d, file d ≠ rel f) (mjoin (news <$> fs))) as Hother.
  { apply Forall_forall. intros d Hd Heq.
    apply list_elem_of_join in Hd as (ys & Hd & Hys).
    apply list_elem_of_fmap in Hys as (g & -> & Hg).
    assert (file d = rel g) as Hdg.
    { assert (Forall (λ d, file d = rel g) (news g)) as Hall
        by (apply Hfile; path_sets).
      rewrite Forall_forall in Hall. by apply Hall. }
    apply (Hdisj (rel g)); [by apply list_elem_of_fmap_2|].
    rewrite <- Hdg, Heq. by apply list_elem_of_singleton. }
  rewrite filter_all by done.
  apply foldl_appendNew_fresh; [apply Huniq; path_sets|].
  intros d Hd [e [Hk He]]%list_elem_of_fmap.
  rewrite Forall_forall in Hother. apply (Hother e He).
  assert (file d = rel f) as <-.
  { assert (Forall (λ d, file d = rel f) (news f)) as Hall
      by (apply Hfile; path_sets).
    rewrite Forall_forall in Hall. by apply Hall. }
  unfold entryKey in Hk. congruence.
Qed.

End Replay.

Lemma bucket_definitions_indexFiles root n fs st :
  knownRoot st = Some root →
  bucket (definitions (indexFiles st fs)) n =
    replay (relative root) (defsNamed root n) (bucket (definitions st) n) fs.
Proof.
  intros Hroot. induction fs as [|f fs IH] using rev_ind; [done|].
  rewrite indexFiles_snoc, replay_snoc, <- IH.
  apply bucket_definitions_indexFile. by rewrite knownRoot_indexFiles.
Qed.

Lemma bucket_references_indexFiles root n fs st :
  knownRoot st = Some root →
  bucket (references (indexFiles st fs)) n =
    replay (relative root) (refsNamed root n) (bucket (references st) n) fs.
Proof.
  intros Hroot. induction fs as [|f fs IH] using rev_ind; [done|].
  rewrite indexFiles_snoc, replay_snoc, <- IH.
  apply bucket_references_indexFile. by rewrite knownRoot_indexFiles.
Qed.

(** *** Lookups *)

Lemma collectLocations_omap {A : Type} `{Located A} st uri (xs : list A) :
  collectLocations st uri xs = omap (λ d, toLspLocation st d uri) xs.
Proof.
  unfold collectLocations.
  enough (∀ acc,
    foldl (λ locations d,
             match toLspLocation st d uri with
             | Some lspLoc => locations ++ [lspLoc]
             | None => locations
             end) acc xs
    = acc ++ omap (λ d, toLspLocation st d uri) xs) as Hgen by apply Hgen.
  induction xs as [|x xs IH]; intros acc; csimpl.
  - by rewrite app_nil_r.
  - rewrite IH. destruct (toLspLocation st x uri); [|done].
    by rewrite <- app_assoc.
Qed.

Lemma toLspRange_cases (r : Range) :
  toLspRange r
  = if inProtocolRange r
    then Returned (Lsp.mkRange (toLspPosition (start r)) (toLspPosition (end_ r)))
    else Thrown "Range#create called with invalid arguments".
Proof. reflexivity. Qed.

Lemma lspLocationOf_cases {A : Type} `{Located A} root (loc : A) :
  lspLocationOf root loc
  = if inProtocolRange (range loc)
    then Some (Lsp.mkLocation (fileUriOf (resolve root (file loc)))
                 (Lsp.mkRange (toLspPosition (start (range loc)))
                    (toLspPosition (end_ (range loc)))))
    else None.
Proof.
  unfold lspLocationOf. rewrite toLspRange_cases.
  by destruct (inProtocolRange (range loc)).
Qed.

Lemma toLspLocation_known {A : Type} `{Located A} st root (loc : A) uri :
  knownRoot st = Some root →
  toLspLocation st loc uri = lspLocationOf root loc.
Proof.
  intros Hroot. unfold toLspLocation, lspLocationOf. rewrite Hroot.
  by destruct (toLspRange (range loc)).
Qed.

Lemma toLspLocation_unknown {A : Type} `{Located A} st (loc : A) uri :
  knownRoot st = None → toLspLocation st loc uri = None.
Proof. intros Hroot. unfold toLspLocation. by rewrite Hroot. Qed.

Lemma collectLocations_known {A : Type} `{Located A} st root uri (xs : list A) :
  knownRoot st = Some root →
  collectLocations st uri xs = omap (lspLocationOf root) xs.
Proof.
  intros Hroot. rewrite collectLocations_omap.
  induction xs as [|x xs IH]; [done|].
  csimpl. by rewrite (toLspLocation_known _ root), IH.
Qed.

(** When [Range.create] accepts every range of a list, its translation
    drops nothing. *)
Lemma omap_lspLocationOf_length {A : Type} `{Located A} root (xs : list A) :
  length (omap (lspLocationOf root) xs)
  = length (filter (λ e, inProtocolRange (range e) = true) xs).
Proof.
  induction xs as [|x xs IH]; [done|].
  csimpl. rewrite lspLocationOf_cases, filter_cons.
  destruct (inProtocolRange (range x)) eqn:Hx.
  - rewrite decide_True by done. simpl. by rewrite IH.
  - rewrite decide_False by done. exact IH.
Qed.

Lemma collectLocations_unknown {A : Type} `{Located A} st uri (xs : list A) :
  knownRoot st = None → collectLocations st uri xs = [].
Proof.
  intros Hroot. rewrite collectLocations_omap.
  induction xs as [|x xs IH]; [done|].
  csimpl. by rewrite toLspLocation_unknown.
Qed.

(** *** Uniqueness of keys is kept by every operation *)

Lemma indexUnique_removeDataForFile st rel :
  indexUnique st → indexUnique (removeDataForFile st rel).
Proof. intros [Hd Hr]. split; simpl; by apply pruneMap_uniqueBuckets. Qed.

Lemma indexUnique_afterParse root rel f st1 :
  indexUnique st1 → indexUnique (afterParse root rel f st1).
Proof.
  intros [Hd Hr]. rewrite afterParse_cases.
  destruct (parseFile f root); [|done].
  split; simpl; by apply addEntries_uniqueBuckets.
Qed.

Lemma indexUnique_indexFile st f : indexUnique st → indexUnique (indexFile st f).
Proof.
  intros Hst. unfold indexFile. destruct (knownRoot st); [|done].
  by apply indexUnique_afterParse, indexUnique_removeDataForFile.
Qed.

Lemma indexUnique_indexFiles fs st :
  indexUnique st → indexUnique (indexFiles st fs).
Proof.
  revert st. induction fs as [|f fs IH]; intros st Hst; [done|].
  simpl. by apply IH, indexUnique_indexFile.
Qed.

Lemma indexUnique_cleared st : indexUnique (clearIndex st).
Proof. split; apply uniqueBuckets_empty. Qed.

Lemma indexUnique_runFullIndex st : indexUnique st → indexUnique (runFullIndex st).
Proof.
  intros Hst. unfold runFullIndex.
  destruct (knownRoot st); [|done].
  destruct (isIndexing st); [done|].
  destruct (glob s) as [[|f fs]|]; try apply indexUnique_cleared.
  change (indexUnique (indexFiles (clearIndex (setIndexing true st)) (f :: fs))).
  apply indexUnique_indexFiles, indexUnique_cleared.
Qed.

Lemma indexUnique_initialize st uri :
  indexUnique st → indexUnique (initialize st uri).
Proof.
  intros Hst. unfold initialize.
  destruct (uriToPath uri) as [p|]; [|done].
  destruct (truthy p); [|done].
  by apply indexUnique_runFullIndex.
Qed.

Lemma indexUnique_handleFileSave st uri :
  indexUnique st → indexUnique (handleFileSave st uri).
Proof.
  intros Hst. unfold handleFileSave.
  destruct (uriToPath uri) as [p|]; [|done].
  destruct (projectRoot st) as [root|]; [|done].
  destruct (_ && _); [|done].
  destruct (isApexSource p); [|done].
  by apply indexUnique_indexFile.
Qed.

(** From a new service, whatever the server calls, keys stay unique. *)
Lemma indexUnique_reachable (requests : list Request) :
  indexUnique (foldl handle newService requests).
Proof.
  apply (foldl_preserves indexUnique).
  - split; apply uniqueBuckets_empty.
  - intros st [uri| |f|uri] Hst; simpl.
    + by apply indexUnique_initialize.
    + by apply indexUnique_runFullIndex.
    + by apply indexUnique_indexFile.
    + by apply indexUnique_handleFileSave.
Qed.

(** Keys stay unique across the steps of a suspended rebuild as well. *)
Lemma indexUnique_nextFile fs st :
  indexUnique st → indexUnique (nextFile st fs).1.
Proof.
  revert st. induction fs as [|f fs IH]; intros st Hst; simpl; [done|].
  destruct (knownRoot st); [by apply indexUnique_removeDataForFile | by apply IH].
Qed.

Lemma indexUnique_step sys e : indexUnique sys.1 → indexUnique (step sys e).1.
Proof.
  destruct sys as [st tasks]. intros Hst. destruct e; unfold step; cbn [fst snd].
  - unfold startRebuild. destruct (knownRoot st); [|done].
    destruct (isIndexing st); [done | apply indexUnique_cleared].
  - destruct tasks as [|p others]; [done|].
    assert (indexUnique (resume p st).1) as Hres.
    { destruct p as [root | root rel f rest]; simpl.
      - destruct (glob root); [by apply indexUnique_nextFile | done].
      - by apply indexUnique_nextFile, indexUnique_afterParse. }
    by destruct (resume p st) as [st' [q|]].
Qed.

(** *** The suspended rebuild *)

Lemma nextFile_flag fs st st' p :
  nextFile st fs = (st', p) →
  match p with
  | Some _ => isIndexing st' = isIndexing st
  | None => isIndexing st' = false
  end.
Proof.
  revert st. induction fs as [|f fs IH]; intros st; simpl.
  - by intros [= <- <-].
  - destruct (knownRoot st); [by intros [= <- <-] | apply IH].
Qed.

Lemma resume_flag p st st' q :
  resume p st = (st', q) →
  match q with
  | Some _ => isIndexing st' = isIndexing st
  | None => isIndexing st' = false
  end.
Proof.
  destruct p as [root | root rel f rest]; simpl.
  - destruct (glob root); [apply nextFile_flag | by intros [= <- <-]].
  - intros Hn%nextFile_flag. by rewrite isIndexing_afterParse in Hn.
Qed.

(** A call that finds [isIndexing] set changes nothing and suspends nothing. *)
Lemma startRebuild_busy st :
  isIndexing st = true →
  startRebuild st
    = (st, match knownRoot st with
           | Some _ => SkippedAlreadyIndexing
           | None => SkippedNoRoot
           end).
Proof. intros Hbusy. unfold startRebuild. rewrite Hbusy. by destruct (knownRoot st). Qed.

Lemma step_request_busy sys :
  isIndexing sys.1 = true → step sys RebuildRequest = sys.
Proof.
  intros Hbusy. destruct sys as [st tasks]. simpl in *.
  rewrite startRebuild_busy by done. by destruct (knownRoot st).
Qed.

(** Through [initialize] the request is skipped as well, but only after the
    stored root was overwritten. *)
Lemma initialize_while_indexing st uri workspacePath :
  isIndexing st = true → uriToPath uri = Some workspacePath →
  truthy workspacePath = true →
  initialize st uri = setProjectRoot (findProjectRoot workspacePath) st.
Proof.
  intros Hbusy Huri Hpath. unfold initialize. rewrite Huri, Hpath.
  unfold runFullIndex. simpl isIndexing. rewrite Hbusy.
  by destruct (knownRoot _).
Qed.

Lemma run_app sys es1 es2 : run sys (es1 ++ es2) = run (run sys es1) es2.
Proof. apply foldl_app. Qed.

Lemma oneRebuild_step sys e : oneRebuild sys → oneRebuild (step sys e).
Proof.
  destruct sys as [st tasks]. intros Hinv. destruct e.
  - destruct (isIndexing st) eqn:Hflag.
    + by rewrite step_request_busy.
    + destruct Hinv as [[_ Ht] | [Hbusy _]]; simpl in *; [subst tasks | congruence].
      unfold step, startRebuild; cbn [fst snd]. rewrite Hflag.
      destruct (knownRoot st); [right; simpl; eauto | by left].
  - unfold step; cbn [fst snd].
    destruct Hinv as [[Hidle Ht] | [Hbusy [p Ht]]]; simpl in *; subst tasks.
    + by left.
    + destruct (resume p st) as [st' [q|]] eqn:Hres; apply resume_flag in Hres.
      * right. simpl. split; [congruence | eauto].
      * by left.
Qed.

Lemma oneRebuild_run es sys : oneRebuild sys → oneRebuild (run sys es).
Proof.
  revert sys. induction es as [|e es IH]; intros sys Hsys; [done|].
  simpl. by apply IH, oneRebuild_step.
Qed.

(** Running the suspended loop to its end is [indexFiles]. *)
Lemma nextFile_completes root fs st others :
  knownRoot st = Some root →
  run (match nextFile st fs with
       | (st1, Some p) => (st1, p :: others)
       | (st1, None) => (st1, others)
       end)
      (replicate (length fs) Resume)
  = (setIndexing false (indexFiles st fs), others).
Proof.
  revert st. induction fs as [|f fs IH]; intros st Hroot; [done|].
  cbn [nextFile length replicate]. rewrite Hroot.
  cbn [run foldl step fst snd resume].
  change (foldl step ?s ?es) with (run s es).
  assert (afterParse root (relative root f) f
            (removeDataForFile st (relative root f)) = indexFile st f) as ->.
  { unfold indexFile. by rewrite Hroot. }
  specialize (IH (indexFile st f)).
  rewrite knownRoot_indexFile in IH. specialize (IH Hroot).
  destruct (nextFile (indexFile st f) fs) as [st1 [q|]]; exact IH.
Qed.

Lemma run_idle st k : run (st, []) (replicate k Resume) = (st, []).
Proof. induction k as [|k IH]; [done|]. exact IH. Qed.

(** The rebuild cut at its [await]s and run without interruption is
    [runFullIndex]. *)
Lemma run_uninterrupted st :
  ∃ n : nat, ∀ k : nat, (n ≤ k)%nat →
    run (st, []) (RebuildRequest :: replicate k Resume) = (runFullIndex st, []).
Proof.
  unfold runFullIndex. cbn [run foldl step fst snd]. unfold startRebuild.
  change (foldl step ?s ?es) with (run s es).
  destruct (knownRoot st) as [root|] eqn:Hroot;
    [|exists 0; intros; apply run_idle].
  destruct (isIndexing st) eqn:Hflag; [exists 0; intros; apply run_idle|].
  cbn [app].
  destruct (glob root) as [fs|msg] eqn:Hglob.
  - exists (S (length fs)). intros k Hk.
    replace k with (S (length fs) + (k - S (length fs))) by lia.
    rewrite replicate_add, run_app. cbn [replicate run foldl step fst snd resume].
    rewrite Hglob. change (foldl step ?s ?es) with (run s es).
    pose proof (nextFile_completes root fs (clearIndex (setIndexing true st)) [] Hroot)
      as Hdone.
    simpl app.
    destruct (nextFile (clearIndex (setIndexing true st)) fs) as [st1 [q|]];
      rewrite Hdone, run_idle; by destruct fs.
  - exists 1. intros k Hk. destruct k as [|k]; [lia|].
    cbn [replicate run foldl step fst snd resume]. rewrite Hglob.
    apply run_idle.
Qed.

Lemma addEntries_noEmptyBucket {A : Type} `{Located A} (ds : list A)
    (m : gmap string (list A)) :
  noEmptyBucket m → noEmptyBucket (addEntries m ds).
Proof.
  unfold addEntries. revert m.
  induction ds as [|d ds IH]; intros m Hm; [done|].
  simpl. apply IH. intros n [Hold | (_ & Hnil & _)]%lookup_addEntry_Some.
  - by apply (Hm n).
  - by destruct (bucket m n).
Qed.

Lemma bucket_Forall_lookup {A : Type} `{Located A} (P : A → Prop)
    (m : gmap string (list A)) :
  (∀ n, Forall P (bucket m n)) ↔ (∀ n xs, m !! n = Some xs → Forall P xs).
Proof.
  split.
  - intros Hall n xs Hl. specialize (Hall n). unfold bucket in Hall.
    by rewrite Hl in Hall.
  - intros Hall n. unfold bucket.
    destruct (m !! n) eqn:Hl; [by eapply Hall | constructor].
Qed.

(** ** The claims *)

(** Claim C1, as amended. In a rebuild that passed both guards, the store
    is cleared in the synchronous prefix of [runFullIndex], before [glob] is
    awaited. When enumeration then fails, the rebuild stops there: no file is
    indexed, the guard is released, and both mappings and the indexed-file
    set are left empty (the previous contents are gone). *)
Theorem enumeration_failure_leaves_cleared_index st root msg :
  knownRoot st = Some root → isIndexing st = false → glob root = Thrown msg →
  startRebuild st = (clearIndex (setIndexing true st), Suspended (AwaitGlob root))
  ∧ resume (AwaitGlob root) (clearIndex (setIndexing true st))
    = (setIndexing false (clearIndex (setIndexing true st)), None)
  ∧ runFullIndex st =
      {| definitions := ∅; references := ∅; filesIndexed := ∅;
         projectRoot := projectRoot st; isIndexing := false |}.
Proof.
  intros Hroot Hidle Hglob. split_and!.
  - unfold startRebuild. by rewrite Hroot, Hidle.
  - simpl. by rewrite Hglob.
  - rewrite (runFullIndex_started st root) by done. by rewrite Hglob.
Qed.

(** Claim C3, as amended. [indexFile] first removes every stored definition
    and reference whose file is the relative path of [f], deleting the buckets
    that become empty and keeping the other entries in place, and only then
    inserts what the extractor returns. So after the call an entry with that file, in either mapping, is one of the
    newly extracted entries: a file that yields no definitions leaves none in
    the definitions mapping, and one that yields no references leaves none in
    the references mapping. *)
Theorem indexFile_leaves_no_residue st root f :
  knownRoot st = Some root →
  let rel := relative root f in
  let st1 := removeDataForFile st rel in
  indexFile st f = afterParse root rel f st1
  ∧ (∀ n, bucket (definitions st1) n
          = filter (λ d, file d ≠ rel) (bucket (definitions st) n))
  ∧ (∀ n, bucket (references st1) n
          = filter (λ r, file r ≠ rel) (bucket (references st) n))
  ∧ noEmptyBucket (definitions st1) ∧ noEmptyBucket (references st1)
  ∧ noEmptyBucket (definitions (indexFile st f))
  ∧ noEmptyBucket (references (indexFile st f))
  ∧ (∀ n d, d ∈ bucket (definitions (indexFile st f)) n → file d = rel →
            d ∈ extractedDefs root f)
  ∧ (∀ n r, r ∈ bucket (references (indexFile st f)) n → file r = rel →
            r ∈ extractedRefs root f)
  ∧ (extractedDefs root f = [] →
     ∀ n, Forall (λ d, file d ≠ rel) (bucket (definitions (indexFile st f)) n))
  ∧ (extractedRefs root f = [] →
     ∀ n, Forall (λ r, file r ≠ rel) (bucket (references (indexFile st f)) n)).
Proof.
  intros Hroot rel st1.
  assert (∀ n, bucket (definitions st1) n
               = filter (λ d, file d ≠ rel) (bucket (definitions st) n)) as Hd1.
  { intros n. subst st1. simpl. by rewrite bucket_pruneMap. }
  assert (∀ n, bucket (references st1) n
               = filter (λ r, file r ≠ rel) (bucket (references st) n)) as Hr1.
  { intros n. subst st1. simpl. by rewrite bucket_pruneMap. }
  assert (∀ n d, d ∈ bucket (definitions (indexFile st f)) n → file d = rel →
                 d ∈ extractedDefs root f) as Hd2.
  { intros n d Hin Hfile. rewrite (bucket_definitions_indexFile _ root) in Hin by done.
    apply elem_of_foldl_appendNew in Hin as [Hold | Hnew].
    - by apply list_elem_of_filter in Hold as [? _].
    - by apply list_elem_of_filter in Hnew as [_ ?]. }
  assert (∀ n r, r ∈ bucket (references (indexFile st f)) n → file r = rel →
                 r ∈ extractedRefs root f) as Hr2.
  { intros n d Hin Hfile. rewrite (bucket_references_indexFile _ root) in Hin by done.
    apply elem_of_foldl_appendNew in Hin as [Hold | Hnew].
    - by apply list_elem_of_filter in Hold as [? _].
    - by apply list_elem_of_filter in Hnew as [_ ?]. }
  split_and!; try done.
  - unfold indexFile. by rewrite Hroot.
  - apply pruneMap_noEmptyBucket.
  - apply pruneMap_noEmptyBucket.
  - unfold indexFile. rewrite Hroot, afterParse_cases.
    destruct (parseFile f root); simpl;
      [apply addEntries_noEmptyBucket|]; apply pruneMap_noEmptyBucket.
  - unfold indexFile. rewrite Hroot, afterParse_cases.
    destruct (parseFile f root); simpl;
      [apply addEntries_noEmptyBucket|]; apply pruneMap_noEmptyBucket.
  - intros Hnone n. apply Forall_forall. intros d Hin Hfile.
    specialize (Hd2 n d Hin Hfile). rewrite Hnone in Hd2. by apply elem_of_nil in Hd2.
  - intros Hnone n. apply Forall_forall. intros d Hin Hfile.
    specialize (Hr2 n d Hin Hfile). rewrite Hnone in Hr2. by apply elem_of_nil in Hr2.
Qed.

(** Claim C4. If, in every bucket of both mappings, the entries are pairwise
    distinct on (file, start line, start column), then the same holds after
    [removeDataForFile], [indexFile], [runFullIndex], [initialize] and
    [handleFileSave]; and inserting an entry, whether or not it collides with a
    stored one, leaves exactly one entry with its key in the bucket of its
    name, so that inserting it a second time changes nothing. *)
Theorem unique_keys_preserved st :
  indexUnique st →
  (∀ rel, indexUnique (removeDataForFile st rel))
  ∧ (∀ f, indexUnique (indexFile st f))
  ∧ indexUnique (runFullIndex st)
  ∧ (∀ uri, indexUnique (initialize st uri))
  ∧ (∀ uri, indexUnique (handleFileSave st uri))
  ∧ (∀ d : Definition_,
       uniqueBuckets (addEntry (definitions st) d)
       ∧ length (filter (λ e, entryKey e = entryKey d)
                   (bucket (addEntry (definitions st) d) (name d))) = 1
       ∧ addEntry (addEntry (definitions st) d) d = addEntry (definitions st) d)
  ∧ (∀ r : Reference,
       uniqueBuckets (addEntry (references st) r)
       ∧ length (filter (λ e, entryKey e = entryKey r)
                   (bucket (addEntry (references st) r) (name r))) = 1
       ∧ addEntry (addEntry (references st) r) r = addEntry (references st) r).
Proof.
  intros Hst. split_and!.
  - intros rel. by apply indexUnique_removeDataForFile.
  - intros f. by apply indexUnique_indexFile.
  - by apply indexUnique_runFullIndex.
  - intros uri. by apply indexUnique_initialize.
  - intros uri. by apply indexUnique_handleFileSave.
  - intros d. destruct Hst as [Hd _]. split_and!.
    + by apply addEntry_uniqueBuckets.
    + by apply addEntry_one_per_key.
    + apply addEntry_twice.
  - intros r. destruct Hst as [_ Hr]. split_and!.
    + by apply addEntry_uniqueBuckets.
    + by apply addEntry_one_per_key.
    + apply addEntry_twice.
Qed.

(** Claim C5. A call of [runFullIndex] that finds [isIndexing] set returns in
    its synchronous prefix with the store unchanged and nothing suspended: it
    is skipped, not queued. Starting from an idle service, whatever requests
    and resumptions the event loop delivers, at most one rebuild is suspended
    at any time; and a request delivered while a rebuild is in progress can be
    deleted from the history without changing the outcome. *)
Theorem rebuild_request_rejected_while_indexing :
  (∀ st, isIndexing st = true →
     runFullIndex st = st
     ∧ startRebuild st
       = (st, match knownRoot st with
              | Some _ => SkippedAlreadyIndexing
              | None => SkippedNoRoot
              end))
  ∧ (∀ sys, isIndexing sys.1 = true → step sys RebuildRequest = sys)
  ∧ (∀ st events, isIndexing st = false →
       (length (run (st, []) events).2 ≤ 1)%nat)
  ∧ (∀ sys before after, isIndexing (run sys before).1 = true →
       run sys (before ++ RebuildRequest :: after) = run sys (before ++ after)).
Proof.
  split_and!.
  - intros st Hbusy. split; [|by apply startRebuild_busy].
    unfold runFullIndex. rewrite Hbusy. by destruct (knownRoot st).
  - apply step_request_busy.
  - intros st events Hidle.
    assert (oneRebuild (run (st, []) events)) as [[_ ->] | [_ [p ->]]];
      [|simpl; lia..].
    apply oneRebuild_run. by left.
  - intros sys before after Hbusy.
    rewrite !run_app.
    change (run (run sys before) (RebuildRequest :: after))
      with (run (step (run sys before) RebuildRequest) after).
    by rewrite step_request_busy.
Qed.

(** Claim C6. [findDefinitions] and [findReferences] are total: a name that
    is bound in neither mapping yields the empty list, and while the project
    root is unknown every lookup yields the empty list; with a known root the
    result is the stored bucket, translated entry by entry, an entry whose
    range [Range.create] refuses being left out by the [catch] of
    [toLspLocation]. *)
Theorem lookups_return_lists st symbol uri :
  (definitions st !! symbol = None → findDefinitions st symbol uri = [])
  ∧ (references st !! symbol = None → findReferences st symbol uri = [])
  ∧ (knownRoot st = None →
       findDefinitions st symbol uri = [] ∧ findReferences st symbol uri = [])
  ∧ (∀ root, knownRoot st = Some root →
       findDefinitions st symbol uri
         = omap (lspLocationOf root) (bucket (definitions st) symbol)
       ∧ findReferences st symbol uri
         = omap (lspLocationOf root) (bucket (references st) symbol)).
Proof.
  unfold findDefinitions, findReferences. split_and!.
  - by intros ->.
  - by intros ->.
  - intros Hroot. split; by apply collectLocations_unknown.
  - intros root Hroot. split; by apply collectLocations_known.
Qed.

(** The ranges [Range.create] accepts after the shift are those whose four
    coordinates lie between 1 and 2^31. *)
Lemma inProtocolRange_bounds (r : Range) :
  inProtocolRange r = true ↔
  (1 ≤ line (start r) ≤ 2147483648)%Z ∧ (1 ≤ column (start r) ≤ 2147483648)%Z
  ∧ (1 ≤ line (end_ r) ≤ 2147483648)%Z ∧ (1 ≤ column (end_ r) ≤ 2147483648)%Z.
Proof.
  unfold inProtocolRange, Lsp.Position_is, Lsp.is_uinteger, Lsp.uinteger_MAX_VALUE,
    toLspPosition.
  cbn [Lsp.line Lsp.character].
  rewrite !andb_true_iff, !Z.leb_le. lia.
Qed.

(** Claim C7, as amended. For an internal position with line and column
    between 1 and 2^31, the protocol position (one less in both coordinates)
    is a valid 0-based position, which [Range.create] accepts, and reading it
    back as a 0-based point through [pointToPosition] (one more in both
    coordinates) gives the position itself; the translation loses nothing:
    positions with the same protocol position are equal.
    [indexRangeToLspRange] and the service's [toLspRange] apply it to both
    ends of a range: they return the translated range when all four
    coordinates are within these bounds, and throw for every other range of
    safe integers. *)
Theorem position_round_trip (L C : Z) :
  (1 ≤ L ≤ 2147483648)%Z → (1 ≤ C ≤ 2147483648)%Z →
  let p := {| line := L; column := C |} in
  pointToPosition (lspPositionToPoint (toLspPosition p)) = p
  ∧ (0 ≤ Lsp.line (toLspPosition p))%Z
  ∧ (0 ≤ Lsp.character (toLspPosition p))%Z
  ∧ (∀ q, toLspPosition q = toLspPosition p → q = p)
  ∧ Lsp.Position_is (toLspPosition p) = true
  ∧ (∀ L' C', (1 ≤ L' ≤ 2147483648)%Z → (1 ≤ C' ≤ 2147483648)%Z →
       let e := {| line := L'; column := C' |} in
       ∃ lspRange,
         indexRangeToLspRange {| start := p; end_ := e |} = Returned lspRange
         ∧ pointToPosition (lspPositionToPoint (Lsp.start lspRange)) = p
         ∧ pointToPosition (lspPositionToPoint (Lsp.end_ lspRange)) = e)
  ∧ (∀ r, toLspRange r = indexRangeToLspRange r
          ∧ (inProtocolRange r = true →
             indexRangeToLspRange r
             = Returned (Lsp.mkRange (toLspPosition (start r))
                           (toLspPosition (end_ r))))
          ∧ (safeRange r = true → inProtocolRange r = false →
             throws (indexRangeToLspRange r) = true)).
Proof.
  intros HL HC p.
  assert (∀ l c, pointToPosition (lspPositionToPoint (toLspPosition (mkPosition l c)))
                 = mkPosition l c) as Hback.
  { intros l c. unfold pointToPosition, lspPositionToPoint, toLspPosition. simpl.
    f_equal; lia. }
  subst p. split_and!.
  - apply Hback.
  - simpl. lia.
  - simpl. lia.
  - intros [l c]. unfold toLspPosition. simpl. intros [= Hl Hc]. f_equal; lia.
  - unfold Lsp.Position_is, Lsp.is_uinteger, Lsp.uinteger_MAX_VALUE, toLspPosition.
    simpl. rewrite !andb_true_iff, !Z.leb_le. lia.
  - intros L' C' HL' HC' e. eexists. split_and!.
    + change (indexRangeToLspRange {| start := mkPosition L C; end_ := e |})
        with (toLspRange {| start := mkPosition L C; end_ := e |}).
      rewrite toLspRange_cases.
      replace (inProtocolRange {| start := mkPosition L C; end_ := e |}) with true;
        [reflexivity|].
      symmetry. apply inProtocolRange_bounds. subst e. simpl. lia.
    + apply Hback.
    + apply Hback.
  - intros r. split_and!; [done | |].
    + intros Hin. change (indexRangeToLspRange r) with (toLspRange r).
      by rewrite toLspRange_cases, Hin.
    + intros _ Hout. change (indexRangeToLspRange r) with (toLspRange r).
      by rewrite toLspRange_cases, Hout.
Qed.

(** Claim C8. A rebuild indexes the enumerated files one after the other in
    the order given. The list a lookup returns is the stored bucket in its
    order, entry by entry (less the entries whose range [Range.create]
    refuses), and that bucket is a subsequence of the extractor's
    output laid out file after file, each file's entries in the order the
    extractor reported them. When the files have distinct relative paths and
    each file's entries carry its relative path and distinct start positions,
    the store drops nothing: the lookup returns exactly that layout,
    translated. *)
Theorem lookup_order_is_insertion_order st root files n uri :
  knownRoot st = Some root → isIndexing st = false →
  glob root = Returned files →
  let st' := runFullIndex st in
  st' = setIndexing false (foldl indexFile (clearIndex (setIndexing true st)) files)
  ∧ findDefinitions st' n uri = omap (lspLocationOf root) (bucket (definitions st') n)
  ∧ findReferences st' n uri = omap (lspLocationOf root) (bucket (references st') n)
  ∧ bucket (definitions st') n `sublist_of` mjoin (defsNamed root n <$> files)
  ∧ bucket (references st') n `sublist_of` mjoin (refsNamed root n <$> files)
  ∧ (NoDup (relative root <$> files) →
     (∀ f, f ∈ files →
        Forall (λ d, file d = relative root f) (defsNamed root n f)
        ∧ uniqueKeys (defsNamed root n f)) →
     findDefinitions st' n uri
       = omap (lspLocationOf root) (mjoin (defsNamed root n <$> files)))
  ∧ (NoDup (relative root <$> files) →
     (∀ f, f ∈ files →
        Forall (λ r, file r = relative root f) (refsNamed root n f)
        ∧ uniqueKeys (refsNamed root n f)) →
     findReferences st' n uri
       = omap (lspLocationOf root) (mjoin (refsNamed root n <$> files))).
Proof.
  intros Hroot Hidle Hglob st'.
  assert (st' = setIndexing false (indexFiles (clearIndex (setIndexing true st)) files))
    as Hst'.
  { subst st'. by rewrite (runFullIndex_started st root), Hglob. }
  assert (knownRoot st' = Some root) as Hroot'.
  { rewrite Hst'. unfold knownRoot. simpl.
    change (knownRoot (indexFiles (clearIndex (setIndexing true st)) files) = Some root).
    by rewrite knownRoot_indexFiles. }
  assert (bucket (definitions st') n
          = replay (relative root) (defsNamed root n) [] files) as Hdefs.
  { rewrite Hst'. simpl. by rewrite (bucket_definitions_indexFiles root). }
  assert (bucket (references st') n
          = replay (relative root) (refsNamed root n) [] files) as Hrefs.
  { rewrite Hst'. simpl. by rewrite (bucket_references_indexFiles root). }
  assert (findDefinitions st' n uri
          = omap (lspLocationOf root) (bucket (definitions st') n))
    as Hfd by by apply collectLocations_known.
  assert (findReferences st' n uri
          = omap (lspLocationOf root) (bucket (references st') n))
    as Hfr by by apply collectLocations_known.
  split_and!; try done.
  - rewrite Hdefs. apply (replay_sublist _ _ files []).
  - rewrite Hrefs. apply (replay_sublist _ _ files []).
  - intros Hnd Hclean. rewrite Hfd, Hdefs. f_equal.
    apply replay_exact; [done|intros f Hf; by apply Hclean..].
  - intros Hnd Hclean. rewrite Hfr, Hrefs. f_equal.
    apply replay_exact; [done|intros f Hf; by apply Hclean..].
Qed.

(** What [handleFileSave] does once the URI converts and a root is stored:
    the test on the path is [startsWith] on the raw strings. *)
Lemma handleFileSave_prefix_test st uri filePath root :
  uriToPath uri = Some filePath → projectRoot st = Some root →
  handleFileSave st uri =
    if truthy filePath && truthy root && String.prefix root filePath
       && isApexSource filePath
    then indexFile st filePath else st.
Proof.
  intros Huri Hroot. unfold handleFileSave, startsWith. rewrite Huri, Hroot.
  destruct (truthy filePath && truthy root && String.prefix root filePath); [|done].
  by destruct (isApexSource filePath).
Qed.

(** ** More properties of the store *)

Section BucketExtra.
Context {A : Type} `{Located A}.
Implicit Types (m : gmap string (list A)) (xs ds : list A) (d e : A).

(** With no empty bucket on either side, two mappings with the same buckets
    are the same mapping. *)
Lemma map_eq_buckets m1 m2 :
  noEmptyBucket m1 → noEmptyBucket m2 →
  (∀ n, bucket m1 n = bucket m2 n) → m1 = m2.
Proof.
  intros H1 H2 Hb. apply map_eq. intros n.
  specialize (Hb n). unfold bucket in Hb.
  specialize (H1 n). specialize (H2 n).
  destruct (m1 !! n) as [[|x xs]|], (m2 !! n) as [[|y ys]|];
    simpl in Hb; congruence.
Qed.

Lemma pruneMap_twice a b m n :
  bucket (pruneMap a (pruneMap b m)) n
  = filter (λ d, file d ≠ a ∧ file d ≠ b) (bucket m n).
Proof. by rewrite !bucket_pruneMap, list_filter_filter. Qed.

Lemma pruneMap_idempotent rel m : pruneMap rel (pruneMap rel m) = pruneMap rel m.
Proof.
  apply map_eq_buckets; [apply pruneMap_noEmptyBucket..|].
  intros n. rewrite pruneMap_twice, bucket_pruneMap.
  apply list_filter_iff. intros x. split; [by intros [? _] | by intros ?; split].
Qed.

Lemma pruneMap_commute a b m :
  pruneMap a (pruneMap b m) = pruneMap b (pruneMap a m).
Proof.
  apply map_eq_buckets; [apply pruneMap_noEmptyBucket..|].
  intros n. rewrite !pruneMap_twice.
  apply list_filter_iff. intros x. split; intros [? ?]; by split.
Qed.

(** On a mapping that holds nothing of the file, removal changes nothing. *)
Lemma pruneMap_absent rel m :
  noEmptyBucket m → (∀ n, Forall (λ d, file d ≠ rel) (bucket m n)) →
  pruneMap rel m = m.
Proof.
  intros Hne Habs. apply map_eq_buckets; [apply pruneMap_noEmptyBucket|done|].
  intros n. rewrite bucket_pruneMap. by apply filter_all.
Qed.

Lemma appendNew_keeps xs d e : e ∈ xs → e ∈ appendNew xs d.
Proof.
  unfold appendNew. destruct (existsb (collides d) xs); [done|].
  intros He. apply elem_of_app. by left.
Qed.

Lemma foldl_appendNew_keeps ds xs e : e ∈ xs → e ∈ foldl appendNew xs ds.
Proof.
  revert xs. induction ds as [|d ds IH]; intros xs He; [done|].
  simpl. by apply IH, appendNew_keeps.
Qed.

Lemma foldl_appendNew_keeps_key ds xs k :
  k ∈ entryKey <$> xs → k ∈ entryKey <$> foldl appendNew xs ds.
Proof.
  intros (e & -> & He)%list_elem_of_fmap.
  by apply list_elem_of_fmap_2, foldl_appendNew_keeps.
Qed.

(** Every entry offered for insertion ends up represented: the bucket holds
    an entry with its key. *)
Lemma foldl_appendNew_key ds xs d :
  d ∈ ds → entryKey d ∈ entryKey <$> foldl appendNew xs ds.
Proof.
  revert xs. induction ds as [|d' ds IH]; intros xs Hd; [by apply elem_of_nil in Hd|].
  simpl. apply elem_of_cons in Hd as [->|Hd].
  - apply foldl_appendNew_keeps_key, appendNew_has_key.
  - by apply IH.
Qed.

Lemma filter_appendNew (P : A → Prop) `{∀ x, Decision (P x)} xs d :
  ¬ P d → filter P (appendNew xs d) = filter P xs.
Proof.
  intros Hd. unfold appendNew. destruct (existsb (collides d) xs); [done|].
  rewrite filter_app, filter_cons, decide_False by done.
  by rewrite filter_nil, app_nil_r.
Qed.

Lemma filter_foldl_appendNew (P : A → Prop) `{∀ x, Decision (P x)} ds xs :
  Forall (λ d, ¬ P d) ds → filter P (foldl appendNew xs ds) = filter P xs.
Proof.
  revert xs. induction ds as [|d ds IH]; intros xs Hds; [done|].
  apply Forall_cons in Hds as [Hd Hds]. simpl.
  by rewrite IH, filter_appendNew.
Qed.

Lemma pruneMap_keyedByName rel m : keyedByName m → keyedByName (pruneMap rel m).
Proof.
  intros Hm n ys (xs & Hl & ->)%lookup_pruneMap_Some.
  apply Forall_forall. intros e [_ He]%list_elem_of_filter.
  specialize (Hm n xs Hl). rewrite Forall_forall in Hm. by apply Hm.
Qed.

Lemma addEntry_keyedByName m d : keyedByName m → keyedByName (addEntry m d).
Proof.
  intros Hm n xs [Hold | (-> & -> & _)]%lookup_addEntry_Some; [by eapply Hm|].
  apply Forall_app. split; [|by apply Forall_singleton].
  unfold bucket. destruct (m !! name d) eqn:Hl; [by eapply Hm | constructor].
Qed.

Lemma addEntries_keyedByName ds m : keyedByName m → keyedByName (addEntries m ds).
Proof.
  intros Hm. unfold addEntries. apply (foldl_preserves keyedByName); [done|].
  intros m' d Hm'. by apply addEntry_keyedByName.
Qed.

Lemma keyedByName_empty : keyedByName (∅ : gmap string (list A)).
Proof. intros n xs. by rewrite lookup_empty. Qed.

Lemma noEmptyBucket_empty : noEmptyBucket (∅ : gmap string (list A)).
Proof. intros n. by rewrite lookup_empty. Qed.

Lemma filesCovered_bucket m (S : gset string) :
  filesCovered m S ↔ ∀ n, Forall (λ e, file e ∈ S) (bucket m n).
Proof. unfold filesCovered. by rewrite bucket_Forall_lookup. Qed.

End BucketExtra.

(** Claim C9. With the root [/work/proj], a save of [/work/proj2/A.cls], a
    file of a sibling directory and not below the root, passes the
    [startsWith] test of [handleFileSave] and is indexed: its old entries are
    removed, what the extractor returns is inserted, and its path relative to
    the root joins the indexed-file set. Every returned definition and
    reference is then represented in the bucket of its name by an entry with
    its file and start position, and the entries of the file in the store are
    entries the extractor returned. *)
Theorem handleFileSave_accepts_sibling_directory st uri defs refs :
  projectRoot st = Some "/work/proj" →
  uriToPath uri = Some "/work/proj2/A.cls" →
  parseFile "/work/proj2/A.cls" "/work/proj" = Returned (defs, refs) →
  let rel := relative "/work/proj" "/work/proj2/A.cls" in
  startsWith "/work/proj2/A.cls" "/work/proj/" = false
  ∧ startsWith "/work/proj2/A.cls" "/work/proj" = true
  ∧ handleFileSave st uri = indexFile st "/work/proj2/A.cls"
  ∧ rel ∈ filesIndexed (handleFileSave st uri)
  ∧ definitions (handleFileSave st uri)
    = addEntries (pruneMap rel (definitions st)) defs
  ∧ references (handleFileSave st uri)
    = addEntries (pruneMap rel (references st)) refs
  ∧ (∀ d, d ∈ defs →
       ∃ e, e ∈ bucket (definitions (handleFileSave st uri)) (name d)
            ∧ entryKey e = entryKey d)
  ∧ (∀ r, r ∈ refs →
       ∃ e, e ∈ bucket (references (handleFileSave st uri)) (name r)
            ∧ entryKey e = entryKey r)
  ∧ (∀ n d, d ∈ bucket (definitions (handleFileSave st uri)) n → file d = rel →
       d ∈ defs)
  ∧ (∀ n r, r ∈ bucket (references (handleFileSave st uri)) n → file r = rel →
       r ∈ refs).
Proof.
  intros Hroot Huri Hparse rel.
  assert (handleFileSave st uri = indexFile st "/work/proj2/A.cls") as Hsave.
  { by rewrite (handleFileSave_prefix_test st uri _ _ Huri Hroot). }
  assert (knownRoot st = Some "/work/proj") as Hknown.
  { unfold knownRoot. by rewrite Hroot. }
  assert (extractedDefs "/work/proj" "/work/proj2/A.cls" = defs) as Hdefs
    by (unfold extractedDefs; by rewrite Hparse).
  assert (extractedRefs "/work/proj" "/work/proj2/A.cls" = refs) as Hrefs
    by (unfold extractedRefs; by rewrite Hparse).
  rewrite Hsave. split_and!; try done.
  - unfold indexFile. rewrite Hknown, afterParse_cases, Hparse. simpl. path_sets.
  - unfold indexFile. by rewrite Hknown, afterParse_cases, Hparse.
  - unfold indexFile. by rewrite Hknown, afterParse_cases, Hparse.
  - intros d Hd.
    rewrite (bucket_definitions_indexFile st "/work/proj") by done. rewrite Hdefs.
    assert (d ∈ filter (λ e, name e = name d) defs) as Hin
      by by apply list_elem_of_filter.
    apply (foldl_appendNew_key _
             (filter (λ e, file e ≠ rel) (bucket (definitions st) (name d)))) in Hin.
    apply list_elem_of_fmap in Hin as (e & Hkey & He). by exists e.
  - intros r Hr.
    rewrite (bucket_references_indexFile st "/work/proj") by done. rewrite Hrefs.
    assert (r ∈ filter (λ e, name e = name r) refs) as Hin
      by by apply list_elem_of_filter.
    apply (foldl_appendNew_key _
             (filter (λ e, file e ≠ rel) (bucket (references st) (name r)))) in Hin.
    apply list_elem_of_fmap in Hin as (e & Hkey & He). by exists e.
  - intros n d Hin Hfile.
    rewrite (bucket_definitions_indexFile st "/work/proj") in Hin by done.
    rewrite Hdefs in Hin.
    apply elem_of_foldl_appendNew in Hin as [Hold | Hnew].
    + by apply list_elem_of_filter in Hold as [? _].
    + by apply list_elem_of_filter in Hnew as [_ ?].
  - intros n r Hin Hfile.
    rewrite (bucket_references_indexFile st "/work/proj") in Hin by done.
    rewrite Hrefs in Hin.
    apply elem_of_foldl_appendNew in Hin as [Hold | Hnew].
    + by apply list_elem_of_filter in Hold as [? _].
    + by apply list_elem_of_filter in Hnew as [_ ?].
Qed.

Lemma State_eq (st1 st2 : State) :
  definitions st1 = definitions st2 → references st1 = references st2 →
  filesIndexed st1 = filesIndexed st2 → projectRoot st1 = projectRoot st2 →
  isIndexing st1 = isIndexing st2 → st1 = st2.
Proof. destruct st1, st2. simpl. by intros -> -> -> -> ->. Qed.

Lemma indexFile_noEmptyBucket st root f :
  knownRoot st = Some root →
  noEmptyBucket (definitions (indexFile st f))
  ∧ noEmptyBucket (references (indexFile st f)).
Proof.
  intros Hroot. unfold indexFile. rewrite Hroot, afterParse_cases.
  destruct (parseFile f root); simpl; split;
    try apply addEntries_noEmptyBucket; apply pruneMap_noEmptyBucket.
Qed.

(** X1. Removing a file's data twice is the same as removing it once, and
    the removals of two files can be done in either order. After a removal
    no stored entry names the file and it is not in the indexed-file set. *)
Theorem removeDataForFile_idempotent_commutes st a b :
  removeDataForFile (removeDataForFile st a) a = removeDataForFile st a
  ∧ removeDataForFile (removeDataForFile st a) b
    = removeDataForFile (removeDataForFile st b) a
  ∧ (a ∉ filesIndexed (removeDataForFile st a))
  ∧ (∀ n, Forall (λ d, file d ≠ a) (bucket (definitions (removeDataForFile st a)) n))
  ∧ (∀ n, Forall (λ r, file r ≠ a) (bucket (references (removeDataForFile st a)) n)).
Proof.
  split_and!.
  - apply State_eq; simpl; try done; try apply pruneMap_idempotent. path_sets.
  - apply State_eq; simpl; try done; try apply pruneMap_commute. path_sets.
  - simpl. path_sets.
  - intros n. simpl. rewrite bucket_pruneMap. apply Forall_forall.
    by intros d [? _]%list_elem_of_filter.
  - intros n. simpl. rewrite bucket_pruneMap. apply Forall_forall.
    by intros d [? _]%list_elem_of_filter.
Qed.

(** X2. A rebuild forgets what was stored: from an idle service with a
    known root its result depends on the stored root alone. It leaves the
    service idle with the same root, and a second rebuild right after it gives
    the same store. *)
Theorem runFullIndex_depends_on_root_only st1 st2 root :
  knownRoot st1 = Some root →
  isIndexing st1 = false → isIndexing st2 = false →
  projectRoot st1 = projectRoot st2 →
  runFullIndex st1 = runFullIndex st2
  ∧ isIndexing (runFullIndex st1) = false
  ∧ projectRoot (runFullIndex st1) = projectRoot st1
  ∧ runFullIndex (runFullIndex st1) = runFullIndex st1.
Proof.
  intros Hknown Hidle1 Hidle2 Hroot.
  assert (∀ sa sb, knownRoot sa = Some root →
                   isIndexing sa = false → isIndexing sb = false →
                   projectRoot sa = projectRoot sb →
                   runFullIndex sa = runFullIndex sb) as Hsame.
  { intros sa sb Hk Ha Hb Hr.
    assert (knownRoot sb = Some root) as Hk' by (unfold knownRoot in *; by rewrite <- Hr).
    rewrite (runFullIndex_started sa root), (runFullIndex_started sb root) by done.
    assert (clearIndex (setIndexing true sa) = clearIndex (setIndexing true sb)) as ->;
      [|done].
    unfold clearIndex, setIndexing. simpl. by rewrite Hr. }
  assert (∀ gs s, projectRoot (indexFiles s gs) = projectRoot s) as Hloop.
  { induction gs as [|g gs IH]; intros s; [done|].
    simpl. by rewrite IH, projectRoot_indexFile. }
  assert (isIndexing (runFullIndex st1) = false) as Hflag.
  { rewrite (runFullIndex_started st1 root) by done. by destruct (glob root). }
  assert (projectRoot (runFullIndex st1) = projectRoot st1) as Hkeep.
  { rewrite (runFullIndex_started st1 root) by done.
    destruct (glob root); simpl; [|done]. by rewrite Hloop. }
  split_and!; [by apply Hsame | done | done |].
  apply Hsame; try done. unfold knownRoot in *. by rewrite Hkeep.
Qed.

(** X3. While no root is known (none stored, or the empty string), a
    rebuild, the indexing of a file and a save notification all leave the
    service exactly as it was, and a rebuild request suspends nothing. *)
Theorem no_root_no_operation st :
  knownRoot st = None →
  runFullIndex st = st
  ∧ (∀ f, indexFile st f = st)
  ∧ (∀ uri, handleFileSave st uri = st)
  ∧ (∀ tasks, step (st, tasks) RebuildRequest = (st, tasks))
  ∧ knownRoot (setProjectRoot "" st) = None.
Proof.
  intros Hnone. split_and!.
  - unfold runFullIndex. by rewrite Hnone.
  - intros f. unfold indexFile. by rewrite Hnone.
  - intros uri. unfold handleFileSave.
    destruct (uriToPath uri) as [p|]; [|done].
    unfold knownRoot in Hnone.
    destruct (projectRoot st) as [root|]; [|done].
    destruct (truthy root); [done|]. by rewrite andb_false_r.
  - intros tasks. unfold step, startRebuild. simpl. by rewrite Hnone.
  - done.
Qed.

Lemma wellFormed_indexFile st f : wellFormed st → wellFormed (indexFile st f).
Proof.
  intros (Hd & Hr & Hkd & Hkr).
  destruct (knownRoot st) as [root|] eqn:Hroot;
    [|unfold indexFile; rewrite Hroot; by split_and!].
  destruct (indexFile_noEmptyBucket st root f Hroot) as [Hnd Hnr].
  split_and!; [done..| |];
    unfold indexFile; rewrite Hroot, afterParse_cases;
    destruct (parseFile f root); simpl;
    try apply addEntries_keyedByName; by apply pruneMap_keyedByName.
Qed.

Lemma wellFormed_indexFiles fs st : wellFormed st → wellFormed (indexFiles st fs).
Proof.
  intros Hst. apply (foldl_preserves wellFormed); [done|].
  intros. by apply wellFormed_indexFile.
Qed.

Lemma wellFormed_runFullIndex st : wellFormed st → wellFormed (runFullIndex st).
Proof.
  intros Hst. unfold runFullIndex.
  destruct (knownRoot st) as [root|]; [|done].
  destruct (isIndexing st); [done|].
  assert (wellFormed (clearIndex (setIndexing true st))) as Hclear.
  { split_and!; simpl;
      first [apply noEmptyBucket_empty | apply keyedByName_empty]. }
  destruct (glob root) as [[|f fs]|]; try exact Hclear.
  by apply (wellFormed_indexFiles (f :: fs)) in Hclear.
Qed.

Lemma wellFormed_handle st r : wellFormed st → wellFormed (handle st r).
Proof.
  intros Hst. destruct r as [uri| |f|uri]; simpl.
  - unfold initialize. destruct (uriToPath uri) as [p|]; [|done].
    destruct (truthy p); [|done]. by apply wellFormed_runFullIndex.
  - by apply wellFormed_runFullIndex.
  - by apply wellFormed_indexFile.
  - unfold handleFileSave. destruct (uriToPath uri) as [p|]; [|done].
    destruct (projectRoot st); [|done]. destruct (_ && _); [|done].
    destruct (isApexSource p); [|done]. by apply wellFormed_indexFile.
Qed.

Lemma filter_all_length {X : Type} (P : X → Prop) `{∀ x, Decision (P x)}
    (xs : list X) :
  Forall P xs → filter P xs = xs.
Proof.
  induction 1 as [|x xs Hx _ IH]; [done|].
  by rewrite filter_cons, decide_True, IH.
Qed.

Lemma bucket_nil_iff {A : Type} `{Located A} (m : gmap string (list A)) n :
  noEmptyBucket m → bucket m n = [] ↔ m !! n = None.
Proof.
  intros Hne. specialize (Hne n). unfold bucket.
  destruct (m !! n) as [[|x xs]|]; simpl; split; congruence.
Qed.

Lemma collectLocations_length {A : Type} `{Located A} st root uri (xs : list A) :
  knownRoot st = Some root →
  length (collectLocations st uri xs)
  = length (filter (λ e, inProtocolRange (range e) = true) xs).
Proof.
  intros Hroot. rewrite (collectLocations_known st root) by done.
  apply omap_lspLocationOf_length.
Qed.

Lemma collectLocations_nil_iff {A : Type} `{Located A} st root uri (xs : list A) :
  knownRoot st = Some root →
  Forall (λ e, inProtocolRange (range e) = true) xs →
  collectLocations st uri xs = [] ↔ xs = [].
Proof.
  intros Hroot Hall. split; [|by intros ->].
  intros Hnil. apply (f_equal length) in Hnil.
  rewrite (collectLocations_length st root), filter_all_length in Hnil by done.
  by destruct xs.
Qed.

(** X4. In every state the service reaches from a new one, whatever the
    server calls, no key is bound to an empty list and every entry sits under
    its own name. Once the root is known, a lookup never returns more
    locations than the bucket has entries; and for a bucket whose ranges
    [Range.create] accepts it returns exactly as many, so that it returns the
    empty list exactly for the names that are not keys. *)
Theorem reachable_store_is_well_formed (requests : list Request) :
  let st := foldl handle newService requests in
  wellFormed st
  ∧ (∀ root n uri, knownRoot st = Some root →
       (length (findDefinitions st n uri) ≤ length (bucket (definitions st) n))%nat
       ∧ (length (findReferences st n uri) ≤ length (bucket (references st) n))%nat
       ∧ (Forall (λ d, inProtocolRange (range d) = true) (bucket (definitions st) n) →
          (findDefinitions st n uri = [] ↔ definitions st !! n = None)
          ∧ length (findDefinitions st n uri) = length (bucket (definitions st) n))
       ∧ (Forall (λ r, inProtocolRange (range r) = true) (bucket (references st) n) →
          (findReferences st n uri = [] ↔ references st !! n = None)
          ∧ length (findReferences st n uri) = length (bucket (references st) n))).
Proof.
  intros st.
  assert (wellFormed st) as Hwf.
  { apply (foldl_preserves wellFormed).
    - split_and!; simpl; first [apply noEmptyBucket_empty | apply keyedByName_empty].
    - intros. by apply wellFormed_handle. }
  split; [done|]. destruct Hwf as (Hd & Hr & _ & _).
  intros root n uri Hroot. unfold findDefinitions, findReferences.
  change (default [] (definitions st !! n)) with (bucket (definitions st) n).
  change (default [] (references st !! n)) with (bucket (references st) n).
  split_and!.
  - rewrite (collectLocations_length st root) by done. apply length_filter.
  - rewrite (collectLocations_length st root) by done. apply length_filter.
  - intros Hall. split.
    + by rewrite (collectLocations_nil_iff st root), bucket_nil_iff.
    + by rewrite (collectLocations_length st root), filter_all_length.
  - intros Hall. split.
    + by rewrite (collectLocations_nil_iff st root), bucket_nil_iff.
    + by rewrite (collectLocations_length st root), filter_all_length.
Qed.

Lemma lspLocationOf_same_key {A : Type} `{Located A} root (d e : A) :
  entryKey e = entryKey d → inProtocolRange (range e) = true →
  ∃ loc, lspLocationOf root e = Some loc
         ∧ Lsp.uri loc = fileUriOf (resolve root (file d))
         ∧ Lsp.start (Lsp.range loc) = toLspPosition (start (range d)).
Proof.
  unfold entryKey. intros [= Hf Hl Hc] Hin.
  rewrite lspLocationOf_cases, Hin. eexists. split; [done|].
  unfold toLspPosition. simpl. by rewrite Hf, Hl, Hc.
Qed.

Lemma indexed_entry_is_found {A : Type} `{Located A} st root uri rel
    (xs news : list A) (d : A) :
  knownRoot st = Some root → d ∈ news →
  Forall (λ e, file e ≠ rel) xs →
  Forall (λ e, file e = rel ∧ inProtocolRange (range e) = true) news →
  ∃ loc, loc ∈ collectLocations st uri
                 (foldl appendNew xs (filter (λ e, name e = name d) news))
         ∧ Lsp.uri loc = fileUriOf (resolve root (file d))
         ∧ Lsp.start (Lsp.range loc) = toLspPosition (start (range d)).
Proof.
  intros Hroot Hd Hold Hnew.
  assert (d ∈ filter (λ e, name e = name d) news) as Hin
    by by apply list_elem_of_filter.
  apply (foldl_appendNew_key _ xs) in Hin.
  apply list_elem_of_fmap in Hin as (e & Hkey & He).
  assert (file e = rel) as Hfile.
  { pose proof (proj1 (Forall_forall _ _) Hnew d Hd) as [Hrel _].
    unfold entryKey in Hkey. injection Hkey as Hf _ _. congruence. }
  assert (inProtocolRange (range e) = true) as Hfits.
  { apply elem_of_foldl_appendNew in He as [He | He].
    - by destruct (proj1 (Forall_forall _ _) Hold e He).
    - apply list_elem_of_filter in He as [_ He].
      by destruct (proj1 (Forall_forall _ _) Hnew e He). }
  destruct (lspLocationOf_same_key root d e (eq_sym Hkey) Hfits)
    as (loc & Hloc & Huri & Hstart).
  exists loc. split; [|done].
  rewrite (collectLocations_known st root) by done.
  apply list_elem_of_omap. by exists e.
Qed.

(** X5. What is indexed can be looked up: when the extractor labels what it
    returns with the file's relative path and reports ranges [Range.create]
    accepts, then after [indexFile] every definition it returned is answered
    by [findDefinitions] under its name, by a location with the URI of its
    file and its 0-based start position, and likewise every reference by
    [findReferences]. *)
Theorem indexFile_then_lookup st root f defs refs uri :
  knownRoot st = Some root →
  parseFile f root = Returned (defs, refs) →
  Forall (λ d, file d = relative root f ∧ inProtocolRange (range d) = true) defs →
  Forall (λ r, file r = relative root f ∧ inProtocolRange (range r) = true) refs →
  (∀ d, d ∈ defs →
     ∃ loc, loc ∈ findDefinitions (indexFile st f) (name d) uri
            ∧ Lsp.uri loc = fileUriOf (resolve root (file d))
            ∧ Lsp.start (Lsp.range loc) = toLspPosition (start (range d)))
  ∧ (∀ r, r ∈ refs →
     ∃ loc, loc ∈ findReferences (indexFile st f) (name r) uri
            ∧ Lsp.uri loc = fileUriOf (resolve root (file r))
            ∧ Lsp.start (Lsp.range loc) = toLspPosition (start (range r))).
Proof.
  intros Hroot Hparse Hdefs Hrefs.
  assert (knownRoot (indexFile st f) = Some root) as Hroot'
    by by rewrite knownRoot_indexFile.
  unfold findDefinitions, findReferences. split.
  - intros d Hd.
    change (default [] (definitions (indexFile st f) !! name d))
      with (bucket (definitions (indexFile st f)) (name d)).
    rewrite (bucket_definitions_indexFile st root) by done.
    apply (indexed_entry_is_found _ root _ (relative root f)); [done| | |].
    + unfold extractedDefs. by rewrite Hparse.
    + apply Forall_forall. by intros e [? _]%list_elem_of_filter.
    + unfold extractedDefs. by rewrite Hparse.
  - intros r Hr.
    change (default [] (references (indexFile st f) !! name r))
      with (bucket (references (indexFile st f)) (name r)).
    rewrite (bucket_references_indexFile st root) by done.
    apply (indexed_entry_is_found _ root _ (relative root f)); [done| | |].
    + unfold extractedRefs. by rewrite Hparse.
    + apply Forall_forall. by intros e [? _]%list_elem_of_filter.
    + unfold extractedRefs. by rewrite Hparse.
Qed.

(** *** With an extractor that labels its entries with the file's own path *)

Lemma labelled_defsNamed root n f :
  labelsEntries →
  Forall (λ d : Definition_, ¬ file d ≠ relative root f)
    (filter (λ d, name d = n) (extractedDefs root f)).
Proof.
  intros Hlab. destruct (Hlab root f) as [Hd _].
  apply Forall_forall. intros d [_ Hin]%list_elem_of_filter Hne.
  rewrite Forall_forall in Hd. by apply Hne, Hd.
Qed.

Lemma labelled_refsNamed root n f :
  labelsEntries →
  Forall (λ r : Reference, ¬ file r ≠ relative root f)
    (filter (λ r, name r = n) (extractedRefs root f)).
Proof.
  intros Hlab. destruct (Hlab root f) as [_ Hr].
  apply Forall_forall. intros r [_ Hin]%list_elem_of_filter Hne.
  rewrite Forall_forall in Hr. by apply Hne, Hr.
Qed.

(** The entries of the other files, before and after [indexFile]. *)
Lemma indexFile_others_definitions st root f n :
  labelsEntries → knownRoot st = Some root →
  filter (λ d, file d ≠ relative root f) (bucket (definitions (indexFile st f)) n)
  = filter (λ d, file d ≠ relative root f) (bucket (definitions st) n).
Proof.
  intros Hlab Hroot. rewrite (bucket_definitions_indexFile st root) by done.
  rewrite filter_foldl_appendNew by by apply labelled_defsNamed.
  apply list_filter_filter_l. done.
Qed.

Lemma indexFile_others_references st root f n :
  labelsEntries → knownRoot st = Some root →
  filter (λ r, file r ≠ relative root f) (bucket (references (indexFile st f)) n)
  = filter (λ r, file r ≠ relative root f) (bucket (references st) n).
Proof.
  intros Hlab Hroot. rewrite (bucket_references_indexFile st root) by done.
  rewrite filter_foldl_appendNew by by apply labelled_refsNamed.
  apply list_filter_filter_l. done.
Qed.

Lemma indexFile_twice st f :
  labelsEntries → indexFile (indexFile st f) f = indexFile st f.
Proof.
  intros Hlab.
  destruct (knownRoot st) as [root|] eqn:Hroot.
  2:{ assert (indexFile st f = st) as Hsame
        by (unfold indexFile; by rewrite Hroot).
      by rewrite !Hsame. }
  assert (knownRoot (indexFile st f) = Some root) as Hroot'
    by by rewrite knownRoot_indexFile.
  destruct (indexFile_noEmptyBucket st root f Hroot) as [Hd1 Hr1].
  destruct (indexFile_noEmptyBucket _ root f Hroot') as [Hd2 Hr2].
  apply State_eq.
  - apply map_eq_buckets; [done..|]. intros n.
    rewrite (bucket_definitions_indexFile (indexFile st f) root) by done.
    rewrite (indexFile_others_definitions st root) by done.
    by rewrite <- (bucket_definitions_indexFile st root).
  - apply map_eq_buckets; [done..|]. intros n.
    rewrite (bucket_references_indexFile (indexFile st f) root) by done.
    rewrite (indexFile_others_references st root) by done.
    by rewrite <- (bucket_references_indexFile st root).
  - rewrite (filesIndexed_indexFile (indexFile st f) root) by done.
    rewrite (filesIndexed_indexFile st root) by done.
    destruct (decide (extractorRejects root f)); path_sets.
  - by rewrite !projectRoot_indexFile.
  - by rewrite !isIndexing_indexFile.
Qed.

Lemma filesIndexed_indexFile_other st root f r :
  knownRoot st = Some root → r ≠ relative root f →
  r ∈ filesIndexed (indexFile st f) ↔ r ∈ filesIndexed st.
Proof.
  intros Hroot Hne. rewrite (filesIndexed_indexFile st root) by done.
  destruct (decide (extractorRejects root f)); path_sets.
Qed.

Lemma indexedFilesCover_indexFile st f :
  labelsEntries → indexedFilesCover st → indexedFilesCover (indexFile st f).
Proof.
  intros Hlab [Hd Hr].
  destruct (knownRoot st) as [root|] eqn:Hroot;
    [|unfold indexFile; by rewrite Hroot].
  pose proof (proj1 (filesCovered_bucket _ _) Hd) as Hd'.
  pose proof (proj1 (filesCovered_bucket _ _) Hr) as Hr'.
  clear Hd Hr. rename Hd' into Hd, Hr' into Hr.
  destruct (Hlab root f) as [Hld Hlr].
  split; apply (proj2 (filesCovered_bucket _ _)); intros n; apply Forall_forall;
    intros e He.
  - rewrite (bucket_definitions_indexFile st root) in He by done.
    apply elem_of_foldl_appendNew in He as [[Hne Hin]%list_elem_of_filter | [_ Hin]%list_elem_of_filter].
    + apply (filesIndexed_indexFile_other st root); [done..|].
      specialize (Hd n). rewrite Forall_forall in Hd. by apply Hd.
    + rewrite Forall_forall in Hld. rewrite (Hld e Hin).
      rewrite (filesIndexed_indexFile st root) by done.
      unfold extractedDefs in Hin.
      destruct (decide (extractorRejects root f)) as [Hf|Hf]; [|path_sets].
      unfold extractorRejects in Hf.
      destruct (parseFile f root); [done | by apply elem_of_nil in Hin].
  - rewrite (bucket_references_indexFile st root) in He by done.
    apply elem_of_foldl_appendNew in He as [[Hne Hin]%list_elem_of_filter | [_ Hin]%list_elem_of_filter].
    + apply (filesIndexed_indexFile_other st root); [done..|].
      specialize (Hr n). rewrite Forall_forall in Hr. by apply Hr.
    + rewrite Forall_forall in Hlr. rewrite (Hlr e Hin).
      rewrite (filesIndexed_indexFile st root) by done.
      unfold extractedRefs in Hin.
      destruct (decide (extractorRejects root f)) as [Hf|Hf]; [|path_sets].
      unfold extractorRejects in Hf.
      destruct (parseFile f root); [done | by apply elem_of_nil in Hin].
Qed.

Lemma indexedFilesCover_runFullIndex st :
  labelsEntries → indexedFilesCover st → indexedFilesCover (runFullIndex st).
Proof.
  intros Hlab Hst. unfold runFullIndex.
  destruct (knownRoot st) as [root|]; [|done].
  destruct (isIndexing st); [done|].
  assert (indexedFilesCover (clearIndex (setIndexing true st))) as Hclear.
  { split; intros n xs; simpl; by rewrite lookup_empty. }
  destruct (glob root) as [files|]; [|exact Hclear].
  assert (indexedFilesCover (indexFiles (clearIndex (setIndexing true st)) files))
    as Hloop.
  { apply (foldl_preserves indexedFilesCover); [done|].
    intros. by apply indexedFilesCover_indexFile. }
  by destruct files.
Qed.

Lemma indexedFilesCover_handle st r :
  labelsEntries → indexedFilesCover st → indexedFilesCover (handle st r).
Proof.
  intros Hlab Hst. destruct r as [uri| |f|uri]; simpl.
  - unfold initialize. destruct (uriToPath uri) as [p|]; [|done].
    destruct (truthy p); [|done]. by apply indexedFilesCover_runFullIndex.
  - by apply indexedFilesCover_runFullIndex.
  - by apply indexedFilesCover_indexFile.
  - unfold handleFileSave. destruct (uriToPath uri) as [p|]; [|done].
    destruct (projectRoot st); [|done]. destruct (_ && _); [|done].
    destruct (isApexSource p); [|done]. by apply indexedFilesCover_indexFile.
Qed.

Lemma indexedFilesCover_reachable (requests : list Request) :
  labelsEntries → indexedFilesCover (foldl handle newService requests).
Proof.
  intros Hlab. apply (foldl_preserves indexedFilesCover).
  - split; intros n xs; simpl; by rewrite lookup_empty.
  - intros. by apply indexedFilesCover_handle.
Qed.

(** *** Paths and URIs as strings *)

Lemma string_app_cons (c : ascii) (s t : string) :
  String c s +:+ t = String c (s +:+ t).
Proof. done. Qed.

Lemma string_app_nil_l (t : string) : "" +:+ t = t.
Proof. done. Qed.

Lemma string_length_app (s t : string) :
  String.length (s +:+ t) = String.length s + String.length t.
Proof.
  induction s as [|c s IH]; [done|].
  rewrite string_app_cons. simpl. by rewrite IH.
Qed.

Lemma string_app_nil_r (s : string) : s +:+ "" = s.
Proof.
  induction s as [|c s IH]; [done|]. by rewrite string_app_cons, IH.
Qed.

Lemma string_app_assoc (s t u : string) : (s +:+ t) +:+ u = s +:+ (t +:+ u).
Proof.
  induction s as [|c s IH]; [done|]. by rewrite !string_app_cons, IH.
Qed.

Lemma startsWith_iff (s p : string) :
  startsWith s p = true ↔ ∃ rest, s = p +:+ rest.
Proof.
  unfold startsWith. revert s. induction p as [|c p IH]; intros s.
  - simpl. destruct s; split; eauto.
  - destruct s as [|d s]; simpl; [split; [done | by intros [rest ?]]|].
    destruct (ascii_dec c d) as [->|Hne].
    + rewrite IH. split; intros [rest Hrest]; exists rest.
      * by rewrite string_app_cons, Hrest.
      * rewrite string_app_cons in Hrest. congruence.
    + split; [done | intros [rest Hrest]].
      rewrite string_app_cons in Hrest. congruence.
Qed.

Lemma substring_all (s : string) : substring 0 (String.length s) s = s.
Proof. induction s as [|c s IH]; simpl; [done | by rewrite IH]. Qed.

Lemma substring_after (stem suffix : string) :
  substring (String.length stem) (String.length suffix) (stem +:+ suffix) = suffix.
Proof.
  induction stem as [|c stem IH]; [apply substring_all|].
  rewrite string_app_cons. exact IH.
Qed.

Lemma substring_split (s : string) (n : nat) :
  (n ≤ String.length s)%nat →
  s = substring 0 n s +:+ substring n (String.length s - n) s.
Proof.
  revert n. induction s as [|c s IH]; intros n Hn; simpl in *.
  - by destruct n.
  - destruct n as [|n]; simpl.
    + by rewrite substring_all.
    + rewrite string_app_cons. f_equal. apply IH. lia.
Qed.

Lemma endsWith_iff (s suffix : string) :
  endsWith s suffix = true ↔ ∃ stem, s = stem +:+ suffix.
Proof.
  unfold endsWith. rewrite andb_true_iff, Nat.leb_le, String.eqb_eq. split.
  - intros [Hle Hsub].
    exists (substring 0 (String.length s - String.length suffix) s).
    etrans; [apply (substring_split s (String.length s - String.length suffix)); lia|].
    f_equal.
    replace (String.length s - (String.length s - String.length suffix))
      with (String.length suffix) by lia.
    exact Hsub.
  - intros [stem ->]. rewrite string_length_app. split; [lia|].
    replace (String.length stem + String.length suffix - String.length suffix)
      with (String.length stem) by lia.
    apply substring_after.
Qed.

Lemma isApexSource_iff (p : string) :
  isApexSource p = true ↔
  ∃ stem, p = stem +:+ ".cls" ∨ p = stem +:+ ".trigger" ∨ p = stem +:+ ".apex".
Proof.
  unfold isApexSource. rewrite !orb_true_iff, !endsWith_iff. split.
  - intros [[[stem ->] | [stem ->]] | [stem ->]]; exists stem; auto.
  - intros [stem [-> | [-> | ->]]]; eauto.
Qed.

Lemma truthy_app (s t : string) : truthy s = true → truthy (s +:+ t) = true.
Proof. by destruct s. Qed.

(** X6. A save notification re-indexes the saved file exactly when its URI
    converts to a path that begins with the stored root and ends in [.cls],
    [.trigger] or [.apex]; a URI that is not a [file://] URI or does not
    convert, a path with another ending, and a path that does not begin with
    the root all leave the service unchanged. *)
Theorem handleFileSave_decision st uri :
  (∀ p root rest stem,
     uriToPath uri = Some p → knownRoot st = Some root → p = root +:+ rest →
     p = stem +:+ ".cls" ∨ p = stem +:+ ".trigger" ∨ p = stem +:+ ".apex" →
     handleFileSave st uri = indexFile st p)
  ∧ (startsWith uri "file://" = false → handleFileSave st uri = st)
  ∧ (throws (fileURLToPath uri) = true → handleFileSave st uri = st)
  ∧ (∀ p, uriToPath uri = Some p →
       (∀ stem, p ≠ stem +:+ ".cls" ∧ p ≠ stem +:+ ".trigger" ∧ p ≠ stem +:+ ".apex") →
       handleFileSave st uri = st)
  ∧ (∀ p root, uriToPath uri = Some p → projectRoot st = Some root →
       (∀ rest, p ≠ root +:+ rest) → handleFileSave st uri = st).
Proof.
  split_and!.
  - intros p root rest stem Huri Hroot Hprefix Hsuffix.
    assert (projectRoot st = Some root ∧ truthy root = true) as [Hstored Htruthy].
    { unfold knownRoot in Hroot. destruct (projectRoot st) as [r|]; [|done].
      destruct (truthy r) eqn:Hr; [|done]. by injection Hroot as ->. }
    rewrite (handleFileSave_prefix_test st uri p root) by done.
    assert (truthy p = true) as -> by (rewrite Hprefix; by apply truthy_app).
    assert (String.prefix root p = true) as ->
      by (apply (startsWith_iff p root); eauto).
    assert (isApexSource p = true) as -> by (apply isApexSource_iff; eauto).
    by rewrite Htruthy.
  - intros Hscheme. unfold handleFileSave, uriToPath. by rewrite Hscheme.
  - intros Hthrows. unfold handleFileSave, uriToPath.
    destruct (negb _); [done|]. by destruct (fileURLToPath uri).
  - intros p Huri Hnone. unfold handleFileSave. rewrite Huri.
    destruct (projectRoot st); [|done]. destruct (_ && _); [|done].
    destruct (isApexSource p) eqn:Hapex; [|done].
    apply isApexSource_iff in Hapex as [stem Hstem].
    destruct (Hnone stem) as (? & ? & ?). by destruct Hstem as [?|[?|?]].
  - intros p root Huri Hroot Hnone. unfold handleFileSave. rewrite Huri, Hroot.
    destruct (startsWith p root) eqn:Hpre; [|by rewrite andb_false_r].
    apply startsWith_iff in Hpre as [rest Hrest]. by destruct (Hnone rest).
Qed.

Lemma slashes_length (s : string) : String.length (slashes s) = String.length s.
Proof. induction s as [|c s IH]; simpl; [done | by rewrite IH]. Qed.

Lemma slashes_get (s : string) (i : nat) : String.get i (slashes s) ≠ Some "\"%char.
Proof.
  revert i. induction s as [|c s IH]; intros i; simpl; [done|].
  destruct i as [|i]; [|apply IH].
  destruct (Ascii.eqb c "\"%char) eqn:Hc; [done|].
  intros [= ->]. by rewrite Ascii.eqb_refl in Hc.
Qed.

Lemma slashes_idempotent (s : string) : slashes (slashes s) = slashes s.
Proof.
  induction s as [|c s IH]; simpl; [done|]. rewrite IH. f_equal.
  destruct (Ascii.eqb c "\"%char) eqn:Hc; [done | by rewrite Hc].
Qed.

Lemma slashes_each (s : string) (i : nat) :
  String.get i (slashes s)
  = match String.get i s with
    | Some c => Some (if Ascii.eqb c "\"%char then "/"%char else c)
    | None => None
    end.
Proof.
  revert i. induction s as [|c s IH]; intros i; simpl; [done|].
  destruct (Ascii.eqb c "\"%char) eqn:Hc; destruct i as [|i]; simpl;
    [by rewrite Hc | apply IH | by rewrite Hc | apply IH].
Qed.

(** X7. The URI of a location. Of the path, every backslash is replaced by
    a slash and every other character is kept in its place. The URI always
    begins with [file://]. On Windows it is [file://] and the path when the
    path, after the replacement, begins with a slash, and [file:///] and the
    path otherwise, so that it always begins with [file:///]; elsewhere it is
    [file://] followed by the path. *)
Theorem fileUriOf_shape (absolutePath : string) :
  startsWith (fileUriOf absolutePath) "file://" = true
  ∧ (win32 = true →
     fileUriOf absolutePath
     = (if startsWith (slashes absolutePath) "/" then "file://" else "file:///")
       +:+ slashes absolutePath)
  ∧ (win32 = true → startsWith (fileUriOf absolutePath) "file:///" = true)
  ∧ (win32 = false → fileUriOf absolutePath = "file://" +:+ slashes absolutePath)
  ∧ (startsWith (slashes absolutePath) "/" = true →
     fileUriOf absolutePath = "file://" +:+ slashes absolutePath)
  ∧ String.length (slashes absolutePath) = String.length absolutePath
  ∧ (∀ i, String.get i (slashes absolutePath)
          = match String.get i absolutePath with
            | Some c => Some (if Ascii.eqb c "\"%char then "/"%char else c)
            | None => None
            end)
  ∧ (∀ i, String.get i (slashes absolutePath) ≠ Some "\"%char)
  ∧ slashes (slashes absolutePath) = slashes absolutePath.
Proof.
  unfold fileUriOf.
  assert (startsWith ("file://" +:+ slashes absolutePath) "file://" = true) as H2
    by (apply startsWith_iff; eauto).
  assert (startsWith ("file:///" +:+ slashes absolutePath) "file://" = true) as H3
    by (apply startsWith_iff; by exists ("/" +:+ slashes absolutePath)).
  assert (startsWith ("file://" +:+ slashes absolutePath) "file:///"
          = startsWith (slashes absolutePath) "/") as Hthird by reflexivity.
  split_and!.
  - destruct (_ && _); done.
  - intros ->. rewrite H2, Hthird.
    by destruct (startsWith (slashes absolutePath) "/").
  - intros ->. rewrite H2.
    destruct (startsWith ("file://" +:+ slashes absolutePath) "file:///") eqn:Hthree;
      cbn [negb andb]; [exact Hthree|]. apply startsWith_iff. eauto.
  - by intros ->.
  - intros Hslash. rewrite Hthird, Hslash. by rewrite andb_false_r.
  - apply slashes_length.
  - apply slashes_each.
  - apply slashes_get.
  - apply slashes_idempotent.
Qed.

(** X8. The two translations of a location agree: [indexLocationToLspLocation]
    of utils.ts, given the stored root, returns what the service's own
    [toLspLocation] returns. For a range of safe integers both return a
    location exactly when a non-empty root is stored and [Range.create]
    accepts the range, that is, when its four coordinates lie between 1 and
    2^31; the location then holds the URI of the resolved path and both ends
    moved to 0-based. *)
Theorem location_translations_agree {A : Type} `{Located A} st (loc : A) uri :
  indexLocationToLspLocation loc (projectRoot st) = toLspLocation st loc uri
  ∧ (knownRoot st = None → toLspLocation st loc uri = None)
  ∧ (safeRange (range loc) = true →
     (is_Some (toLspLocation st loc uri)
      ↔ is_Some (knownRoot st) ∧ inProtocolRange (range loc) = true)
     ∧ (∀ root, knownRoot st = Some root →
          toLspLocation st loc uri
          = if inProtocolRange (range loc)
            then Some (Lsp.mkLocation (fileUriOf (resolve root (file loc)))
                         (Lsp.mkRange (toLspPosition (start (range loc)))
                            (toLspPosition (end_ (range loc)))))
            else None))
  ∧ (inProtocolRange (range loc) = true ↔
     (1 ≤ line (start (range loc)) ≤ 2147483648)%Z
     ∧ (1 ≤ column (start (range loc)) ≤ 2147483648)%Z
     ∧ (1 ≤ line (end_ (range loc)) ≤ 2147483648)%Z
     ∧ (1 ≤ column (end_ (range loc)) ≤ 2147483648)%Z).
Proof.
  assert (∀ root, knownRoot st = Some root →
            toLspLocation st loc uri
            = if inProtocolRange (range loc)
              then Some (Lsp.mkLocation (fileUriOf (resolve root (file loc)))
                           (Lsp.mkRange (toLspPosition (start (range loc)))
                              (toLspPosition (end_ (range loc)))))
              else None) as Hknown.
  { intros root Hroot. by rewrite (toLspLocation_known st root), lspLocationOf_cases. }
  split_and!.
  - unfold indexLocationToLspLocation, toLspLocation, knownRoot.
    destruct (projectRoot st) as [root|]; [|done]. by destruct (truthy root).
  - apply toLspLocation_unknown.
  - intros _. split; [|exact Hknown].
    destruct (knownRoot st) as [root|] eqn:Hroot.
    + rewrite (Hknown root eq_refl).
      destruct (inProtocolRange (range loc)); split.
      * eauto.
      * eauto.
      * by intros [? ?].
      * by intros [_ ?].
    + rewrite toLspLocation_unknown by done. split.
      * by intros [? ?].
      * by intros [[? ?] _].
  - apply inProtocolRange_bounds.
Qed.

(** *** The word under the cursor *)

Lemma wordMatches_lower (text : string) (i : nat) :
  Forall (λ m, (i ≤ m.1)%nat) (wordMatches i text).
Proof.
  revert i. induction text as [|c rest IH]; intros i; simpl; [constructor|].
  specialize (IH (S i)).
  assert (Forall (λ m : nat * string, (i ≤ m.1)%nat) (wordMatches (S i) rest)) as Hrest.
  { eapply Forall_impl; [exact IH|]. simpl. lia. }
  destruct (isWordChar c); [|done].
  destruct (wordMatches (S i) rest) as [|[j w] ms]; [by repeat constructor|].
  apply Forall_cons in Hrest as [_ Hms].
  apply Forall_cons in IH as [Hj _]. simpl in Hj.
  destruct (j =? S i)%nat; repeat constructor; simpl; try lia; done.
Qed.

Lemma wordMatches_gap (text : string) (i j : nat) (w : string) ms :
  wordMatches i text = (j, w) :: ms →
  Forall (λ m, (j + String.length w < m.1)%nat) ms.
Proof.
  revert i j w ms. induction text as [|c rest IH]; intros i j w ms; simpl; [done|].
  destruct (isWordChar c); [|apply IH].
  pose proof (wordMatches_lower rest (S i)) as Hlow.
  destruct (wordMatches (S i) rest) as [|[j0 w0] ms0] eqn:Hrest.
  - intros [= <- <- <-]. constructor.
  - specialize (IH (S i) j0 w0 ms0 Hrest).
    apply Forall_cons in Hlow as [Hj0 _]. simpl in Hj0.
    destruct (j0 =? S i)%nat eqn:Hj.
    + apply Nat.eqb_eq in Hj as ->. intros [= <- <- <-].
      eapply Forall_impl; [exact IH|]. simpl. lia.
    + apply Nat.eqb_neq in Hj. intros [= <- <- <-].
      constructor; [simpl; lia|].
      eapply Forall_impl; [exact IH|]. simpl. lia.
Qed.

Lemma wordMatches_head (text : string) (i : nat) :
  startsWithWordChar text = true →
  ∃ w ms, wordMatches i text = (i, w) :: ms.
Proof.
  destruct text as [|c rest]; simpl; [done|]. intros ->.
  destruct (wordMatches (S i) rest) as [|[j w] ms]; [eauto|].
  destruct (j =? S i)%nat; eauto.
Qed.

Lemma wordMatches_after_nonword (text : string) (i : nat) :
  startsWithWordChar text = false →
  Forall (λ m, (i < m.1)%nat) (wordMatches i text).
Proof.
  destruct text as [|c rest]; simpl; [constructor|]. intros ->.
  eapply Forall_impl; [apply wordMatches_lower|]. simpl. lia.
Qed.

Lemma endsWithWordChar_cons (c : ascii) (s : string) :
  endsWithWordChar (String c s)
  = match s with EmptyString => isWordChar c | _ => endsWithWordChar s end.
Proof. by destruct s. Qed.

Lemma string_length_zero (s : string) : String.length s = 0 → s = "".
Proof. by destruct s. Qed.

Lemma startsWithWordChar_app (w after : string) :
  w ≠ "" → allWordChars w = true → startsWithWordChar (w +:+ after) = true.
Proof.
  destruct w as [|c w]; [done|]. intros _. simpl.
  by intros [? _]%andb_true_iff.
Qed.

(** Every result of the scan is a whole word of the text, at its index. *)
Lemma wordMatches_sound (text : string) (i j : nat) (w : string) :
  (j, w) ∈ wordMatches i text →
  ∃ before after, wordAt text before w after ∧ j = i + String.length before.
Proof.
  revert i j w. induction text as [|c rest IH]; intros i j w; simpl;
    [by intros ?%elem_of_nil|].
  destruct (isWordChar c) eqn:Hc.
  2:{ intros (b & a & (Htext & Hw & Hall & Hb & Ha) & ->)%IH.
      exists (String c b), a. split; [|simpl; lia].
      split_and!; try done.
      - by rewrite string_app_cons, Htext.
      - rewrite endsWithWordChar_cons. by destruct b. }
  destruct (wordMatches (S i) rest) as [|[j0 w0] ms] eqn:Hrest.
  - intros [= -> ->]%list_elem_of_singleton.
    exists "", rest. split; [|simpl; lia]. split_and!; try done.
    + simpl. by rewrite Hc.
    + destruct (startsWithWordChar rest) eqn:Hstart; [|done].
      destruct (wordMatches_head rest (S i) Hstart) as (? & ? & ?). congruence.
  - pose proof (wordMatches_gap rest (S i) j0 w0 ms Hrest) as Hgap.
    assert (∀ m, m ∈ ms → m ∈ wordMatches (S i) rest) as Hin
      by (intros m Hm; rewrite Hrest; by apply list_elem_of_further).
    assert ((j0, w0) ∈ wordMatches (S i) rest) as Hhead
      by (rewrite Hrest; apply list_elem_of_here).
    destruct (j0 =? S i)%nat eqn:Hj.
    + apply Nat.eqb_eq in Hj as ->.
      intros [[= -> ->] | Hm]%elem_of_cons.
      * apply IH in Hhead as (b & a & (Htext & Hw & Hall & Hb & Ha) & Hlen).
        assert (b = "") as -> by (apply string_length_zero; lia).
        exists "", a. split; [|simpl; lia]. split_and!; try done.
        -- by rewrite Htext.
        -- simpl. by rewrite Hc, Hall.
      * rewrite Forall_forall in Hgap. specialize (Hgap _ Hm). simpl in Hgap.
        apply Hin, IH in Hm as (b & a & (Htext & Hw & Hall & Hb & Ha) & ->).
        exists (String c b), a. split; [|simpl; lia].
        split_and!; try done.
        -- by rewrite string_app_cons, Htext.
        -- rewrite endsWithWordChar_cons. destruct b; [simpl in Hgap; lia | done].
    + apply Nat.eqb_neq in Hj.
      assert (startsWithWordChar rest = false) as Hstart.
      { destruct (startsWithWordChar rest) eqn:Hstart; [|done].
        destruct (wordMatches_head rest (S i) Hstart) as (? & ? & ?). congruence. }
      intros [[= -> ->] | Hm]%elem_of_cons.
      * exists "", rest. split; [|simpl; lia]. split_and!; try done.
        simpl. by rewrite Hc.
      * assert ((j, w) ∈ wordMatches (S i) rest) as Hm' by by rewrite Hrest.
        apply IH in Hm' as (b & a & (Htext & Hw & Hall & Hb & Ha) & ->).
        exists (String c b), a. split; [|simpl; lia].
        split_and!; try done.
        -- by rewrite string_app_cons, Htext.
        -- rewrite endsWithWordChar_cons. destruct b; [|done].
           rewrite Htext, string_app_nil_l, startsWithWordChar_app in Hstart; done.
Qed.

(** A whole word is found by the scan, first of what follows it. *)
Lemma wordMatches_word (w after : string) (i : nat) :
  w ≠ "" → allWordChars w = true → startsWithWordChar after = false →
  wordMatches i (w +:+ after)
  = (i, w) :: wordMatches (i + String.length w) after.
Proof.
  revert i. induction w as [|c w IH]; intros i Hne Hall Hafter; [done|].
  simpl in Hall. apply andb_true_iff in Hall as [Hc Hall].
  rewrite string_app_cons. simpl. rewrite Hc.
  destruct w as [|d w].
  - rewrite string_app_nil_l.
    replace (i + S (String.length "")) with (S i) by (simpl; lia).
    pose proof (wordMatches_after_nonword after (S i) Hafter) as Hlow.
    destruct (wordMatches (S i) after) as [|[j w0] ms]; [done|].
    apply Forall_cons in Hlow as [Hj _]. simpl in Hj.
    destruct (j =? S i)%nat eqn:Heq; [apply Nat.eqb_eq in Heq; lia | done].
  - rewrite (IH (S i)) by done. rewrite Nat.eqb_refl.
    do 2 f_equal. simpl. lia.
Qed.

Lemma coversOffset_spec (offset : Z) (j : nat) (w : string) :
  coversOffset offset (j, w) = true ↔
  (Z.of_nat j ≤ offset ≤ Z.of_nat (j + String.length w))%Z.
Proof. unfold coversOffset. simpl. rewrite andb_true_iff, !Z.leb_le. lia. Qed.

(** The word around the offset is the first result that passes the test. *)
Lemma find_word_at (text before w after : string) (i : nat) (offset : Z) :
  wordAt text before w after →
  (Z.of_nat (i + String.length before) ≤ offset
   ≤ Z.of_nat (i + String.length before + String.length w))%Z →
  List.find (coversOffset offset) (wordMatches i text)
  = Some (i + String.length before, w).
Proof.
  intros (-> & Hw & Hall & Hb & Ha). revert i.
  induction before as [|c b IH]; intros i Hoff.
  - rewrite string_app_nil_l, wordMatches_word by done. simpl find.
    assert (coversOffset offset (i, w) = true) as Hcov.
    { apply coversOffset_spec. simpl in Hoff. lia. }
    rewrite Hcov. do 2 f_equal. simpl. lia.
  - rewrite endsWithWordChar_cons in Hb.
    rewrite string_app_cons. simpl in Hoff |- *.
    assert (List.find (coversOffset offset) (wordMatches (S i) (b +:+ (w +:+ after)))
            = Some (S i + String.length b, w)) as Hrec.
    { apply IH; [by destruct b | lia]. }
    replace (i + S (String.length b)) with (S i + String.length b) by lia.
    destruct (isWordChar c) eqn:Hc; [|done].
    assert (b ≠ "") as Hbne by (intros ->; congruence).
    assert (0 < String.length b) as Hblen by (destruct b; [done | simpl; lia]).
    destruct (wordMatches (S i) (b +:+ (w +:+ after))) as [|[j0 w0] ms];
      [done|].
    cbn [List.find] in Hrec.
    assert (coversOffset offset (i, String c "") = false) as Hone.
    { apply not_true_is_false. rewrite coversOffset_spec. simpl. lia. }
    destruct (coversOffset offset (j0, w0)) eqn:Hcov0.
    + injection Hrec as Hj0 ->.
      assert (j0 ≠ S i) as Hj by lia.
      rewrite (proj2 (Nat.eqb_neq _ _) Hj). cbn [List.find].
      by rewrite Hone, Hcov0, Hj0.
    + destruct (j0 =? S i)%nat eqn:Hj; cbn [List.find].
      * apply Nat.eqb_eq in Hj as ->.
        assert (coversOffset offset (i, String c w0) = false) as ->; [|done].
        apply not_true_is_false. rewrite coversOffset_spec. simpl. intros Hcov.
        apply not_true_iff_false in Hcov0. apply Hcov0.
        apply coversOffset_spec. lia.
      * by rewrite Hone, Hcov0.
Qed.

(** X9. [extractSymbolNameAtOffset] returns [w] exactly when [w] is a whole
    word of the text (a non-empty run of letters, digits and underscores with
    no such character before or after it) and the offset lies between its
    first character and the position just after its last one, both included;
    it returns [null] exactly when the offset touches no word. *)
Theorem extractSymbolNameAtOffset_word (text : string) (offset : Z) :
  (∀ w, extractSymbolNameAtOffset text offset = Some w ↔
        ∃ before after,
          wordAt text before w after
          ∧ (Z.of_nat (String.length before) ≤ offset
             ≤ Z.of_nat (String.length before + String.length w))%Z)
  ∧ (extractSymbolNameAtOffset text offset = None ↔
     ∀ before w after,
       wordAt text before w after →
       ¬ (Z.of_nat (String.length before) ≤ offset
          ≤ Z.of_nat (String.length before + String.length w))%Z).
Proof.
  assert (∀ w, extractSymbolNameAtOffset text offset = Some w ↔
        ∃ before after,
          wordAt text before w after
          ∧ (Z.of_nat (String.length before) ≤ offset
             ≤ Z.of_nat (String.length before + String.length w))%Z) as Hsome.
  { intros w. unfold extractSymbolNameAtOffset. split.
    - destruct (List.find _ _) as [[j w']|] eqn:Hfind; [|done].
      intros [= ->]. apply find_some in Hfind as [Hin Hcov].
      apply list_elem_of_In, wordMatches_sound in Hin as (b & a & Hat & ->).
      exists b, a. split; [done|]. by apply coversOffset_spec in Hcov.
    - intros (b & a & Hat & Hoff).
      by rewrite (find_word_at text b w a 0 offset Hat Hoff). }
  split; [done|]. split.
  - intros Hnone b w a Hat Hoff.
    assert (extractSymbolNameAtOffset text offset = Some w) as Hw
      by (apply Hsome; eauto).
    congruence.
  - intros Hno. destruct (extractSymbolNameAtOffset text offset) as [w|] eqn:Hw;
      [|done].
    destruct (proj1 (Hsome w) eq_refl) as (b & a & Hat & Hoff).
    by destruct (Hno b w a Hat).
Qed.

(** *** The server *)

Lemma truthy_nonempty (s : string) : s ≠ "" → truthy s = true.
Proof. by destruct s. Qed.

(** X10. [textDocument/references] answers with the references of the word
    under the cursor: when the document is open, a root URI is set, the
    indexer knows its root and the offset of the position lies on a whole word
    [w] of the text (or just after it), the answer is the translated bucket of
    [w], less the entries whose range [Range.create] refuses. It is [null] when the document is not open, when no root URI is set,
    and when the position touches no word. *)
Theorem referencesAtPosition_word (offsetAt : string → Lsp.Position → Z)
    (srv : Server) (uri : string) (position : Lsp.Position) :
  (∀ text u root before w after,
     documents srv !! uri = Some text → knownRootUri srv = Some u →
     knownRoot (indexer srv) = Some root → wordAt text before w after →
     (Z.of_nat (String.length before) ≤ offsetAt text position
      ≤ Z.of_nat (String.length before + String.length w))%Z →
     referencesAtPosition offsetAt srv uri position
     = Some (omap (lspLocationOf root) (bucket (references (indexer srv)) w)))
  ∧ (documents srv !! uri = None →
     referencesAtPosition offsetAt srv uri position = None)
  ∧ (knownRootUri srv = None →
     referencesAtPosition offsetAt srv uri position = None)
  ∧ (∀ text, documents srv !! uri = Some text →
     extractSymbolNameAtOffset text (offsetAt text position) = None →
     referencesAtPosition offsetAt srv uri position = None).
Proof.
  unfold referencesAtPosition. split_and!.
  - intros text u root before w after Hdoc Hu Hroot Hat Hoff.
    rewrite Hdoc, Hu.
    assert (extractSymbolNameAtOffset text (offsetAt text position) = Some w) as ->.
    { unfold extractSymbolNameAtOffset.
      by rewrite (find_word_at text before w after 0 _ Hat Hoff). }
    destruct Hat as (_ & Hw & _).
    rewrite (truthy_nonempty w Hw). simpl. f_equal.
    by apply collectLocations_known.
  - by intros ->.
  - intros ->. by destruct (documents srv !! uri).
  - intros text -> ->. by destruct (knownRootUri srv).
Qed.

Lemma server_index_step srv e :
  indexUnique (indexer srv) ∧ wellFormed (indexer srv) →
  indexUnique (indexer (serverStep srv e)) ∧ wellFormed (indexer (serverStep srv e)).
Proof.
  intros [Hu Hwf]. destruct e as [folders legacy | uri | texts]; simpl; [| |done].
  - match goal with
    | |- context [match ?c with Some _ => _ | None => _ end] => destruct c as [u|]
    end; [|done].
    destruct (truthy u); [|done].
    split; [by apply indexUnique_initialize|].
    apply (wellFormed_handle _ (Initialize u) Hwf).
  - unfold onDidSaveTextDocument. destruct (knownRootUri srv); [|done]. simpl.
    split; [by apply indexUnique_handleFileSave|].
    apply (wellFormed_handle _ (FileSave uri) Hwf).
Qed.

(** X11. After any history of initializations, saves and document changes,
    each handled to its end before the next, starting from a new server: no
    two entries of a bucket share file and start position, no key is bound to
    an empty list and every entry sits under its own name. With a root URI set, a request for a non-empty symbol
    is never answered [null]: the answer is the translated bucket (less the
    entries whose range [Range.create] refuses), or the empty list while the
    indexer knows no root; without a root URI, or for the
    empty symbol, the answer is [null]. *)
Theorem server_keeps_index_consistent (events : list ServerEvent) :
  let srv := foldl serverStep newServer events in
  indexUnique (indexer srv) ∧ wellFormed (indexer srv)
  ∧ (∀ u symbol, knownRootUri srv = Some u → symbol ≠ "" →
       definitionForSymbol srv symbol
       = Some match knownRoot (indexer srv) with
              | Some root =>
                  omap (lspLocationOf root) (bucket (definitions (indexer srv)) symbol)
              | None => []
              end
       ∧ referencesForSymbol srv symbol
         = Some match knownRoot (indexer srv) with
                | Some root =>
                    omap (lspLocationOf root) (bucket (references (indexer srv)) symbol)
                | None => []
                end)
  ∧ (knownRootUri srv = None →
       ∀ symbol, definitionForSymbol srv symbol = None
                 ∧ referencesForSymbol srv symbol = None)
  ∧ definitionForSymbol srv "" = None ∧ referencesForSymbol srv "" = None.
Proof.
  intros srv.
  assert (indexUnique (indexer srv) ∧ wellFormed (indexer srv)) as [Hu Hwf].
  { apply (foldl_preserves
             (λ s, indexUnique (indexer s) ∧ wellFormed (indexer s))).
    - split.
      + split; apply uniqueBuckets_empty.
      + split_and!; simpl; first [apply noEmptyBucket_empty | apply keyedByName_empty].
    - intros. by apply server_index_step. }
  unfold definitionForSymbol, referencesForSymbol. split_and!; [done..| | | |].
  - intros u symbol Hknown Hsym. rewrite Hknown, (truthy_nonempty symbol Hsym).
    simpl. unfold findDefinitions, findReferences.
    destruct (knownRoot (indexer srv)) as [root|] eqn:Hroot.
    + by rewrite !(collectLocations_known _ root).
    + by rewrite !collectLocations_unknown.
  - by intros ->.
  - by destruct (knownRootUri srv).
  - by destruct (knownRootUri srv).
Qed.

Lemma projectRoot_indexFiles files st :
  projectRoot (indexFiles st files) = projectRoot st.
Proof.
  revert st. induction files as [|f files IH]; intros st; [done|].
  simpl. by rewrite IH, projectRoot_indexFile.
Qed.

Lemma runFullIndex_root_flag st :
  projectRoot (runFullIndex st) = projectRoot st
  ∧ isIndexing (runFullIndex st) = isIndexing st.
Proof.
  destruct (knownRoot st) as [root|] eqn:Hroot;
    [|unfold runFullIndex; by rewrite Hroot].
  destruct (isIndexing st) eqn:Hflag;
    [unfold runFullIndex; by rewrite Hroot, Hflag|].
  rewrite (runFullIndex_started st root) by done.
  destruct (glob root); simpl; [|done]. by rewrite projectRoot_indexFiles.
Qed.

Lemma runFullIndex_same_root st1 st2 root :
  knownRoot st1 = Some root → isIndexing st1 = false → isIndexing st2 = false →
  projectRoot st1 = projectRoot st2 → runFullIndex st1 = runFullIndex st2.
Proof.
  intros Hk Ha Hb Hr.
  assert (knownRoot st2 = Some root) as Hk'
    by (unfold knownRoot in *; by rewrite <- Hr).
  rewrite (runFullIndex_started st1 root), (runFullIndex_started st2 root) by done.
  assert (clearIndex (setIndexing true st1) = clearIndex (setIndexing true st2)) as ->;
    [|done].
  unfold clearIndex, setIndexing. simpl. by rewrite Hr.
Qed.

(** X19. [initialize]: a URI that does not convert to a path, or converts to
    the empty path, leaves the service unchanged. Otherwise the root that
    [findProjectRoot] returns replaces the stored one and [isIndexing] ends as
    it was. While a rebuild is in progress nothing else happens: the store
    built for the old root is kept under the new root. On an idle service
    initializing twice is initializing once, and with a non-empty root the
    outcome does not depend on what was stored before. *)
Theorem initialize_decision st uri :
  (uriToPath uri = None → initialize st uri = st)
  ∧ (uriToPath uri = Some "" → initialize st uri = st)
  ∧ (∀ p, uriToPath uri = Some p → p ≠ "" →
       projectRoot (initialize st uri) = Some (findProjectRoot p)
       ∧ isIndexing (initialize st uri) = isIndexing st
       ∧ (isIndexing st = true →
          initialize st uri = setProjectRoot (findProjectRoot p) st)
       ∧ (isIndexing st = false →
          initialize (initialize st uri) uri = initialize st uri)
       ∧ (isIndexing st = false → findProjectRoot p ≠ "" →
          ∀ st', isIndexing st' = false → initialize st' uri = initialize st uri)).
Proof.
  split_and!.
  - intros Huri. unfold initialize. by rewrite Huri.
  - intros Huri. unfold initialize. by rewrite Huri.
  - intros p Huri Hp.
    assert (∀ s, initialize s uri = runFullIndex (setProjectRoot (findProjectRoot p) s))
      as Hinit.
    { intros s. unfold initialize. by rewrite Huri, (truthy_nonempty p Hp). }
    assert (∀ s, isIndexing s = false → findProjectRoot p ≠ "" →
              ∀ s', isIndexing s' = false → initialize s' uri = initialize s uri)
      as Hsame.
    { intros s Hs Hr s' Hs'. rewrite !Hinit.
      apply (runFullIndex_same_root _ _ (findProjectRoot p)); try done.
      unfold knownRoot. simpl. by rewrite (truthy_nonempty _ Hr). }
    destruct (runFullIndex_root_flag (setProjectRoot (findProjectRoot p) st))
      as [Hroot Hflag].
    split_and!.
    + by rewrite Hinit, Hroot.
    + by rewrite Hinit, Hflag.
    + intros Hbusy. by apply (initialize_while_indexing st uri p), truthy_nonempty.
    + intros Hidle.
      destruct (decide (findProjectRoot p = "")) as [Hempty|Hr].
      * assert (∀ s, initialize s uri = setProjectRoot "" s) as Hskip.
        { intros s. rewrite Hinit, Hempty. unfold runFullIndex.
          by replace (knownRoot (setProjectRoot "" s)) with (@None string). }
        by rewrite !Hskip.
      * apply Hsame; [done..|]. by rewrite Hinit, Hflag.
    + intros Hidle Hr. by apply Hsame.
Qed.

End Service.

(** ** The repository's extractor behind the service *)

Section Extractor.
Variable relative : string → string → string.
Variable readFile : string → outcome string.
Variable parserLoaded : bool.
Variable Tree : Type.
Variable parse : string → outcome Tree.
Variable queryMatches : string → Tree → outcome (list TreeSitter.QueryMatch).
Variable childForFieldName :
  TreeSitter.SyntaxNode → string → option TreeSitter.SyntaxNode.

Abbreviation parseFile' :=
  (parseFile relative readFile parserLoaded Tree parse queryMatches
     childForFieldName).

Lemma parseFile_returns filePath projectRoot :
  ∃ defs refs, parseFile' filePath projectRoot = Returned (defs, refs).
Proof.
  unfold parseFile.
  destruct (try_catch _ _) as [defs refs]. by exists defs, refs.
Qed.

(** [parseFile] by what the file system and the parser answer. *)
Lemma parseFile_cases filePath projectRoot :
  parseFile' filePath projectRoot =
    Returned
      match readFile filePath with
      | Thrown _ => ([], [])
      | Returned sourceCode =>
          if parserLoaded then
            match parse sourceCode with
            | Thrown _ => ([], [])
            | Returned tree =>
                let relativePath := relative projectRoot filePath in
                let acc :=
                  foldl (definitionsForKind Tree queryMatches childForFieldName
                           tree sourceCode relativePath)
                    ([], ∅) definitionQueries in
                (acc.1, referencesOf Tree queryMatches tree acc.2 sourceCode
                          relativePath)
            end
          else ([], [])
      end.
Proof.
  unfold parseFile. destruct (readFile filePath) as [sourceCode|]; [|done].
  destruct parserLoaded; [|done].
  run_outcome. destruct (parse sourceCode); reflexivity.
Qed.

Lemma definitionsForKind_file tree sourceCode rel (acc : DefAcc) q :
  Forall (λ d, file d = rel) acc.1 →
  Forall (λ d, file d = rel)
    (definitionsForKind Tree queryMatches childForFieldName tree sourceCode rel
       acc q).1.
Proof.
  intros Hacc. unfold definitionsForKind.
  destruct (queryMatches q.2 tree) as [ms|]; run_outcome; [|done].
  apply (foldl_preserves (λ a : DefAcc, Forall (λ d, file d = rel) a.1));
    [done|].
  intros acc' m Hacc'. unfold definitionStep.
  destruct (findCapture "name" m), (findCapture "def" m); try done.
  - unfold pushDefinition. simpl. apply Forall_app. split; [done|].
    by apply Forall_singleton.
  - destruct (isConstructor q.1); [|done].
    destruct (childForFieldName _ _); [|done].
    unfold pushDefinition. simpl. apply Forall_app. split; [done|].
    by apply Forall_singleton.
Qed.

Lemma referencesOf_file tree found sourceCode rel :
  Forall (λ r, file r = rel)
    (referencesOf Tree queryMatches tree found sourceCode rel).
Proof.
  unfold referencesOf.
  destruct (queryMatches referenceQuery tree) as [ms|]; run_outcome;
    [|constructor].
  apply (foldl_preserves (Forall (λ r : Reference, file r = rel))); [constructor|].
  intros acc m Hacc. unfold referenceStep.
  destruct (match findCapture "ref_name" m with
            | Some n => Some n
            | None => findCapture "maybe_ref_name" m
            end); [|done].
  destruct (bool_decide _); [done|].
  apply Forall_app. split; [done|]. by apply Forall_singleton.
Qed.

Lemma definitions_fold_file tree sourceCode rel qs (acc : DefAcc) :
  Forall (λ d, file d = rel) acc.1 →
  Forall (λ d, file d = rel)
    (foldl (definitionsForKind Tree queryMatches childForFieldName tree
              sourceCode rel) acc qs).1.
Proof.
  intros Hacc.
  apply (foldl_preserves (λ a : DefAcc, Forall (λ d, file d = rel) a.1));
    [done|].
  intros a q Ha. by apply definitionsForKind_file.
Qed.

(** Every entry [parseFile] returns carries the file's path relative to the
    root, the path under which [indexFile] later removes it. *)
Lemma parseFile_entries_file filePath projectRoot defs refs :
  parseFile' filePath projectRoot = Returned (defs, refs) →
  Forall (λ d, file d = relative projectRoot filePath) defs
  ∧ Forall (λ r, file r = relative projectRoot filePath) refs.
Proof.
  rewrite parseFile_cases. intros [= Hbody].
  destruct (readFile filePath) as [sourceCode|];
    [|by injection Hbody as <- <-].
  destruct parserLoaded; [|by injection Hbody as <- <-].
  destruct (parse sourceCode) as [tree|]; [|by injection Hbody as <- <-].
  injection Hbody as <- <-. split; [|apply referencesOf_file].
  exact (definitions_fold_file tree sourceCode (relative projectRoot filePath)
           definitionQueries ([], ∅) (List.Forall_nil _)).
Qed.

(** Claim C10. [parseFile] returns normally on every input, with two lists:
    when the file cannot be read, the parser is not loaded, or parsing throws,
    both lists are empty. Behind the service it therefore never triggers the
    failure branch of [indexFile]: with a known root, [indexFile] always
    reaches [filesIndexed.add]. *)
Theorem parseFile_never_rejects filePath projectRoot :
  returns (parseFile' filePath projectRoot)
  ∧ throws (parseFile' filePath projectRoot) = false
  ∧ (throws (readFile filePath) = true →
     parseFile' filePath projectRoot = Returned ([], []))
  ∧ (parserLoaded = false →
     parseFile' filePath projectRoot = Returned ([], []))
  ∧ (∀ sourceCode, readFile filePath = Returned sourceCode →
     throws (parse sourceCode) = true →
     parseFile' filePath projectRoot = Returned ([], []))
  ∧ (∀ st, knownRoot st = Some projectRoot →
     ¬ extractorRejects parseFile' projectRoot filePath
     ∧ relative projectRoot filePath
       ∈ filesIndexed (indexFile relative parseFile' st filePath)).
Proof.
  destruct (parseFile_returns filePath projectRoot) as (defs & refs & Hret).
  split_and!.
  - by exists (defs, refs).
  - by rewrite Hret.
  - rewrite parseFile_cases. by destruct (readFile filePath).
  - intros Hnot. rewrite parseFile_cases, Hnot. by destruct (readFile filePath).
  - intros sourceCode Hread Hparse. rewrite parseFile_cases, Hread.
    destruct parserLoaded; [|done]. by destruct (parse sourceCode).
  - intros st Hroot. split.
    + unfold extractorRejects. by rewrite Hret.
    + unfold indexFile. rewrite Hroot, afterParse_cases, Hret. simpl. set_solver.
Qed.

Lemma foldl_preserves_in {X Y : Type} (P : X → Prop) (f : X → Y → X)
    (ys : list Y) x :
  P x → (∀ x y, y ∈ ys → P x → P (f x y)) → P (foldl f x ys).
Proof.
  revert x. induction ys as [|y ys IH]; intros x Hx Hstep; [done|].
  simpl. apply IH.
  - apply Hstep; [apply list_elem_of_here | done].
  - intros x' y' Hy'. apply Hstep. by apply list_elem_of_further.
Qed.

(** What one definition query adds, whatever was accumulated before. *)
Lemma definitionsForKind_invariant (P : Definition_ → gset (Z * Z) → Prop)
    tree sourceCode rel (acc : DefAcc) q :
  (∀ d found k, P d found → P d ({[k]} ∪ found)) →
  (∀ nameNode found k,
     k = q.1 ∨ k = constructor →
     P (mkDefinition (getNodeText nameNode sourceCode) k rel (getNodeRange nameNode))
       ({[rangeKey (getNodeRange nameNode)]} ∪ found)) →
  Forall (λ d, P d acc.2) acc.1 →
  let acc' := definitionsForKind Tree queryMatches childForFieldName tree
                sourceCode rel acc q in
  Forall (λ d, P d acc'.2) acc'.1.
Proof.
  intros Hmono Hnew Hacc. unfold definitionsForKind.
  destruct (queryMatches q.2 tree) as [ms|]; run_outcome; [|done].
  apply (foldl_preserves (λ a : DefAcc, Forall (λ d, P d a.2) a.1)); [done|].
  intros a m Ha.
  assert (∀ nameNode k, k = q.1 ∨ k = constructor →
            Forall (λ d, P d (pushDefinition k sourceCode rel a nameNode).2)
              (pushDefinition k sourceCode rel a nameNode).1) as Hpush.
  { intros nameNode k Hk. unfold pushDefinition. simpl. apply Forall_app. split.
    - eapply Forall_impl; [exact Ha|]. intros d Hd. by apply Hmono.
    - apply Forall_singleton. by apply Hnew. }
  unfold definitionStep.
  destruct (findCapture "name" m), (findCapture "def" m); try done.
  - apply Hpush. by left.
  - destruct (isConstructor q.1); [|done].
    destruct (childForFieldName _ _); [|done]. apply Hpush. by right.
Qed.

Lemma definitions_fold_invariant (P : Definition_ → gset (Z * Z) → Prop)
    tree sourceCode rel :
  (∀ d found k, P d found → P d ({[k]} ∪ found)) →
  (∀ nameNode found k,
     k ∈ definitionQueries.*1 →
     P (mkDefinition (getNodeText nameNode sourceCode) k rel (getNodeRange nameNode))
       ({[rangeKey (getNodeRange nameNode)]} ∪ found)) →
  let acc := foldl (definitionsForKind Tree queryMatches childForFieldName tree
                      sourceCode rel) ([], ∅) definitionQueries in
  Forall (λ d, P d acc.2) acc.1.
Proof.
  intros Hmono Hnew.
  apply (foldl_preserves_in (λ a : DefAcc, Forall (λ d, P d a.2) a.1));
    [constructor|].
  intros a q Hq Ha. apply definitionsForKind_invariant; [done| |done].
  intros nameNode found k [-> | ->]; apply Hnew.
  - by apply list_elem_of_fmap_2.
  - apply (bool_decide_unpack _). by vm_compute.
Qed.

Lemma referencesOf_avoids tree found sourceCode rel :
  Forall (λ r, rangeKey (range r) ∉ found)
    (referencesOf Tree queryMatches tree found sourceCode rel).
Proof.
  unfold referencesOf.
  destruct (queryMatches referenceQuery tree) as [ms|]; run_outcome;
    [|constructor].
  apply (foldl_preserves (Forall (λ r : Reference, rangeKey (range r) ∉ found)));
    [constructor|].
  intros acc m Hacc. unfold referenceStep.
  destruct (match findCapture "ref_name" m with
            | Some n => Some n
            | None => findCapture "maybe_ref_name" m
            end) as [refNode|]; [|done].
  destruct (bool_decide (rangeKey (getNodeRange refNode) ∈ found)) eqn:Hfound;
    [done|].
  apply Forall_app. split; [done|]. apply Forall_singleton.
  by apply bool_decide_eq_false in Hfound.
Qed.

(** X12. What [parseFile] promises about its result: every definition and
    reference carries the file's path relative to the root; no reference
    starts where a definition of the same file starts; and the kind of every
    definition is one of the seven kinds of the query table, never [unknown]. *)
Theorem parseFile_contract filePath projectRoot defs refs :
  parseFile' filePath projectRoot = Returned (defs, refs) →
  Forall (λ d, file d = relative projectRoot filePath) defs
  ∧ Forall (λ r, file r = relative projectRoot filePath) refs
  ∧ (∀ d r, d ∈ defs → r ∈ refs → start (range r) ≠ start (range d))
  ∧ Forall (λ d, kind d ∈ definitionQueries.*1 ∧ kind d ≠ unknown) defs.
Proof.
  intros Hparse.
  destruct (parseFile_entries_file _ _ _ _ Hparse) as [Hfd Hfr].
  split_and!; [done..| |].
  - rewrite parseFile_cases in Hparse. injection Hparse as Hbody.
    destruct (readFile filePath) as [sourceCode|];
      [|injection Hbody as <- <-; by intros ? ? ?%elem_of_nil].
    destruct parserLoaded; [|injection Hbody as <- <-; by intros ? ? ?%elem_of_nil].
    destruct (parse sourceCode) as [tree|];
      [|injection Hbody as <- <-; by intros ? ? ?%elem_of_nil].
    pose proof (definitions_fold_invariant
                  (λ d found, rangeKey (range d) ∈ found)
                  tree sourceCode (relative projectRoot filePath)) as Hdefs.
    cbv zeta in Hbody, Hdefs. injection Hbody as <- <-.
    intros d r Hd Hr Hstart.
    pose proof (referencesOf_avoids tree
                  (foldl (definitionsForKind Tree queryMatches childForFieldName
                            tree sourceCode (relative projectRoot filePath))
                     ([], ∅) definitionQueries).2
                  sourceCode (relative projectRoot filePath)) as Hrefs.
    rewrite Forall_forall in Hrefs. apply (Hrefs r Hr).
    unfold rangeKey. rewrite Hstart.
    assert (Forall (λ d, rangeKey (range d) ∈
              (foldl (definitionsForKind Tree queryMatches childForFieldName
                        tree sourceCode (relative projectRoot filePath))
                 ([], ∅) definitionQueries).2)
              (foldl (definitionsForKind Tree queryMatches childForFieldName
                        tree sourceCode (relative projectRoot filePath))
                 ([], ∅) definitionQueries).1) as Hall.
    { apply Hdefs.
      - intros d0 found k Hin. apply elem_of_union. by right.
      - intros nameNode found k _. apply elem_of_union. left.
        by apply elem_of_singleton. }
    rewrite Forall_forall in Hall. by apply (Hall d).
  - rewrite parseFile_cases in Hparse. injection Hparse as Hbody.
    destruct (readFile filePath) as [sourceCode|];
      [|injection Hbody as <- <-; constructor].
    destruct parserLoaded; [|injection Hbody as <- <-; constructor].
    destruct (parse sourceCode) as [tree|];
      [|injection Hbody as <- <-; constructor].
    pose proof (definitions_fold_invariant
                  (λ d _, kind d ∈ definitionQueries.*1 ∧ kind d ≠ unknown)
                  tree sourceCode (relative projectRoot filePath)) as Hdefs.
    cbv zeta in Hbody, Hdefs. injection Hbody as <- <-.
    apply Hdefs; [done|].
    intros nameNode found k Hk. simpl. split; [done|].
    intros ->. revert Hk. apply (bool_decide_unpack _). by vm_compute.
Qed.

Lemma getNodeRange_oneBased (n : TreeSitter.SyntaxNode) :
  nonNegativeNode n → oneBased (getNodeRange n).
Proof.
  unfold nonNegativeNode, oneBased, getNodeRange, pointToPosition. simpl. lia.
Qed.

Lemma findCapture_in (n : string) (m : TreeSitter.QueryMatch) nd :
  findCapture n m = Some nd →
  ∃ c, c ∈ TreeSitter.captures m ∧ TreeSitter.node c = nd.
Proof.
  unfold findCapture.
  destruct (List.find _ _) as [c|] eqn:Hfind; [|done].
  intros [= <-]. apply find_some in Hfind as [Hin _].
  exists c. by rewrite list_elem_of_In.
Qed.

Lemma capture_nonNegative (n : string) (m : TreeSitter.QueryMatch) nd :
  Forall (λ c, nonNegativeNode (TreeSitter.node c)) (TreeSitter.captures m) →
  findCapture n m = Some nd → nonNegativeNode nd.
Proof.
  intros Hm (c & Hc & <-)%findCapture_in.
  rewrite Forall_forall in Hm. by apply Hm.
Qed.

Lemma definitions_fold_oneBased tree sourceCode rel qs (acc : DefAcc) :
  (∀ q t ms, queryMatches q t = Returned ms →
     Forall (λ m, Forall (λ c, nonNegativeNode (TreeSitter.node c))
                    (TreeSitter.captures m)) ms) →
  (∀ n field c, childForFieldName n field = Some c → nonNegativeNode c) →
  Forall (λ d, oneBased (range d)) acc.1 →
  Forall (λ d, oneBased (range d))
    (foldl (definitionsForKind Tree queryMatches childForFieldName tree
              sourceCode rel) acc qs).1.
Proof.
  intros Hnodes Hchild Hstart.
  apply (foldl_preserves (λ a : DefAcc, Forall (λ d, oneBased (range d)) a.1));
    [done|].
  clear acc Hstart. intros acc q Hacc. unfold definitionsForKind.
  destruct (queryMatches q.2 tree) as [ms|] eqn:Hq; run_outcome; [|done].
  specialize (Hnodes _ _ _ Hq).
  apply (foldl_preserves_in (λ a : DefAcc, Forall (λ d, oneBased (range d)) a.1));
    [done|].
  intros a m Hm Ha. rewrite Forall_forall in Hnodes. specialize (Hnodes m Hm).
  assert (∀ nd k, nonNegativeNode nd →
            Forall (λ d, oneBased (range d))
              (pushDefinition k sourceCode rel a nd).1) as Hpush.
  { intros nd k Hnd. unfold pushDefinition. simpl. apply Forall_app.
    split; [done|]. apply Forall_singleton. by apply getNodeRange_oneBased. }
  unfold definitionStep.
  destruct (findCapture "name" m) as [nameNode|] eqn:Hname,
           (findCapture "def" m) as [defNode|] eqn:Hdef; try done.
  - apply Hpush. by apply (capture_nonNegative "name" m).
  - destruct (isConstructor q.1); [|done].
    destruct (childForFieldName defNode "name") as [c|] eqn:Hc; [|done].
    apply Hpush. by apply (Hchild defNode "name").
Qed.

Lemma referencesOf_oneBased tree found sourceCode rel :
  (∀ q t ms, queryMatches q t = Returned ms →
     Forall (λ m, Forall (λ c, nonNegativeNode (TreeSitter.node c))
                    (TreeSitter.captures m)) ms) →
  Forall (λ r, oneBased (range r))
    (referencesOf Tree queryMatches tree found sourceCode rel).
Proof.
  intros Hnodes. unfold referencesOf.
  destruct (queryMatches referenceQuery tree) as [ms|] eqn:Hq; run_outcome;
    [|constructor].
  specialize (Hnodes _ _ _ Hq).
  apply (foldl_preserves_in (Forall (λ r : Reference, oneBased (range r))));
    [constructor|].
  intros acc m Hm Hacc. rewrite Forall_forall in Hnodes.
  specialize (Hnodes m Hm). unfold referenceStep.
  destruct (match findCapture "ref_name" m with
            | Some n => Some n
            | None => findCapture "maybe_ref_name" m
            end) as [refNode|] eqn:Href; [|done].
  destruct (bool_decide _); [done|].
  apply Forall_app. split; [done|]. apply Forall_singleton.
  apply getNodeRange_oneBased.
  destruct (findCapture "ref_name" m) as [n1|] eqn:H1.
  - injection Href as <-. by apply (capture_nonNegative "ref_name" m).
  - by apply (capture_nonNegative "maybe_ref_name" m).
Qed.

(** X13. When tree-sitter reports nodes at non-negative rows and columns,
    every range [parseFile] returns is 1-based: line and column of both ends
    are at least 1. *)
Theorem parseFile_positions_one_based filePath projectRoot defs refs :
  (∀ q tree ms, queryMatches q tree = Returned ms →
     Forall (λ m, Forall (λ c, nonNegativeNode (TreeSitter.node c))
                    (TreeSitter.captures m)) ms) →
  (∀ n field c, childForFieldName n field = Some c → nonNegativeNode c) →
  parseFile' filePath projectRoot = Returned (defs, refs) →
  Forall (λ d, oneBased (range d)) defs ∧ Forall (λ r, oneBased (range r)) refs.
Proof.
  intros Hnodes Hchild Hparse.
  rewrite parseFile_cases in Hparse. injection Hparse as Hbody.
  destruct (readFile filePath) as [sourceCode|];
    [|injection Hbody as <- <-; by split].
  destruct parserLoaded; [|injection Hbody as <- <-; by split].
  destruct (parse sourceCode) as [tree|];
    [|injection Hbody as <- <-; by split].
  injection Hbody as <- <-. split.
  - exact (definitions_fold_oneBased tree sourceCode
             (relative projectRoot filePath) definitionQueries ([], ∅)
             Hnodes Hchild (List.Forall_nil _)).
  - by apply referencesOf_oneBased.
Qed.

End Extractor.

(** ** Root discovery *)

Section RootDiscoveryFacts.
Variable resolve : string → string.
Variable rootOf : string → string.
Variable join : string → string → string.
Variable dirname : string → string.
Variable access : string → outcome unit.
Variable statIsDirectory : string → outcome bool.

Abbreviation climb' := (RootDiscovery.climb rootOf join dirname access statIsDirectory).
Abbreviation hasMarker' := (RootDiscovery.hasMarker join access statIsDirectory).
Abbreviation atRoot' := (RootDiscovery.atRoot rootOf).
Abbreviation ancestor' := (RootDiscovery.ancestor resolve dirname).
Abbreviation findProjectRoot' :=
  (RootDiscovery.findProjectRoot resolve rootOf join dirname access statIsDirectory).

Lemma iter_dirname (k : nat) (p : string) :
  Nat.iter k dirname (dirname p) = Nat.iter (S k) dirname p.
Proof. induction k as [|k IH]; simpl; [done | by rewrite IH]. Qed.

(** The loop passes the directories that are neither the root nor marked. *)
Lemma climb_passes (k fuel : nat) (p : string) :
  (∀ j, (j < k)%nat →
     atRoot' (Nat.iter j dirname p) = false
     ∧ hasMarker' (Nat.iter j dirname p) = false) →
  climb' (k + fuel) p = climb' fuel (Nat.iter k dirname p).
Proof.
  revert p. induction k as [|k IH]; intros p Hpass; [done|].
  destruct (Hpass 0%nat ltac:(lia)) as [Hroot Hmark]. simpl in Hroot, Hmark.
  change (S k + fuel) with (S (k + fuel)). cbn [RootDiscovery.climb].
  rewrite Hroot, Hmark, IH.
  - by rewrite iter_dirname.
  - intros j Hj. rewrite iter_dirname. apply Hpass. lia.
Qed.

(** X14. [findProjectRoot] returns the nearest directory, from the start
    path upwards, that holds [sfdx-project.json] or a directory [.git]; when
    the walk reaches the file-system root first, it returns the resolved start
    path. The root directory itself is never probed, and a [.git] that is not
    a directory does not count. The loop takes one turn per directory. *)
Theorem findProjectRoot_nearest_marker (startPath : string) (k : nat) :
  (∀ j, (j < k)%nat →
     atRoot' (ancestor' j startPath) = false
     ∧ hasMarker' (ancestor' j startPath) = false) →
  (atRoot' (ancestor' k startPath) = true →
   ∀ fuel, (k < fuel)%nat → findProjectRoot' fuel startPath = Some (resolve startPath))
  ∧ (atRoot' (ancestor' k startPath) = false →
     hasMarker' (ancestor' k startPath) = true →
     ∀ fuel, (k < fuel)%nat →
       findProjectRoot' fuel startPath = Some (ancestor' k startPath))
  ∧ (∀ p, hasMarker' p = true ↔
          returns (access (join p "sfdx-project.json"))
          ∨ statIsDirectory (join p ".git") = Returned true).
Proof.
  intros Hpass. unfold RootDiscovery.findProjectRoot, RootDiscovery.ancestor in *.
  split_and!.
  - intros Hroot fuel Hfuel.
    replace fuel with (k + S (fuel - S k)) by lia.
    rewrite climb_passes by done. cbn [RootDiscovery.climb]. by rewrite Hroot.
  - intros Hroot Hmark fuel Hfuel.
    replace fuel with (k + S (fuel - S k)) by lia.
    rewrite climb_passes by done. cbn [RootDiscovery.climb].
    by rewrite Hroot, Hmark.
  - intros p. unfold RootDiscovery.hasMarker, returns.
    destruct (access (join p "sfdx-project.json")) as [[]|]; run_outcome.
    + split; [intros _; left; by exists tt | done].
    + destruct (statIsDirectory (join p ".git")) as [[|]|]; run_outcome;
        split; try done; try (by right); by intros [[? ?]|?].
Qed.

End RootDiscoveryFacts.

(** ** The service with the repository's own extractor *)

Section Repository.
Variable relative : string → string → string.
Variable glob : string → outcome (list string).
Variable fileURLToPath : string → outcome string.
Variable findProjectRoot : string → string.
Variable readFile : string → outcome string.
Variable parserLoaded : bool.
Variable Tree : Type.
Variable parse : string → outcome Tree.
Variable queryMatches : string → Tree → outcome (list TreeSitter.QueryMatch).
Variable childForFieldName :
  TreeSitter.SyntaxNode → string → option TreeSitter.SyntaxNode.

Abbreviation extractor :=
  (parseFile relative readFile parserLoaded Tree parse queryMatches
     childForFieldName).
Abbreviation indexFile' := (indexFile relative extractor).
Abbreviation runFullIndex' := (runFullIndex relative glob extractor).
Abbreviation handle' :=
  (handle relative glob fileURLToPath findProjectRoot extractor).

Lemma extractor_labels : labelsEntries relative extractor.
Proof.
  intros root f. unfold extractedDefs, extractedRefs.
  destruct (parseFile_returns relative readFile parserLoaded Tree parse
              queryMatches childForFieldName f root) as (defs & refs & Hret).
  rewrite Hret. simpl. by apply parseFile_entries_file in Hret.
Qed.

Lemma extractor_never_rejects root f : ¬ extractorRejects extractor root f.
Proof.
  unfold extractorRejects.
  destruct (parseFile_returns relative readFile parserLoaded Tree parse
              queryMatches childForFieldName f root) as (defs & refs & Hret).
  by rewrite Hret.
Qed.

(** X15. Indexing a file that has not changed since it was last indexed
    changes nothing: a second [indexFile] of the same path leaves the store as
    the first one left it. *)
Theorem reindexing_unchanged_file_is_identity st f :
  indexFile relative extractor (indexFile relative extractor st f) f
  = indexFile relative extractor st f.
Proof. apply indexFile_twice, extractor_labels. Qed.

(** X16. [indexFile] touches the entries of its own file only: in every
    bucket of both mappings the entries of the other files are the same, in
    the same order, before and after; the other paths of the indexed-file set
    are kept; the file's own path is in the set afterwards; root and
    [isIndexing] are unchanged. *)
Theorem indexFile_touches_only_its_file st root f :
  knownRoot st = Some root →
  let rel := relative root f in
  (∀ n, filter (λ d, file d ≠ rel) (bucket (definitions (indexFile' st f)) n)
        = filter (λ d, file d ≠ rel) (bucket (definitions st) n))
  ∧ (∀ n, filter (λ r, file r ≠ rel) (bucket (references (indexFile' st f)) n)
          = filter (λ r, file r ≠ rel) (bucket (references st) n))
  ∧ (∀ r, r ≠ rel → r ∈ filesIndexed (indexFile' st f) ↔ r ∈ filesIndexed st)
  ∧ rel ∈ filesIndexed (indexFile' st f)
  ∧ projectRoot (indexFile' st f) = projectRoot st
  ∧ isIndexing (indexFile' st f) = isIndexing st.
Proof.
  intros Hroot rel. split_and!.
  - intros n. apply indexFile_others_definitions; [apply extractor_labels | done].
  - intros n. apply indexFile_others_references; [apply extractor_labels | done].
  - intros r Hr. by apply (filesIndexed_indexFile_other relative extractor st root).
  - rewrite (filesIndexed_indexFile relative extractor st root) by done.
    rewrite decide_False by apply extractor_never_rejects.
    apply elem_of_union. left. by apply elem_of_singleton.
  - apply projectRoot_indexFile.
  - apply isIndexing_indexFile.
Qed.

(** X17. In every state the service reaches from a new one, the indexed-file
    set accounts for the store: the file of every stored definition and
    reference is a member of [filesIndexed]. *)
Theorem reachable_index_is_covered (requests : list Request) :
  indexedFilesCover (foldl handle' newService requests).
Proof. apply indexedFilesCover_reachable, extractor_labels. Qed.

(** X18. With the repository's extractor a rebuild records every enumerated
    file as indexed, the unreadable and the unparseable ones included: the
    indexed-file set is the set of the relative paths of all enumerated
    files. *)
Theorem rebuild_records_every_file st root files :
  knownRoot st = Some root → isIndexing st = false →
  glob root = Returned files →
  filesIndexed (runFullIndex' st) = list_to_set (relative root <$> files).
Proof.
  intros Hroot Hidle Hglob.
  rewrite (runFullIndex_started relative glob extractor st root), Hglob by done.
  cbn [filesIndexed setIndexing].
  rewrite (filesIndexed_indexFiles relative extractor root); [|done| |done].
  - assert (filter (extractorRejects extractor root) files = []) as ->.
    { clear Hglob. induction files as [|f fs IH]; [done|].
      by rewrite filter_cons, decide_False by apply extractor_never_rejects. }
    simpl. apply set_eq. intros r. rewrite elem_of_difference.
    split; [by intros [? _] | intros ?; split; [done|]]. apply not_elem_of_empty.
  - intros f g _ _ _ Hf. by apply extractor_never_rejects in Hf.
Qed.

Lemma extractionFailed_empty f root :
  extractionFailed readFile parserLoaded Tree parse f = true →
  extractor f root = Returned ([], []).
Proof.
  unfold extractionFailed. rewrite parseFile_cases.
  destruct (readFile f) as [sourceCode|]; [|done].
  destruct parserLoaded; [|done]. by destruct (parse sourceCode).
Qed.

(** Claim C2, as amended. After a rebuild over the enumerated [files], the
    indexed-file set is the set of their project-relative paths, all of them:
    a file whose extraction fails (it cannot be read, the parser is missing,
    or parsing throws) makes [parseFile] return two empty lists, not reject,
    and its path is added like any other. So the set is the one of the
    claim, the relative paths minus those of the failed files, only when no
    enumerated file fails. *)
Theorem rebuild_indexes_failed_files_too st root files :
  knownRoot st = Some root → isIndexing st = false →
  glob root = Returned files →
  let failed := extractionFailed readFile parserLoaded Tree parse in
  let st' := runFullIndex relative glob extractor st in
  filesIndexed st' = list_to_set (relative root <$> files)
  ∧ (∀ f, f ∈ files → failed f = true →
       extractor f root = Returned ([], [])
       ∧ relative root f ∈ filesIndexed st')
  ∧ (filesIndexed st'
     = list_to_set (relative root <$> files)
       ∖ list_to_set (relative root <$> filter (λ f, failed f = true) files)
     ↔ filter (λ f, failed f = true) files = []).
Proof.
  intros Hroot Hidle Hglob failed st'.
  assert (filesIndexed st' = list_to_set (relative root <$> files)) as Hall.
  { subst st'.
    rewrite (runFullIndex_started relative glob extractor st root), Hglob by done.
    cbn [filesIndexed setIndexing].
    rewrite (filesIndexed_indexFiles relative extractor root); [|done| |done].
    - assert (filter (extractorRejects extractor root) files = []) as ->.
      { clear Hglob. induction files as [|f fs IH]; [done|].
        by rewrite filter_cons, decide_False by apply extractor_never_rejects. }
      simpl. apply set_eq. intros r. rewrite elem_of_difference.
      split; [by intros [? _] | intros ?; split; [done|]]. apply not_elem_of_empty.
    - intros f g _ _ _ Hf. by apply extractor_never_rejects in Hf. }
  split_and!; [done| |].
  - intros f Hf Hfail. split; [by apply extractionFailed_empty|].
    rewrite Hall. apply elem_of_list_to_set, list_elem_of_fmap_2, Hf.
  - rewrite Hall. split.
    + intros Heq.
      destruct (filter (λ f, failed f = true) files) as [|f fs] eqn:Hfilter; [done|].
      assert (f ∈ files) as Hf.
      { assert (f ∈ filter (λ f, failed f = true) files) as Hin
          by (rewrite Hfilter; apply list_elem_of_here).
        by apply list_elem_of_filter in Hin as [_ ?]. }
      assert (relative root f ∈ (list_to_set (relative root <$> files) : gset string))
        as Hin by apply elem_of_list_to_set, list_elem_of_fmap_2, Hf.
      rewrite Heq in Hin. apply elem_of_difference in Hin as [_ Hnot].
      exfalso. apply Hnot. apply elem_of_list_to_set. rewrite fmap_cons.
      apply list_elem_of_here.
    + intros ->. simpl. apply set_eq. intros r. rewrite elem_of_difference.
      split; [intros ?; split; [done|apply not_elem_of_empty] | by intros [? _]].
Qed.

End Repository.

(** ** The claims on the small project *)

(** The repository's extractor on [A.cls]: the class and the field are
    definitions, the refused method query contributes nothing, and of the
    three identifiers only [Bar] is left as a reference. *)
Example extractor_on_A :
  Demo.extractor "/work/proj/A.cls" Demo.root
  = Returned
      ([mkDefinition "Foo" class_ "A.cls" (Demo.at_ 1 14 1 17);
        mkDefinition "b" property "A.cls" (Demo.at_ 1 24 1 25)],
       [mkReference "Bar" "A.cls" (Demo.at_ 1 20 1 23)]).
Proof. vm_compute. reflexivity. Qed.

Example relative_of_sibling :
  Demo.relative "/work/proj" "/work/proj2/A.cls" = "../proj2/A.cls".
Proof. reflexivity. Qed.

Lemma enumeration_failure_leaves_cleared_index_witness :
  knownRoot Demo.indexed = Some Demo.root
  ∧ isIndexing Demo.indexed = false
  ∧ Demo.globFails Demo.root = Thrown "EACCES: permission denied, scandir"
  ∧ runFullIndex Demo.relative Demo.globFails Demo.extract Demo.indexed
    = {| definitions := ∅; references := ∅; filesIndexed := ∅;
         projectRoot := Some Demo.root; isIndexing := false |}.
Proof.
  split_and!; [reflexivity..|].
  exact (proj2 (proj2
    (enumeration_failure_leaves_cleared_index Demo.relative Demo.globFails
       Demo.extract Demo.indexed Demo.root "EACCES: permission denied, scandir"
       eq_refl eq_refl eq_refl))).
Defined.

(** Claim C1 as stated fails: the service holds [Foo], [Bar] and two indexed
    files, enumeration fails, and the previous store is not what is left. *)
Lemma enumeration_failure_loses_previous_index :
  knownRoot Demo.indexed = Some Demo.root
  ∧ isIndexing Demo.indexed = false
  ∧ throws (Demo.globFails Demo.root) = true
  ∧ ¬ (definitions (runFullIndex Demo.relative Demo.globFails Demo.extract Demo.indexed)
         = definitions Demo.indexed
       ∧ references (runFullIndex Demo.relative Demo.globFails Demo.extract Demo.indexed)
         = references Demo.indexed
       ∧ filesIndexed (runFullIndex Demo.relative Demo.globFails Demo.extract Demo.indexed)
         = filesIndexed Demo.indexed).
Proof.
  split_and!; [reflexivity..|].
  intros (Hdefs & _ & _).
  apply (f_equal (λ m, m !! "Foo")) in Hdefs.
  vm_compute in Hdefs. discriminate.
Qed.

Lemma rebuild_indexes_failed_files_too_witness :
  knownRoot Demo.idle = Some Demo.root
  ∧ isIndexing Demo.idle = false
  ∧ Demo.glob Demo.root
    = Returned ["/work/proj/A.cls"; "/work/proj/bad.cls"; "/work/proj/B.cls";
                "/work/proj/run.apex"]
  ∧ extractionFailed Demo.readFile true unit Demo.parse "/work/proj/bad.cls" = true
  ∧ Demo.extractor "/work/proj/bad.cls" Demo.root = Returned ([], [])
  ∧ Demo.relative Demo.root "/work/proj/bad.cls"
    ∈ filesIndexed (runFullIndex Demo.relative Demo.glob Demo.extractor Demo.idle).
Proof.
  pose proof (rebuild_indexes_failed_files_too Demo.relative Demo.glob Demo.readFile
                true unit Demo.parse Demo.queryMatches Demo.childForFieldName
                Demo.idle Demo.root _ eq_refl eq_refl eq_refl) as (_ & Hfailed & _).
  destruct (Hfailed "/work/proj/bad.cls"
              ltac:(apply list_elem_of_further, list_elem_of_here) eq_refl)
    as [Hempty Hindexed].
  split_and!; [reflexivity | reflexivity | reflexivity | reflexivity
              | exact Hempty | exact Hindexed].
Defined.

(** Claim C2 as stated fails: [bad.cls] cannot be read, so its extraction
    fails, and after the rebuild its path is in the indexed-file set; the set
    is not the relative paths minus those of the failed files. *)
Lemma failed_extraction_is_indexed :
  knownRoot Demo.idle = Some Demo.root
  ∧ isIndexing Demo.idle = false
  ∧ Demo.glob Demo.root
    = Returned ["/work/proj/A.cls"; "/work/proj/bad.cls"; "/work/proj/B.cls";
                "/work/proj/run.apex"]
  ∧ throws (Demo.readFile "/work/proj/bad.cls") = true
  ∧ extractionFailed Demo.readFile true unit Demo.parse "/work/proj/bad.cls" = true
  ∧ "bad.cls"
    ∈ filesIndexed (runFullIndex Demo.relative Demo.glob Demo.extractor Demo.idle)
  ∧ ¬ (filesIndexed (runFullIndex Demo.relative Demo.glob Demo.extractor Demo.idle)
       = list_to_set
           (Demo.relative Demo.root <$>
              ["/work/proj/A.cls"; "/work/proj/bad.cls"; "/work/proj/B.cls";
               "/work/proj/run.apex"])
         ∖ list_to_set
             (Demo.relative Demo.root <$>
                filter (λ f, extractionFailed Demo.readFile true unit Demo.parse f = true)
                  ["/work/proj/A.cls"; "/work/proj/bad.cls"; "/work/proj/B.cls";
                   "/work/proj/run.apex"])).
Proof.
  assert ("bad.cls"
          ∈ filesIndexed (runFullIndex Demo.relative Demo.glob Demo.extractor Demo.idle))
    as Hin by (apply (bool_decide_unpack _); by vm_compute).
  split_and!; [reflexivity | reflexivity | reflexivity | reflexivity | reflexivity
              | exact Hin |].
  intros Heq. rewrite Heq in Hin. apply elem_of_difference in Hin as [_ Hnot].
  apply Hnot. apply (bool_decide_unpack _). by vm_compute.
Qed.

(** On that project all four files are indexed, the unreadable ones with no
    entries. *)
Example rebuild_indexed_files :
  filesIndexed (runFullIndex Demo.relative Demo.glob Demo.extractor Demo.idle)
  = {[ "A.cls"; "bad.cls"; "B.cls"; "run.apex" ]}.
Proof. apply (bool_decide_unpack _). by vm_compute. Qed.

Lemma indexFile_leaves_no_residue_witness :
  knownRoot Demo.indexed = Some Demo.root
  ∧ extractedDefs Demo.extract Demo.root "/work/proj/run.apex" = []
  ∧ (∀ n, Forall (λ d : Definition_, file d ≠ "run.apex")
            (bucket
               (definitions
                  (indexFile Demo.relative Demo.extract Demo.indexed
                     "/work/proj/run.apex")) n))
  ∧ (∀ n r,
       r ∈ bucket
             (references
                (indexFile Demo.relative Demo.extract Demo.indexed
                   "/work/proj/run.apex")) n →
       file r = "run.apex" →
       r ∈ extractedRefs Demo.extract Demo.root "/work/proj/run.apex").
Proof.
  pose proof (indexFile_leaves_no_residue Demo.relative Demo.extract Demo.indexed
                Demo.root "/work/proj/run.apex" eq_refl)
    as (_ & _ & _ & _ & _ & _ & _ & _ & Hrefs & Hnodefs & _).
  split_and!; [reflexivity | reflexivity | exact (Hnodefs eq_refl) | exact Hrefs].
Defined.

(** Claim C3 as stated fails: [run.apex] was indexed, it contains no
    definition, and after it is indexed again the references mapping still
    holds an entry of that file (the reference it contains). *)
Lemma reindexed_file_without_definitions_keeps_references :
  knownRoot Demo.indexed = Some Demo.root
  ∧ "run.apex" ∈ filesIndexed Demo.indexed
  ∧ Demo.relative Demo.root "/work/proj/run.apex" = "run.apex"
  ∧ extractedDefs Demo.extract Demo.root "/work/proj/run.apex" = []
  ∧ ¬ (∀ n, Forall (λ r : Reference, file r ≠ "run.apex")
              (bucket
                 (references
                    (indexFile Demo.relative Demo.extract Demo.indexed
                       "/work/proj/run.apex")) n)).
Proof.
  split_and!; [reflexivity | by vm_compute | reflexivity | reflexivity |].
  intros Hnone. specialize (Hnone "Foo").
  vm_compute in Hnone. apply Forall_cons in Hnone as [Hfile _]. by apply Hfile.
Qed.

Lemma demo_indexed_unique : indexUnique Demo.indexed.
Proof.
  split; intros n xs Hl; unfold uniqueKeys; simpl in Hl.
  - apply lookup_singleton_Some in Hl as [_ <-]. by apply NoDup_singleton.
  - apply lookup_insert_Some in Hl as [[_ <-] | [_ Hl]]; [by apply NoDup_singleton|].
    apply lookup_singleton_Some in Hl as [_ <-]. by apply NoDup_singleton.
Defined.

Lemma unique_keys_preserved_witness :
  indexUnique Demo.indexed
  ∧ indexUnique (runFullIndex Demo.relative Demo.glob Demo.extract Demo.indexed)
  ∧ indexUnique
      (handleFileSave Demo.relative Demo.fileURLToPath Demo.extract Demo.indexed
         "file:///work/proj/B.cls")
  ∧ length
      (filter (λ e, entryKey e = entryKey (mkDefinition "Foo" method "A.cls" (Demo.at_ 1 1 9 2)))
         (bucket
            (addEntry (definitions Demo.indexed)
               (mkDefinition "Foo" method "A.cls" (Demo.at_ 1 1 9 2)))
            "Foo")) = 1.
Proof.
  pose proof (unique_keys_preserved Demo.relative Demo.glob Demo.fileURLToPath
                Demo.findProjectRoot Demo.extract Demo.indexed demo_indexed_unique)
    as (_ & _ & Hrebuild & _ & Hsave & Hdefs & _).
  split_and!; [exact demo_indexed_unique | exact Hrebuild | exact (Hsave _) |].
  exact (proj1 (proj2 (Hdefs (mkDefinition "Foo" method "A.cls" (Demo.at_ 1 1 9 2))))).
Defined.

(** A colliding insertion leaves the stored entry, not the new one. *)
Example colliding_insert_keeps_first :
  bucket
    (addEntry (definitions Demo.indexed)
       (mkDefinition "Foo" method "A.cls" (Demo.at_ 1 1 9 2))) "Foo"
  = [mkDefinition "Foo" class_ "A.cls" (Demo.at_ 1 1 1 4)].
Proof. by vm_compute. Qed.

Lemma rebuild_request_rejected_while_indexing_witness :
  isIndexing Demo.busy = true
  ∧ runFullIndex Demo.relative Demo.glob Demo.extract Demo.busy = Demo.busy
  ∧ startRebuild Demo.busy = (Demo.busy, SkippedAlreadyIndexing)
  ∧ isIndexing
      (run Demo.relative Demo.glob Demo.extract (Demo.idle, [])
         [RebuildRequest; Resume]).1 = true
  ∧ run Demo.relative Demo.glob Demo.extract (Demo.idle, [])
      ([RebuildRequest; Resume] ++ RebuildRequest :: [Resume; Resume; Resume; Resume])
    = run Demo.relative Demo.glob Demo.extract (Demo.idle, [])
        ([RebuildRequest; Resume] ++ [Resume; Resume; Resume; Resume]).
Proof.
  pose proof (rebuild_request_rejected_while_indexing Demo.relative Demo.glob
                Demo.extract) as (Hskip & _ & _ & Hdrop).
  split_and!.
  - reflexivity.
  - exact (proj1 (Hskip Demo.busy eq_refl)).
  - exact (proj2 (Hskip Demo.busy eq_refl)).
  - reflexivity.
  - exact (Hdrop (Demo.idle, []) [RebuildRequest; Resume]
             [Resume; Resume; Resume; Resume] eq_refl).
Defined.

(** The interrupted history ends where the uninterrupted rebuild ends. *)
Example interrupted_rebuild_result :
  (run Demo.relative Demo.glob Demo.extract (Demo.idle, [])
     [RebuildRequest; Resume; RebuildRequest; Resume; Resume; Resume; Resume]).2 = []
  ∧ (run Demo.relative Demo.glob Demo.extract (Demo.idle, [])
       [RebuildRequest; Resume; RebuildRequest; Resume; Resume; Resume; Resume]).1
    = runFullIndex Demo.relative Demo.glob Demo.extract Demo.idle.
Proof. split; by vm_compute. Qed.

Lemma lookups_return_lists_witness :
  definitions Demo.indexed !! "Nowhere" = None
  ∧ findDefinitions Demo.resolve false Demo.indexed "Nowhere" "file:///work/proj" = []
  ∧ knownRoot newService = None
  ∧ findReferences Demo.resolve false newService "Foo" "file:///work/proj" = [].
Proof.
  split_and!.
  - reflexivity.
  - exact (proj1 (lookups_return_lists Demo.resolve false Demo.indexed "Nowhere"
                    "file:///work/proj") eq_refl).
  - reflexivity.
  - pose proof (lookups_return_lists Demo.resolve false newService "Foo"
                  "file:///work/proj") as (_ & _ & Hnoroot & _).
    exact (proj2 (Hnoroot eq_refl)).
Defined.

Lemma position_round_trip_witness :
  (1 ≤ 2 ≤ 2147483648)%Z ∧ (1 ≤ 5 ≤ 2147483648)%Z
  ∧ pointToPosition (lspPositionToPoint (toLspPosition {| line := 2; column := 5 |}))
    = {| line := 2; column := 5 |}.
Proof.
  assert (HL : (1 ≤ 2 ≤ 2147483648)%Z) by lia.
  assert (HC : (1 ≤ 5 ≤ 2147483648)%Z) by lia.
  split; [exact HL | split; [exact HC|]].
  exact (proj1 (position_round_trip 2 5 HL HC)).
Defined.

(** Claim C7 as stated fails: line 2147483649 is at least 1, and the
    conversion of a range at that line throws in [Range.create]; there is no
    protocol position to convert back, and the lookups drop such an entry. *)
Lemma position_beyond_protocol_range_is_refused :
  (1 ≤ 2147483649)%Z ∧ (1 ≤ 1)%Z
  ∧ throws (indexRangeToLspRange (Demo.at_ 2147483649 1 2147483649 1)) = true
  ∧ toLspLocation Demo.resolve false Demo.indexed
      (mkDefinition "Foo" class_ "A.cls" (Demo.at_ 2147483649 1 2147483649 1))
      "file:///work/proj" = None
  ∧ ¬ (∃ lspRange,
         indexRangeToLspRange (Demo.at_ 2147483649 1 2147483649 1) = Returned lspRange
         ∧ pointToPosition (lspPositionToPoint (Lsp.start lspRange))
           = {| line := 2147483649; column := 1 |}).
Proof.
  split_and!; [lia | lia | reflexivity | reflexivity |].
  intros (lspRange & Hret & _). discriminate Hret.
Qed.

Lemma lookup_order_is_insertion_order_witness :
  knownRoot Demo.idle = Some Demo.root
  ∧ isIndexing Demo.idle = false
  ∧ Demo.glob Demo.root
    = Returned ["/work/proj/A.cls"; "/work/proj/bad.cls"; "/work/proj/B.cls";
                "/work/proj/run.apex"]
  ∧ findReferences Demo.resolve false
      (runFullIndex Demo.relative Demo.glob Demo.extract Demo.idle) "Foo"
      "file:///work/proj"
    = omap (lspLocationOf Demo.resolve false Demo.root)
        (mjoin (refsNamed Demo.extract Demo.root "Foo" <$>
                  ["/work/proj/A.cls"; "/work/proj/bad.cls"; "/work/proj/B.cls";
                   "/work/proj/run.apex"])).
Proof.
  split_and!; [reflexivity..|].
  pose proof (lookup_order_is_insertion_order Demo.relative Demo.resolve Demo.glob
                false Demo.extract Demo.idle Demo.root _ "Foo" "file:///work/proj"
                eq_refl eq_refl eq_refl)
    as (_ & _ & _ & _ & _ & _ & Hrefs).
  apply Hrefs.
  - apply (bool_decide_unpack _). by vm_compute.
  - intros f Hf.
    repeat (apply elem_of_cons in Hf as [->|Hf]);
      try (by apply elem_of_nil in Hf);
      (split; [apply (bool_decide_unpack _) | apply (bool_decide_unpack _)];
       by vm_compute).
Defined.

(** The references to [Foo] after the rebuild: [B.cls] first, then
    [run.apex], the order in which the files were enumerated. *)
Example references_in_enumeration_order :
  findReferences Demo.resolve false
    (runFullIndex Demo.relative Demo.glob Demo.extract Demo.idle) "Foo"
    "file:///work/proj"
  = [ Lsp.mkLocation "file:///work/proj/B.cls"
        (Lsp.mkRange (Lsp.mkPosition 2 8) (Lsp.mkPosition 2 11));
      Lsp.mkLocation "file:///work/proj/run.apex"
        (Lsp.mkRange (Lsp.mkPosition 0 0) (Lsp.mkPosition 0 3)) ].
Proof. by vm_compute. Qed.

Lemma handleFileSave_accepts_sibling_directory_witness :
  projectRoot Demo.indexed = Some "/work/proj"
  ∧ uriToPath Demo.fileURLToPath "file:///work/proj2/A.cls" = Some "/work/proj2/A.cls"
  ∧ Demo.extract "/work/proj2/A.cls" "/work/proj"
    = Returned ([mkDefinition "Baz" class_ "../proj2/A.cls" (Demo.at_ 1 14 1 17)], [])
  ∧ startsWith "/work/proj2/A.cls" "/work/proj/" = false
  ∧ Demo.relative "/work/proj" "/work/proj2/A.cls"
    ∈ filesIndexed
        (handleFileSave Demo.relative Demo.fileURLToPath Demo.extract Demo.indexed
           "file:///work/proj2/A.cls")
  ∧ ∃ e, e ∈ bucket
               (definitions
                  (handleFileSave Demo.relative Demo.fileURLToPath Demo.extract
                     Demo.indexed "file:///work/proj2/A.cls")) "Baz"
         ∧ entryKey e
           = entryKey (mkDefinition "Baz" class_ "../proj2/A.cls" (Demo.at_ 1 14 1 17)).
Proof.
  pose proof (handleFileSave_accepts_sibling_directory Demo.relative
                Demo.fileURLToPath Demo.extract Demo.indexed
                "file:///work/proj2/A.cls" _ _ eq_refl eq_refl eq_refl)
    as (Houtside & _ & _ & Hindexed & _ & _ & Hdefs & _).
  split_and!; [reflexivity | reflexivity | reflexivity | exact Houtside
              | exact Hindexed |].
  exact (Hdefs (mkDefinition "Baz" class_ "../proj2/A.cls" (Demo.at_ 1 14 1 17))
           ltac:(apply list_elem_of_here)).
Defined.

(** The sibling file's class is then found by a lookup. *)
Example sibling_definition_is_served :
  findDefinitions Demo.resolve false
    (handleFileSave Demo.relative Demo.fileURLToPath Demo.extract Demo.indexed
       "file:///work/proj2/A.cls") "Baz" "file:///work/proj"
  = [ Lsp.mkLocation "file:///work/proj2/A.cls"
        (Lsp.mkRange (Lsp.mkPosition 0 13) (Lsp.mkPosition 0 16)) ].
Proof. by vm_compute. Qed.

Lemma parseFile_never_rejects_witness :
  throws (Demo.readFile "/work/proj/bad.cls") = true
  ∧ Demo.extractor "/work/proj/bad.cls" Demo.root = Returned ([], [])
  ∧ knownRoot Demo.indexed = Some Demo.root
  ∧ Demo.relative Demo.root "/work/proj/bad.cls"
    ∈ filesIndexed
        (indexFile Demo.relative Demo.extractor Demo.indexed "/work/proj/bad.cls").
Proof.
  pose proof (parseFile_never_rejects Demo.relative Demo.readFile true unit
                Demo.parse Demo.queryMatches Demo.childForFieldName
                "/work/proj/bad.cls" Demo.root)
    as (_ & _ & Hunreadable & _ & _ & Hengine).
  split_and!.
  - reflexivity.
  - exact (Hunreadable eq_refl).
  - reflexivity.
  - exact (proj2 (Hengine Demo.indexed eq_refl)).
Defined.

(** ** The further properties on the small project *)

Lemma runFullIndex_depends_on_root_only_witness :
  knownRoot Demo.indexed = Some Demo.root
  ∧ isIndexing Demo.indexed = false ∧ isIndexing Demo.idle = false
  ∧ projectRoot Demo.indexed = projectRoot Demo.idle
  ∧ runFullIndex Demo.relative Demo.glob Demo.extract Demo.indexed
    = runFullIndex Demo.relative Demo.glob Demo.extract Demo.idle.
Proof.
  split_and!; [reflexivity..|].
  exact (proj1 (runFullIndex_depends_on_root_only Demo.relative Demo.glob
                  Demo.extract Demo.indexed Demo.idle Demo.root
                  eq_refl eq_refl eq_refl eq_refl)).
Defined.

Lemma no_root_no_operation_witness :
  knownRoot newService = None
  ∧ runFullIndex Demo.relative Demo.glob Demo.extract newService = newService
  ∧ handleFileSave Demo.relative Demo.fileURLToPath Demo.extract newService
      "file:///work/proj/A.cls" = newService.
Proof.
  pose proof (no_root_no_operation Demo.relative Demo.glob Demo.fileURLToPath
                Demo.extract newService eq_refl) as (Hrebuild & _ & Hsave & _).
  split_and!; [reflexivity | exact Hrebuild | exact (Hsave _)].
Defined.

Lemma reachable_store_is_well_formed_witness :
  knownRoot
    (foldl (handle Demo.relative Demo.glob Demo.fileURLToPath Demo.findProjectRoot
              Demo.extract)
       newService [Initialize "file:///work/proj"; FileSave "file:///work/proj/B.cls"])
  = Some Demo.root
  ∧ length
      (findReferences Demo.resolve false
         (foldl (handle Demo.relative Demo.glob Demo.fileURLToPath
                   Demo.findProjectRoot Demo.extract)
            newService [Initialize "file:///work/proj"; FileSave "file:///work/proj/B.cls"])
         "Foo" "file:///work/proj")
    = length
        (bucket
           (references
              (foldl (handle Demo.relative Demo.glob Demo.fileURLToPath
                        Demo.findProjectRoot Demo.extract)
                 newService
                 [Initialize "file:///work/proj"; FileSave "file:///work/proj/B.cls"]))
           "Foo").
Proof.
  pose proof (reachable_store_is_well_formed Demo.relative Demo.resolve Demo.glob
                Demo.fileURLToPath Demo.findProjectRoot false Demo.extract
                [Initialize "file:///work/proj"; FileSave "file:///work/proj/B.cls"])
    as (_ & Hlookup).
  assert (Hroot :
    knownRoot
      (foldl (handle Demo.relative Demo.glob Demo.fileURLToPath Demo.findProjectRoot
                Demo.extract)
         newService [Initialize "file:///work/proj"; FileSave "file:///work/proj/B.cls"])
    = Some Demo.root) by (vm_compute; reflexivity).
  split; [exact Hroot|].
  destruct (Hlookup Demo.root "Foo" "file:///work/proj" Hroot) as (_ & _ & _ & Hrefs).
  refine (proj2 (Hrefs _)).
  apply (bool_decide_unpack _). by vm_compute.
Defined.

Lemma indexFile_then_lookup_witness :
  knownRoot Demo.idle = Some Demo.root
  ∧ Demo.extract "/work/proj/A.cls" Demo.root
    = Returned ([mkDefinition "Foo" class_ "A.cls" (Demo.at_ 1 1 1 4)],
                [mkReference "Bar" "A.cls" (Demo.at_ 2 5 2 8)])
  ∧ ∃ loc,
      loc ∈ findDefinitions Demo.resolve false
              (indexFile Demo.relative Demo.extract Demo.idle "/work/proj/A.cls")
              "Foo" "file:///work/proj"
      ∧ Lsp.uri loc = "file:///work/proj/A.cls"
      ∧ Lsp.start (Lsp.range loc) = Lsp.mkPosition 0 0.
Proof.
  split_and!; [reflexivity..|].
  pose proof (indexFile_then_lookup Demo.relative Demo.resolve false Demo.extract
                Demo.idle Demo.root "/work/proj/A.cls" _ _ "file:///work/proj"
                eq_refl eq_refl
                ltac:(repeat constructor) ltac:(repeat constructor)) as (Hdefs & _).
  exact (Hdefs (mkDefinition "Foo" class_ "A.cls" (Demo.at_ 1 1 1 4))
           ltac:(apply list_elem_of_here)).
Defined.

Lemma handleFileSave_decision_witness :
  uriToPath Demo.fileURLToPath "file:///work/proj/B.cls" = Some "/work/proj/B.cls"
  ∧ knownRoot Demo.indexed = Some "/work/proj"
  ∧ handleFileSave Demo.relative Demo.fileURLToPath Demo.extract Demo.indexed
      "file:///work/proj/B.cls"
    = indexFile Demo.relative Demo.extract Demo.indexed "/work/proj/B.cls"
  ∧ startsWith "untitled:Untitled-1" "file://" = false
  ∧ handleFileSave Demo.relative Demo.fileURLToPath Demo.extract Demo.indexed
      "untitled:Untitled-1" = Demo.indexed.
Proof.
  split_and!; [reflexivity | reflexivity | | reflexivity |].
  - exact (proj1 (handleFileSave_decision Demo.relative Demo.fileURLToPath
                    Demo.extract Demo.indexed "file:///work/proj/B.cls")
             "/work/proj/B.cls" "/work/proj" "/B.cls" "/work/proj/B"
             eq_refl eq_refl eq_refl (or_introl eq_refl)).
  - exact (proj1 (proj2 (handleFileSave_decision Demo.relative Demo.fileURLToPath
                           Demo.extract Demo.indexed "untitled:Untitled-1"))
             eq_refl).
Defined.

Lemma fileUriOf_shape_witness :
  fileUriOf true "C:\proj\A.cls" = "file:///C:/proj/A.cls"
  ∧ fileUriOf false "C:\proj\A.cls" = "file://C:/proj/A.cls"
  ∧ fileUriOf true "/work/proj/A.cls" = "file:///work/proj/A.cls".
Proof.
  split_and!.
  - exact (proj1 (proj2 (fileUriOf_shape true "C:\proj\A.cls")) eq_refl).
  - exact (proj1 (proj2 (proj2 (proj2 (fileUriOf_shape false "C:\proj\A.cls"))))
             eq_refl).
  - exact (proj1 (proj2 (proj2 (proj2 (proj2
             (fileUriOf_shape true "/work/proj/A.cls"))))) eq_refl).
Defined.

Lemma location_translations_agree_witness :
  knownRoot Demo.indexed = Some Demo.root
  ∧ toLspLocation Demo.resolve false Demo.indexed
      (mkReference "Bar" "A.cls" (Demo.at_ 2 5 2 8)) "file:///work/proj"
    = Some (Lsp.mkLocation "file:///work/proj/A.cls"
              (Lsp.mkRange (Lsp.mkPosition 1 4) (Lsp.mkPosition 1 7))).
Proof.
  split; [reflexivity|].
  exact (proj2 (proj1 (proj2 (proj2 (location_translations_agree Demo.resolve false
                                       Demo.indexed
                                       (mkReference "Bar" "A.cls" (Demo.at_ 2 5 2 8))
                                       "file:///work/proj"))) eq_refl)
           Demo.root eq_refl).
Defined.

Lemma extractSymbolNameAtOffset_word_witness :
  wordAt "public class Foo { Bar b; }" "public class " "Foo" " { Bar b; }"
  ∧ (Z.of_nat (String.length "public class ") ≤ 16
     ≤ Z.of_nat (String.length "public class " + String.length "Foo"))%Z
  ∧ extractSymbolNameAtOffset "public class Foo { Bar b; }" 16 = Some "Foo".
Proof.
  assert (Hword : wordAt "public class Foo { Bar b; }" "public class " "Foo"
                    " { Bar b; }")
    by (split_and!; [reflexivity | discriminate | reflexivity..]).
  assert (Hoffset : (Z.of_nat (String.length "public class ") ≤ 16
                     ≤ Z.of_nat (String.length "public class " + String.length "Foo"))%Z)
    by (simpl; lia).
  split; [exact Hword | split; [exact Hoffset|]].
  apply (proj1 (extractSymbolNameAtOffset_word "public class Foo { Bar b; }" 16) "Foo").
  exists "public class ", " { Bar b; }". by split.
Defined.

Lemma referencesAtPosition_word_witness :
  wordAt "public class Foo { Bar b; }" "public class Foo { " "Bar" " b; }"
  ∧ referencesAtPosition Demo.resolve false Demo.offsetAt
      (mkServer (Some "file:///work/proj") Demo.indexed
         {[ "file:///work/proj/A.cls" := "public class Foo { Bar b; }" ]})
      "file:///work/proj/A.cls" (Lsp.mkPosition 0 20)
    = Some [Lsp.mkLocation "file:///work/proj/A.cls"
              (Lsp.mkRange (Lsp.mkPosition 1 4) (Lsp.mkPosition 1 7))].
Proof.
  assert (Hword : wordAt "public class Foo { Bar b; }" "public class Foo { " "Bar"
                    " b; }")
    by (split_and!; [reflexivity | discriminate | reflexivity..]).
  split; [exact Hword|].
  exact (proj1 (referencesAtPosition_word Demo.resolve false Demo.offsetAt
                  (mkServer (Some "file:///work/proj") Demo.indexed
                     {[ "file:///work/proj/A.cls" := "public class Foo { Bar b; }" ]})
                  "file:///work/proj/A.cls" (Lsp.mkPosition 0 20))
           "public class Foo { Bar b; }" "file:///work/proj" Demo.root
           "public class Foo { " "Bar" " b; }"
           eq_refl eq_refl eq_refl Hword ltac:(simpl; lia)).
Defined.

Lemma server_keeps_index_consistent_witness :
  knownRootUri
    (foldl (serverStep Demo.relative Demo.glob Demo.fileURLToPath
              Demo.findProjectRoot Demo.extract)
       newServer
       [InitializeEvent (Some ["file:///work/proj"]) None;
        DidSaveEvent "file:///work/proj/B.cls"])
  = Some "file:///work/proj"
  ∧ "Nowhere" ≠ ""
  ∧ is_Some
      (definitionForSymbol Demo.resolve false
         (foldl (serverStep Demo.relative Demo.glob Demo.fileURLToPath
                   Demo.findProjectRoot Demo.extract)
            newServer
            [InitializeEvent (Some ["file:///work/proj"]) None;
             DidSaveEvent "file:///work/proj/B.cls"])
         "Nowhere").
Proof.
  pose proof (server_keeps_index_consistent Demo.relative Demo.resolve Demo.glob
                Demo.fileURLToPath Demo.findProjectRoot false Demo.extract
                [InitializeEvent (Some ["file:///work/proj"]) None;
                 DidSaveEvent "file:///work/proj/B.cls"])
    as (_ & _ & Hanswer & _).
  assert (Huri :
    knownRootUri
      (foldl (serverStep Demo.relative Demo.glob Demo.fileURLToPath
                Demo.findProjectRoot Demo.extract)
         newServer
         [InitializeEvent (Some ["file:///work/proj"]) None;
          DidSaveEvent "file:///work/proj/B.cls"])
    = Some "file:///work/proj") by (vm_compute; reflexivity).
  assert (Hsymbol : "Nowhere" ≠ "") by discriminate.
  split_and!; [exact Huri | exact Hsymbol |].
  eexists. exact (proj1 (Hanswer "file:///work/proj" "Nowhere" Huri Hsymbol)).
Defined.

Lemma parseFile_contract_witness :
  Demo.extractor "/work/proj/A.cls" Demo.root
  = Returned
      ([mkDefinition "Foo" class_ "A.cls" (Demo.at_ 1 14 1 17);
        mkDefinition "b" property "A.cls" (Demo.at_ 1 24 1 25)],
       [mkReference "Bar" "A.cls" (Demo.at_ 1 20 1 23)])
  ∧ Forall (λ d : Definition_, file d = Demo.relative Demo.root "/work/proj/A.cls")
      [mkDefinition "Foo" class_ "A.cls" (Demo.at_ 1 14 1 17);
       mkDefinition "b" property "A.cls" (Demo.at_ 1 24 1 25)].
Proof.
  assert (Hparse :
    Demo.extractor "/work/proj/A.cls" Demo.root
    = Returned
        ([mkDefinition "Foo" class_ "A.cls" (Demo.at_ 1 14 1 17);
          mkDefinition "b" property "A.cls" (Demo.at_ 1 24 1 25)],
         [mkReference "Bar" "A.cls" (Demo.at_ 1 20 1 23)]))
    by (vm_compute; reflexivity).
  split; [exact Hparse|].
  exact (proj1 (parseFile_contract Demo.relative Demo.readFile true unit Demo.parse
                  Demo.queryMatches Demo.childForFieldName "/work/proj/A.cls"
                  Demo.root _ _ Hparse)).
Defined.

Lemma parseFile_positions_one_based_witness :
  Demo.extractor "/work/proj/A.cls" Demo.root
  = Returned
      ([mkDefinition "Foo" class_ "A.cls" (Demo.at_ 1 14 1 17);
        mkDefinition "b" property "A.cls" (Demo.at_ 1 24 1 25)],
       [mkReference "Bar" "A.cls" (Demo.at_ 1 20 1 23)])
  ∧ Forall (λ r : Reference, oneBased (range r))
      [mkReference "Bar" "A.cls" (Demo.at_ 1 20 1 23)].
Proof.
  assert (Hparse :
    Demo.extractor "/work/proj/A.cls" Demo.root
    = Returned
        ([mkDefinition "Foo" class_ "A.cls" (Demo.at_ 1 14 1 17);
          mkDefinition "b" property "A.cls" (Demo.at_ 1 24 1 25)],
         [mkReference "Bar" "A.cls" (Demo.at_ 1 20 1 23)]))
    by (vm_compute; reflexivity).
  split; [exact Hparse|].
  refine (proj2 (parseFile_positions_one_based Demo.relative Demo.readFile true unit
                   Demo.parse Demo.queryMatches Demo.childForFieldName
                   "/work/proj/A.cls" Demo.root _ _ _ _ Hparse)).
  - intros q tree ms. unfold Demo.queryMatches.
    repeat case_match; intros [= <-];
      repeat (apply Forall_cons; split); try apply Forall_nil_2;
      unfold nonNegativeNode; simpl; lia.
  - intros n field c. discriminate.
Defined.

Lemma findProjectRoot_nearest_marker_witness :
  RootDiscovery.hasMarker Demo.join Demo.access Demo.statIsDirectory
    "/work/proj/src" = false
  ∧ RootDiscovery.hasMarker Demo.join Demo.access Demo.statIsDirectory
      "/work/proj" = true
  ∧ RootDiscovery.findProjectRoot Demo.resolve1 Demo.rootOf Demo.join Demo.dirname
      Demo.access Demo.statIsDirectory 3 "/work/proj/src/classes"
    = Some "/work/proj".
Proof.
  split_and!; [reflexivity | reflexivity |].
  refine (proj1 (proj2 (findProjectRoot_nearest_marker Demo.resolve1 Demo.rootOf
                          Demo.join Demo.dirname Demo.access Demo.statIsDirectory
                          "/work/proj/src/classes" 2 _))
            eq_refl eq_refl 3 ltac:(lia)).
  intros [|[|j]] Hj; [split; reflexivity | split; reflexivity | lia].
Defined.

Lemma indexFile_touches_only_its_file_witness :
  knownRoot Demo.indexed = Some Demo.root
  ∧ filter (λ r : Reference, file r ≠ Demo.relative Demo.root "/work/proj/A.cls")
      (bucket
         (references
            (indexFile Demo.relative Demo.extractor Demo.indexed "/work/proj/A.cls"))
         "Foo")
    = filter (λ r : Reference, file r ≠ Demo.relative Demo.root "/work/proj/A.cls")
        (bucket (references Demo.indexed) "Foo").
Proof.
  split; [reflexivity|].
  exact (proj1 (proj2 (indexFile_touches_only_its_file Demo.relative Demo.readFile
                         true unit Demo.parse Demo.queryMatches
                         Demo.childForFieldName Demo.indexed Demo.root
                         "/work/proj/A.cls" eq_refl)) "Foo").
Defined.

Lemma rebuild_records_every_file_witness :
  knownRoot Demo.idle = Some Demo.root
  ∧ isIndexing Demo.idle = false
  ∧ filesIndexed (runFullIndex Demo.relative Demo.glob Demo.extractor Demo.idle)
    = list_to_set
        (Demo.relative Demo.root <$>
           ["/work/proj/A.cls"; "/work/proj/bad.cls"; "/work/proj/B.cls";
            "/work/proj/run.apex"]).
Proof.
  split_and!; [reflexivity..|].
  exact (rebuild_records_every_file Demo.relative Demo.glob Demo.readFile true unit
           Demo.parse Demo.queryMatches Demo.childForFieldName Demo.idle Demo.root
           _ eq_refl eq_refl eq_refl).
Defined.

Lemma initialize_decision_witness :
  uriToPath Demo.fileURLToPath "file:///work/other" = Some "/work/other"
  ∧ "/work/other" ≠ ""
  ∧ isIndexing Demo.busy = true
  ∧ initialize Demo.relative Demo.glob Demo.fileURLToPath Demo.findProjectRoot
      Demo.extract Demo.busy "file:///work/other"
    = {| definitions := definitions Demo.indexed;
         references := references Demo.indexed;
         filesIndexed := filesIndexed Demo.indexed;
         projectRoot := Some "/work/other"; isIndexing := true |}.
Proof.
  assert (Hpath : "/work/other" ≠ "") by discriminate.
  split_and!; [reflexivity | exact Hpath | reflexivity |].
  pose proof (proj2 (proj2 (initialize_decision Demo.relative Demo.glob
                              Demo.fileURLToPath Demo.findProjectRoot Demo.extract
                              Demo.busy "file:///work/other"))
                "/work/other" eq_refl Hpath) as (_ & _ & Hbusy & _).
  exact (Hbusy eq_refl).
Defined.
